(** * Pagination helpers of the civitai server: keyset cursors and paging data

    Shallow embedding of [src/server/utils/pagination-helpers.ts]
    ([getPagination], [getPagingData], [getPaginationLinks], [getPagedData],
    [parseSortString], [parseCursor], [getCursor]), of [splitUppercase],
    [getInitials], [generateToken] and [getFileExtension] of [src/utils/string-helpers.ts], of
    [moderatePrompt] of [src/server/integrations/moderation.ts] and of the
    navigation between images of
    [src/components/Image/Detail/ImageDetailProvider.tsx], together with the fragment of the ECMAScript library and of Prisma's SQL
    template tag those functions call, followed by the properties that the
    specification states about them and by further properties of the code.

    Conventions of the embedding:
    - a JavaScript [number] is an IEEE 754 binary64 value, taken from the
      Standard Library's [SpecFloat] at precision 53 and maximal exponent 1024;
    - a JavaScript string is a [string] of 8-bit code units, read as ASCII
      (white space, digits and letter case are those of ASCII);
    - [undefined] is [None] where a value is optional, and a constructor of
      its own inside [Js.Value];
    - an object used as a map ([Record<string, number>]) is a finite map from
      property keys to values; the prototype chain is left out, so no sort
      field is taken to be named like a member of [Object.prototype];
    - a call that can throw returns a [Js.result];
    - what the platform and other modules provide to a function ([new URL],
      [QS.stringify], [fetch], the environment, the callback of
      [getPagedData], the results of [Math.random]) is a parameter of that
      function;
    - a loop runs on fuel, and a result is stated for every amount of fuel
      that lets it end. *)

From Stdlib Require Import ZArith NArith Ascii String List Bool Lia.
From Stdlib Require Import Floats.SpecFloat.
From stdpp Require Import base option list strings gmap.

Local Open Scope Z_scope.

(** ** The ECMAScript fragment *)

Module Js.

(** Error kinds.  [TypeError] is what the runtime and Prisma throw.
    [InvalidSortSpec] and [InvalidCursor] are the kinds the specification
    names; no definition of this file raises them. *)
Inductive Error : Type :=
| TypeError
| InvalidSortSpec
| InvalidCursor.

Inductive result (A : Type) : Type :=
| Ok (a : A)
| Throw (e : Error).
Arguments Ok {A} a.
Arguments Throw {A} e.

Definition bind {A B : Type} (m : result A) (k : A -> result B) : result B :=
  match m with
  | Ok a => k a
  | Throw e => Throw e
  end.

(** [for (let i = start; i < start + count; i++) body], the loop state
    passed along; an iteration that throws ends the loop. *)
Fixpoint forLoop {S : Type} (body : nat -> S -> result S)
    (i count : nat) (st : S) : result S :=
  match count with
  | O => Ok st
  | Datatypes.S count' =>
      bind (body i st) (fun st' => forLoop body (Datatypes.S i) count' st')
  end.

(** *** Numbers *)

Definition number : Type := spec_float.

Definition prec : Z := 53.
Definition emax : Z := 1024.

Definition NaN : number := S754_nan.

(** The number written as the integer literal [z] (rounded to nearest, ties
    to even, like every numeric literal). *)
Definition num (z : Z) : number := binary_normalize prec emax z 0 false.

Definition sub (x y : number) : number := SFsub prec emax x y.
Definition mul (x y : number) : number := SFmul prec emax x y.
Definition div (x y : number) : number := SFdiv prec emax x y.
(** [x > y] *)
Definition gt (x y : number) : bool := SFltb y x.

(** ToBoolean on a number: false for +0, -0 and NaN. *)
Definition truthy (x : number) : bool :=
  match x with
  | S754_zero _ | S754_nan => false
  | _ => true
  end.

(** [Math.ceil]. *)
Definition ceil (x : number) : number :=
  match x with
  | S754_finite s m e =>
      if 0 <=? e then x
      else
        let q := Z.shiftr (Zpos m) (- e) in
        let exact := Z.shiftl q (- e) =? Zpos m in
        if s then binary_normalize prec emax (- q) 0 true
        else binary_normalize prec emax (if exact then q else q + 1) 0 false
  | _ => x
  end.

(** The mathematical value [mant * 10 ^ e10] with sign [neg], rounded to
    the nearest number. *)
Definition of_decimal (neg : bool) (mant e10 : Z) : number :=
  match mant with
  | Zpos m =>
      if 0 <=? e10
      then binary_normalize prec emax
             (cond_Zopp neg (Zpos m * 10 ^ e10)) 0 neg
      else
        let '(mz, ez, lz) :=
          SFdiv_core_binary prec emax (Zpos m) 0 (10 ^ (- e10)) 0 in
        binary_round_aux prec emax neg mz ez lz
  | _ => S754_zero neg
  end.

(** *** Strings *)

Definition code (c : ascii) : Z := Z.of_N (N_of_ascii c).

(** WhiteSpace and LineTerminator code units: TAB, LF, VT, FF, CR, SP. *)
Definition isWhiteSpace (c : ascii) : bool :=
  ((9 <=? code c) && (code c <=? 13)) || (code c =? 32).

Definition isEmpty (s : string) : bool :=
  match s with
  | EmptyString => true
  | String _ _ => false
  end.

Fixpoint trimStart (s : string) : string :=
  match s with
  | String c s' => if isWhiteSpace c then trimStart s' else s
  | EmptyString => EmptyString
  end.

Fixpoint trimEnd (s : string) : string :=
  match s with
  | String c s' =>
      let t := trimEnd s' in
      if isWhiteSpace c && isEmpty t then EmptyString else String c t
  | EmptyString => EmptyString
  end.

(** [String.prototype.trim] *)
Definition trim (s : string) : string := trimEnd (trimStart s).

(** [String.prototype.split] with a separator of one code unit; the result
    is never empty. *)
Fixpoint split (sep : ascii) (s : string) : list string :=
  match s with
  | EmptyString => [EmptyString]
  | String c s' =>
      if Ascii.eqb c sep then EmptyString :: split sep s'
      else match split sep s' with
           | seg :: segs => String c seg :: segs
           | [] => [String c EmptyString]
           end
  end.

(** [Array.prototype.join] on an array of strings. *)
Fixpoint join (sep : string) (l : list string) : string :=
  match l with
  | [] => EmptyString
  | [x] => x
  | x :: l' => x +:+ sep +:+ join sep l'
  end.

Definition toUpperChar (c : ascii) : ascii :=
  if (97 <=? code c) && (code c <=? 122)
  then ascii_of_N (N_of_ascii c - 32)
  else c.

(** [String.prototype.toUpperCase]: the letters [a] to [z] become [A] to
    [Z] and every other code unit stays.  This is the method on ASCII
    strings; outside ASCII the method changes more (some characters become
    several), so the length of a result is stated for ASCII strings only. *)
Fixpoint toUpperCase (s : string) : string :=
  match s with
  | EmptyString => EmptyString
  | String c s' => String (toUpperChar c) (toUpperCase s')
  end.

(** *** StringToNumber: [Number(s)] on a string *)

(** The value of a digit in the given radix, if it is one. *)
Definition digitValue (radix : Z) (c : ascii) : option Z :=
  let n := code c in
  let v :=
    if (48 <=? n) && (n <=? 57) then n - 48
    else if (97 <=? n) && (n <=? 122) then n - 87
    else if (65 <=? n) && (n <=? 90) then n - 55
    else radix in
  if v <? radix then Some v else None.

(** Reads the longest run of digits at the start of [s]: the value
    accumulated on top of [acc], the number of digits read, and the rest. *)
Fixpoint readDigits (radix : Z) (acc : Z) (count : Z) (s : string)
  : Z * Z * string :=
  match s with
  | String c s' =>
      match digitValue radix c with
      | Some d => readDigits radix (radix * acc + d) (count + 1) s'
      | None => (acc, count, s)
      end
  | EmptyString => (acc, count, s)
  end.

(** An optional [+] or [-]: whether the sign is [-], and what follows. *)
Definition readSign (s : string) : bool * string :=
  match s with
  | String c r =>
      if Ascii.eqb c "+" then (false, r)
      else if Ascii.eqb c "-" then (true, r)
      else (false, s)
  | EmptyString => (false, s)
  end.

(** ExponentPart (optional): [e] or [E], an optional sign, one or more
    digits; nothing may follow. *)
Definition readExponent (s : string) : option Z :=
  match s with
  | EmptyString => Some 0
  | String c s' =>
      if Ascii.eqb c "e" || Ascii.eqb c "E" then
        let '(neg, s'') := readSign s' in
        match readDigits 10 0 0 s'' with
        | (v, n, EmptyString) =>
            if 0 <? n then Some (cond_Zopp neg v) else None
        | _ => None
        end
      else None
  end.

(** StrUnsignedDecimalLiteral other than [Infinity]:
    digits, optionally [.] and digits, optionally an exponent, with a digit
    on at least one side of the point.  Yields mantissa and power of ten. *)
Definition readUnsignedDecimal (s : string) : option (Z * Z) :=
  let '(ip, ni, r1) := readDigits 10 0 0 s in
  let '(m, nf, r2) :=
    match r1 with
    | String c r =>
        if Ascii.eqb c "." then readDigits 10 ip 0 r else (ip, 0, r1)
    | EmptyString => (ip, 0, r1)
    end in
  if 0 <? ni + nf then
    match readExponent r2 with
    | Some e => Some (m, e - nf)
    | None => None
    end
  else None.

(** NonDecimalIntegerLiteral: [0x], [0o] or [0b] (either case) followed by
    one or more digits of that radix. *)
Definition readNonDecimal (s : string) : option Z :=
  match s with
  | String z (String p r) =>
      let radix :=
        if negb (Ascii.eqb z "0") then None
        else if Ascii.eqb p "x" || Ascii.eqb p "X" then Some 16
        else if Ascii.eqb p "o" || Ascii.eqb p "O" then Some 8
        else if Ascii.eqb p "b" || Ascii.eqb p "B" then Some 2
        else None in
      match radix with
      | Some b =>
          match readDigits b 0 0 r with
          | (v, n, EmptyString) => if 0 <? n then Some v else None
          | _ => None
          end
      | None => None
      end
  | _ => None
  end.

(** StrNumericLiteral; [None] when [s] is not one. *)
Definition readNumericLiteral (s : string) : option number :=
  match readNonDecimal s with
  | Some v => Some (num v)
  | None =>
      let '(neg, r) := readSign s in
      if String.eqb r "Infinity" then Some (S754_infinity neg)
      else match readUnsignedDecimal r with
           | Some (m, e) => Some (of_decimal neg m e)
           | None => None
           end
  end.

(** [Number(s)]: white space is stripped, the empty string is [+0], a
    numeric literal is its value, anything else is [NaN]. *)
Definition Number (s : string) : number :=
  let t := trim s in
  if isEmpty t then S754_zero false
  else match readNumericLiteral t with
       | Some x => x
       | None => NaN
       end.

(** *** Integers in decimal *)

Definition digitChar (d : Z) : ascii := ascii_of_N (Z.to_N (48 + d)).

Fixpoint digitsFrom (fuel : nat) (n : Z) (acc : string) : string :=
  match fuel with
  | O => acc
  | S fuel' =>
      let acc' := String (digitChar (n mod 10)) acc in
      if n <? 10 then acc' else digitsFrom fuel' (n / 10) acc'
  end.

(** The decimal digits of an integer, with a leading [-] when negative;
    what [String(n)] gives for an integral number below 10^21, and what SQL
    gives for an integer column. *)
Definition integerToString (z : Z) : string :=
  let n := Z.abs z in
  let ds := digitsFrom (S (Z.to_nat (Z.log2 n))) n EmptyString in
  if z <? 0 then String "-" ds else ds.

(** *** Values that reach the query *)

Inductive Value : Type :=
| VUndefined
| VNumber (n : number)
| VBigInt (z : Z).

(** ToString of a value that is a string or [undefined]: property keys
    ([o[k]]) and [+=] on a string. *)
Definition toString (s : option string) : string :=
  match s with
  | Some s => s
  | None => "undefined"
  end.

(** How [Array.prototype.join] renders an element that is a string or
    [undefined]. *)
Definition joinText (s : option string) : string :=
  match s with
  | Some s => s
  | None => EmptyString
  end.

(** [o[k]] on an object used as a map: [undefined] for an absent key. *)
Definition get (o : gmap string Value) (k : option string) : Value :=
  match o !! toString k with
  | Some v => v
  | None => VUndefined
  end.

(** *** Further operators and library functions *)

(** [x + y] *)
Definition add (x y : number) : number := SFadd prec emax x y.
(** [x < y] *)
Definition lt (x y : number) : bool := SFltb x y.
(** [x === y] on numbers: [NaN] equals nothing, [+0] equals [-0]. *)
Definition strictEquals (x y : number) : bool := SFeqb x y.

(** ToNumber and ToBoolean on a value that is a number or [undefined]. *)
Definition toNumber (x : option number) : number :=
  match x with
  | Some n => n
  | None => NaN
  end.

Definition truthyOpt (x : option number) : bool :=
  match x with
  | Some n => truthy n
  | None => false
  end.

(** [{...o, [k]: v}] on an object given by its own properties in
    enumeration order, for a key [k] that is no array index: the property
    is replaced where it stands, or added at the end. *)
Fixpoint setProperty {V : Type} (k : string) (v : V) (o : list (string * V))
  : list (string * V) :=
  match o with
  | [] => [(k, v)]
  | (k', v') :: o' =>
      if String.eqb k' k then (k', v) :: o' else (k', v') :: setProperty k v o'
  end.

(** Indices, lengths and [>>> 0] work on integral numbers far below 2^53,
    where binary64 arithmetic is exact; they are integers here. *)

Definition stringLength (s : string) : Z := Z.of_nat (String.length s).

(** [s.lastIndexOf(c)] for a search string of one code unit; -1 when [c]
    does not occur. *)
Fixpoint lastIndexOf (c : ascii) (s : string) : Z :=
  match s with
  | EmptyString => -1
  | String c' s' =>
      let later := lastIndexOf c s' in
      if 0 <=? later then later + 1
      else if Ascii.eqb c' c then 0 else -1
  end.

(** [z >>> 0]: ToUint32. *)
Definition toUint32 (z : Z) : Z := z mod 2 ^ 32.

Fixpoint dropChars (n : nat) (s : string) : string :=
  match n, s with
  | O, _ => s
  | S n', String _ s' => dropChars n' s'
  | S _, EmptyString => EmptyString
  end.

(** [s.slice(start)]: a negative [start] counts from the end, and the
    start is clamped to the string. *)
Definition slice (start : Z) (s : string) : string :=
  let len := stringLength s in
  let from := if start <? 0 then Z.max (len + start) 0 else Z.min start len in
  dropChars (Z.to_nat from) s.

Definition arrayLength {A : Type} (l : list A) : Z := Z.of_nat (length l).

(** [l[i]]: [undefined] outside the array. *)
Definition elementAt {A : Type} (l : list A) (i : Z) : option A :=
  if i <? 0 then None else l !! Z.to_nat i.

Fixpoint findIndexFrom {A : Type} (p : A -> bool) (l : list A) (i : Z) : Z :=
  match l with
  | [] => -1
  | x :: l' => if p x then i else findIndexFrom p l' (i + 1)
  end.

(** [l.findIndex(p)]: the first index whose element satisfies [p], or -1. *)
Definition findIndex {A : Type} (p : A -> bool) (l : list A) : Z :=
  findIndexFrom p l 0.

Definition isUpperCase (c : ascii) : bool := (65 <=? code c) && (code c <=? 90).

(** [s.split(/(?=[A-Z])/)]: the string is cut before every upper-case
    letter except one at index 0 (an empty match at the start of a piece
    is skipped); the pieces of a non-empty string are not empty. *)
Fixpoint splitBeforeUpperCase (s : string) : list string :=
  match s with
  | EmptyString => [EmptyString]
  | String c s' =>
      match s' with
      | EmptyString => [String c EmptyString]
      | String c' _ =>
          if isUpperCase c' then String c EmptyString :: splitBeforeUpperCase s'
          else match splitBeforeUpperCase s' with
               | seg :: segs => String c seg :: segs
               | [] => [String c EmptyString]
               end
      end
  end.

(** [Math.floor] *)
Definition floor (x : number) : number :=
  match x with
  | S754_finite s m e =>
      if 0 <=? e then x
      else
        let q := Z.shiftr (Zpos m) (- e) in
        let exact := Z.shiftl q (- e) =? Zpos m in
        if s then binary_normalize prec emax (- (if exact then q else q + 1)) 0 true
        else binary_normalize prec emax q 0 false
  | _ => x
  end.

(** ToIntegerOrInfinity: the number truncated to an integer, nothing for
    an infinity *)
Definition toIntegerOrInfinity (x : number) : option Z :=
  match x with
  | S754_zero _ | S754_nan => Some 0
  | S754_infinity _ => None
  | S754_finite s m e =>
      Some (cond_Zopp s (if 0 <=? e then Zpos m * 2 ^ e else Zpos m / 2 ^ (- e)))
  end.

(** [s.charAt(pos)]: the empty string outside the string *)
Definition charAt (s : string) (pos : number) : string :=
  match toIntegerOrInfinity pos with
  | Some k =>
      if k <? 0 then EmptyString
      else match String.get (Z.to_nat k) s with
           | Some c => String c EmptyString
           | None => EmptyString
           end
  | None => EmptyString
  end.

End Js.

Notation "'let*' x ':=' m 'in' k" := (Js.bind m (fun x => k))
  (at level 10, x name, m at level 100, k at level 200).

(** ** Prisma's SQL template tag *)

Module Prisma.
Import Js.

(** A query text with holes: [strings q] and [values q] alternate, one
    more string than values.  [filled] pairs each value with the string
    before it, [rest] is the string after the last value. *)
Record Sql : Type := { filled : list (string * Value); rest : string }.

Definition strings (q : Sql) : list string := (filled q).*1 ++ [rest q].
Definition values (q : Sql) : list Value := (filled q).*2.

(** The getter [sql]: the strings with a [?] for each value. *)
Definition text (q : Sql) : string :=
  fold_right (fun '(s, _) acc => s +:+ "?" +:+ acc) (rest q) (filled q).

(** What a template or [join] interpolates: a nested query or a value. *)
Inductive RawValue : Type :=
| Nested (q : Sql)
| Plain (v : Value).

(** [strings[pos] += s] *)
Definition appendText (q : Sql) (s : string) : Sql :=
  {| filled := filled q; rest := rest q +:+ s |}.

(** [values[pos++] = v; strings[pos] = s] *)
Definition pushValue (q : Sql) (v : Value) (s : string) : Sql :=
  {| filled := filled q ++ [(rest q, v)]; rest := s |}.

(** A nested query is spliced in: its first string is appended to the
    current one, then each of its values follows with the string after
    it. *)
Definition splice (q child : Sql) : Sql :=
  match filled child with
  | [] => appendText q (rest child)
  | (s0, v0) :: more =>
      {| filled := filled q ++ (rest q +:+ s0, v0) :: more;
         rest := rest child |}
  end.

(** The loop of the constructor: starting from the first string, each
    interpolated value is taken with the string that follows it. *)
Definition assemble (s0 : string) (pairs : list (RawValue * string)) : Sql :=
  fold_left
    (fun q '(child, rawString) =>
       match child with
       | Nested c => appendText (splice q c) rawString
       | Plain v => pushValue q v rawString
       end)
    pairs
    {| filled := []; rest := s0 |}.

(** [new Sql(rawStrings, rawValues)]: there must be one more string than
    values. *)
Definition new (rawStrings : list string) (rawValues : list RawValue)
  : result Sql :=
  match rawStrings with
  | [] => Throw TypeError
  | s0 :: ss =>
      if Nat.eqb (length ss) (length rawValues)
      then Ok (assemble s0 (zip rawValues ss))
      else Throw TypeError
  end.

(** The tag [Prisma.sql`...`] applied to the template's strings and
    interpolated values. *)
Definition sql := new.

(** [Prisma.raw(s)].  With [s] undefined the only string of the result is
    [undefined]; the enclosing template appends it with [+=], which makes
    it the text [undefined], the only way the helpers observe it. *)
Definition raw (s : option string) : Sql :=
  {| filled := []; rest := toString s |}.

(** [Prisma.join(values, separator)]; an empty array is a [TypeError]. *)
Definition join (qs : list Sql) (separator : string) : result Sql :=
  match qs with
  | [] => Throw TypeError
  | _ :: qs' =>
      new (EmptyString :: map (fun _ => separator) qs' ++ [EmptyString])
          (map Nested qs)
  end.

End Prisma.

(** ** pagination-helpers.ts *)

Import Js.

Definition DEFAULT_PAGE_SIZE : number := num 20.

Record Pagination : Type := { take : option number; skip : option number }.

Definition getPagination (limit : number) (page : option number) : Pagination :=
  let take := if gt limit (num 0) then Some limit else None in
  let skip :=
    match page, take with
    | Some page, Some take =>
        if truthy page && truthy take
        then Some (mul (sub page (num 1)) take)
        else None
    | _, _ => None
    end in
  {| take := take; skip := skip |}.

Record PagingInput (T : Type) : Type := { count : option number; items : list T }.
Arguments count {T} _.
Arguments items {T} _.

Record PagingData (T : Type) : Type :=
  { pd_items : list T;
    totalItems : number;
    currentPage : number;
    pageSize : number;
    totalPages : number }.
Arguments pd_items {T} _.
Arguments totalItems {T} _.
Arguments currentPage {T} _.
Arguments pageSize {T} _.
Arguments totalPages {T} _.

Definition getPagingData {T : Type} (data : PagingInput T)
    (limit page : option number) : PagingData T :=
  let totalItems := default (num 0) (count data) in
  let items := items data in
  let currentPage := default (num 1) page in
  let pageSize := default totalItems limit in
  let totalPages :=
    if truthy pageSize && truthy totalItems
    then ceil (div totalItems pageSize)
    else num 1 in
  {| pd_items := items;
     totalItems := totalItems;
     currentPage := currentPage;
     pageSize := pageSize;
     totalPages := totalPages |}.

(** [order] is declared ['ASC' | 'DESC'], but holds whatever upper-cased
    token the sort string carries; [field] is [undefined] for a clause
    without tokens. *)
Record SortField : Type := { field : option string; order : string }.

Definition parseSortString (sortString : string) : list SortField :=
  map (fun part =>
         let tokens :=
           List.filter (fun t => negb (isEmpty t)) (split " " (trim part)) in
         let field := tokens !! 0%nat in
         let order := default "ASC" (tokens !! 1%nat) in
         {| field := field; order := toUpperCase order |})
      (split "," sortString).

Inductive Cursor : Type :=
| CString (s : string)
| CNumber (n : number)
| CBigInt (z : Z).

Definition parseCursor (fields : list SortField) (cursor : Cursor)
  : result (gmap string Value) :=
  match cursor with
  | CNumber n =>
      match fields !! 0%nat with
      | Some f => Ok {[ toString (field f) := VNumber n ]}
      | None => Throw TypeError
      end
  | CBigInt z =>
      match fields !! 0%nat with
      | Some f => Ok {[ toString (field f) := VBigInt z ]}
      | None => Throw TypeError
      end
  | CString cursor =>
      let values := map Number (split ":" cursor) in
      forLoop
        (fun i (result : gmap string Value) =>
           match fields !! i with
           | Some f =>
               Ok (<[ toString (field f) :=
                        match values !! i with
                        | Some v => VNumber v
                        | None => VUndefined
                        end ]> result)
           | None => Throw TypeError
           end)
        0 (length fields) ∅
  end.

(** ToBoolean on a cursor, the test of [if (cursor)]. *)
Definition truthyCursor (cursor : Cursor) : bool :=
  match cursor with
  | CString s => negb (isEmpty s)
  | CNumber n => truthy n
  | CBigInt z => negb (z =? 0)
  end.

(** The body of [if (cursor)] in [getCursor] after the cursor is parsed:
    the two nested loops and the final [Prisma.sql]. *)
Definition buildKeysetPredicate (sortFields : list SortField)
    (cursors : gmap string Value) : result Prisma.Sql :=
  let* conditions :=
    forLoop
      (fun i (conditions : list Prisma.Sql) =>
         let* conditionParts :=
           forLoop
             (fun j (conditionParts : list Prisma.Sql) =>
                match sortFields !! j with
                | Some {| field := field; order := order |} =>
                    let operator :=
                      if (j <? i)%nat then "="
                      else if String.eqb order "DESC" then "<" else ">" in
                    let operator := if (j <? i)%nat then "=" else operator in
                    let* part :=
                      Prisma.sql [EmptyString; " "; " "; EmptyString]
                        [Prisma.Nested (Prisma.raw field);
                         Prisma.Nested (Prisma.raw (Some operator));
                         Prisma.Plain (get cursors field)] in
                    Ok (conditionParts ++ [part])
                | None => Throw TypeError
                end)
             0 (S i) [] in
         let* joined := Prisma.join conditionParts " AND " in
         let* condition := Prisma.sql ["("; ")"] [Prisma.Nested joined] in
         Ok (conditions ++ [condition]))
      0 (length sortFields) [] in
  let* joined := Prisma.join conditions " OR " in
  Prisma.sql ["("; ")"] [Prisma.Nested joined].

Record CursorQuery : Type := { where_ : option Prisma.Sql; prop : option string }.

Definition getCursor (sortString : string) (cursor : option Cursor)
  : result CursorQuery :=
  let sortFields := parseSortString sortString in
  let* where_ :=
    match cursor with
    | Some cursor =>
        if truthyCursor cursor then
          let* cursors := parseCursor sortFields cursor in
          let* w := buildKeysetPredicate sortFields cursors in
          Ok (Some w)
        else Ok None
    | None => Ok None
    end in
  let sortProps := map field sortFields in
  let* prop :=
    if Nat.eqb (length sortFields) 1 then
      match sortFields !! 0%nat with
      | Some f => Ok (field f)
      | None => Throw TypeError
      end
    else Ok (Some ("CONCAT(" +:+ join ", ':', " (map joinText sortProps) +:+ ")")) in
  Ok {| where_ := where_; prop := prop |}.

(** *** [getPaginationLinks]

    [new URL] and [QS.stringify] belong to the platform and to
    [~/utils/qs]; they are parameters, and so is the constant [isProd].  Of
    the request only [url], [headers.host] and [query] are read. *)

Record URL : Type := { origin : string; pathname : string }.

(** The values of [req.query], and the page number the links add. *)
Inductive QueryValue : Type :=
| QUndefined
| QString (s : string)
| QStrings (l : list string)
| QNumber (n : number).

Record NextApiRequest : Type :=
  { url : option string;
    host : option string;
    query : list (string * QueryValue) }.

Record PaginationLinks : Type :=
  { nextPage : option string; prevPage : option string; baseUrl : URL }.

Definition getPaginationLinks (isProd : bool)
    (URL_new : string -> string -> result URL)
    (QS_stringify : list (string * QueryValue) -> string)
    (req : NextApiRequest) (totalPages currentPage : number)
  : result PaginationLinks :=
  let* baseUrl :=
    URL_new (default "/" (url req))
            (if isProd then "https://" +:+ toString (host req)
             else "http://localhost:3000") in
  let hasNextPage := lt currentPage totalPages in
  let hasPrevPage := gt totalPages (num 1) && gt currentPage (num 1) in
  let nextPageQueryString :=
    if hasNextPage
    then QS_stringify
           (setProperty "page" (QNumber (add currentPage (num 1))) (query req))
    else EmptyString in
  let prevPageQueryString :=
    if hasPrevPage
    then QS_stringify
           (setProperty "page" (QNumber (sub currentPage (num 1))) (query req))
    else EmptyString in
  let nextPage :=
    if hasNextPage
    then Some (origin baseUrl +:+ pathname baseUrl +:+ "?" +:+ nextPageQueryString)
    else None in
  let prevPage :=
    if hasPrevPage
    then Some (origin baseUrl +:+ pathname baseUrl +:+ "?" +:+ prevPageQueryString)
    else None in
  Ok {| nextPage := nextPage; prevPage := prevPage; baseUrl := baseUrl |}.

(** *** [getPagedData]

    The query is taken as already destructured into [page], [limit] and
    the object [rest] of its other properties.  The callback [fn] is a
    parameter; a rejected promise is a [Throw]. *)

(** A property of the callback's argument: computed here ([skip], [take])
    or passed on from the query. *)
Inductive ArgValue (V : Type) : Type :=
| Computed (n : option number)
| Given (v : V).
Arguments Computed {V} n.
Arguments Given {V} v.

Record FetchResult (TData : Type) : Type :=
  { fr_items : TData; fr_count : option number }.
Arguments fr_items {TData} _.
Arguments fr_count {TData} _.

Record PagedData (TData : Type) : Type :=
  { pg_currentPage : option number;
    pg_pageSize : option number;
    pg_totalPages : number;
    pg_totalItems : option number;
    pg_items : TData }.
Arguments pg_currentPage {TData} _.
Arguments pg_pageSize {TData} _.
Arguments pg_totalPages {TData} _.
Arguments pg_totalItems {TData} _.
Arguments pg_items {TData} _.

(** The object [{ skip, take, ...rest }]: the spread comes last, so a
    property of [rest] named [skip] or [take] replaces the computed one. *)
Definition fetchArgs {V : Type} (skip take : option number) (rest : gmap string V)
  : gmap string (ArgValue V) :=
  (Given <$> rest) ∪ {[ "skip" := Computed skip; "take" := Computed take ]}.

Definition getPagedData {V TData : Type} (page limit : option number)
    (rest : gmap string V)
    (fn : gmap string (ArgValue V) -> result (FetchResult TData))
  : result (PagedData TData) :=
  let take := if negb (truthyOpt page) then None else limit in
  let skip :=
    if negb (truthyOpt page) then None
    else Some (mul (sub (toNumber page) (num 1)) (toNumber limit)) in
  let* fetched := fn (fetchArgs skip take rest) in
  let items := fr_items fetched in
  let count := fr_count fetched in
  Ok {| pg_currentPage := page;
        pg_pageSize := take;
        pg_totalPages :=
          if truthyOpt take && truthyOpt count
          then ceil (div (toNumber count) (toNumber take))
          else num 1;
        pg_totalItems := count;
        pg_items := items |}.

(** ** string-helpers.ts *)

Definition splitUppercase (value : string) : string :=
  join " " (map trim (splitBeforeUpperCase (trim value))).

(** [\w]: an ASCII letter, a digit or [_]. *)
Definition isWordChar (c : ascii) : bool :=
  ((48 <=? code c) && (code c <=? 57)) || ((65 <=? code c) && (code c <=? 90))
  || ((97 <=? code c) && (code c <=? 122)) || (code c =? 95).

(** The matches of [\b\S] from a position on, joined; [prevWord] tells
    whether the code unit before the position is a word character.  At
    every other position the pattern of [getInitials] matches the empty
    string. *)
Fixpoint boundaryChars (prevWord : bool) (s : string) : string :=
  match s with
  | EmptyString => EmptyString
  | String c s' =>
      let word := isWordChar c in
      if xorb prevWord word && negb (isWhiteSpace c)
      then String c (boundaryChars word s')
      else boundaryChars word s'
  end.

(** [s.match(/(^\S\S?|\b\S)?/g).join('')]: at index 0 one or two code
    units that are no white space, then every code unit that is no white
    space and stands at a word boundary.  The pattern matches (at least the
    empty string) everywhere, so [match] never returns [null]. *)
Definition matchStartAndBoundaries (s : string) : string :=
  match s with
  | EmptyString => EmptyString
  | String c s' =>
      if isWhiteSpace c then boundaryChars false s
      else
        match s' with
        | EmptyString => String c EmptyString
        | String c' s'' =>
            if isWhiteSpace c' then String c (boundaryChars (isWordChar c) s')
            else String c (String c' (boundaryChars (isWordChar c') s''))
        end
  end.

(** The match of [\S$]: the last code unit, when it is no white space. *)
Fixpoint lastNonSpace (s : string) : string :=
  match s with
  | EmptyString => EmptyString
  | String c EmptyString =>
      if isWhiteSpace c then EmptyString else String c EmptyString
  | String _ s' => lastNonSpace s'
  end.

(** [s.match(/(^\S|\S$)?/g).join('')] *)
Definition matchFirstAndLast (s : string) : string :=
  match s with
  | EmptyString => EmptyString
  | String c s' =>
      match s' with
      | EmptyString => if isWhiteSpace c then EmptyString else String c EmptyString
      | _ =>
          (if isWhiteSpace c then EmptyString else String c EmptyString)
          +:+ lastNonSpace s'
      end
  end.

Definition getInitials (value : string) : string :=
  toUpperCase (matchFirstAndLast (matchStartAndBoundaries value)).

Definition getFileExtension (value : string) : string :=
  slice (toUint32 (lastIndexOf "." value - 1) + 2) value.

Definition tokenCharacters : string :=
  "ABCDEFGHIJKLMNOPQRSTUVWXYZabcdefghijklmnopqrstuvwxyz0123456789".
Definition tokenCharactersLength : number := num (stringLength tokenCharacters).

(** The loop of [generateToken]. [random] gives the results of the
    successive calls of [Math.random], [calls] counts the calls made so
    far; [fuel] bounds the number of tests of [i < length]. *)
Fixpoint generateTokenLoop (fuel : nat) (random : nat -> number) (calls : nat)
    (length : number) (i : number) (result : string) : option string :=
  match fuel with
  | O => None
  | S fuel' =>
      if lt i length then
        generateTokenLoop fuel' random (S calls) length (add i (num 1))
          (result
           +:+ charAt tokenCharacters
                 (floor (mul (random calls) tokenCharactersLength)))
      else Some result
  end.

Definition generateToken (fuel : nat) (random : nat -> number) (length : number)
  : option string :=
  generateTokenLoop fuel random 0 length (num 0) EmptyString.

(** ** ImageDetailProvider.tsx: the navigation between images

    [index], [canNavigate], [previous] and [next] are computed by the
    component from the loaded [images] and the current [imageId]; of an image
    only the [id] is read.  [navigate(id)] asks the router to show the image
    [id]; [previous] and [next] return the [id] they navigate to, or nothing
    when they do not navigate. *)

Definition imageIndex {Image : Type} (id : Image -> number)
    (images : list Image) (imageId : number) : Z :=
  findIndex (fun x => strictEquals (id x) imageId) images.

Definition canNavigate {Image : Type} (id : Image -> number)
    (images : list Image) (imageId : number) : bool :=
  if -1 <? imageIndex id images imageId
  then 1 <? arrayLength images
  else 0 <? arrayLength images.

(** [images[i].id]; a [TypeError] when [images[i]] is [undefined]. *)
Definition idAt {Image : Type} (id : Image -> number)
    (images : list Image) (i : Z) : result number :=
  match elementAt images i with
  | Some x => Ok (id x)
  | None => Throw TypeError
  end.

Definition previous {Image : Type} (id : Image -> number)
    (images : list Image) (imageId : number) : result (option number) :=
  let prevIndex := imageIndex id images imageId - 1 in
  if canNavigate id images imageId then
    let* target :=
      if -1 <? prevIndex then idAt id images prevIndex
      else idAt id images (arrayLength images - 1) in
    Ok (Some target)
  else Ok None.

Definition next {Image : Type} (id : Image -> number)
    (images : list Image) (imageId : number) : result (option number) :=
  let nextIndex := imageIndex id images imageId + 1 in
  if canNavigate id images imageId then
    let* target :=
      if nextIndex <? arrayLength images then idAt id images nextIndex
      else idAt id images 0 in
    Ok (Some target)
  else Ok None.

(** ** moderation.ts

    [env] and [fetch] are parameters.  A request is what [fetch] is given
    beyond constants: the endpoint, the [Authorization] header and the
    [input] of the body.  The reply of the service is taken to have the shape
    the code reads: [results], an array of objects with a boolean [flagged]
    and an object [categories] of booleans.  A rejected promise and a thrown
    error are a [Raised]. *)

Inductive Thrown : Type :=
| Native (e : Error)
| ErrorWith (message : string).

Inductive Outcome (A : Type) : Type :=
| Returned (a : A)
| Raised (x : Thrown).
Arguments Returned {A} a.
Arguments Raised {A} x.

Record ModerationEnv : Type :=
  { EXTERNAL_MODERATION_TOKEN : option string;
    EXTERNAL_MODERATION_ENDPOINT : option string;
    EXTERNAL_MODERATION_CATEGORIES : option (list (string * option string)) }.

Record ModerationRequest : Type :=
  { rq_endpoint : string; rq_authorization : string; rq_input : string }.

Record ModerationEntry : Type :=
  { entry_flagged : bool; entry_categories : list (string * bool) }.

Record ModerationReply : Type := { results : list ModerationEntry }.

Record Response : Type :=
  { res_ok : bool;
    res_status : Z;
    res_statusText : string;
    res_text : Outcome string;
    res_json : Outcome ModerationReply }.

Record Moderation : Type := { flagged : bool; categories : list string }.

(** ToBoolean on a value that is a string or [undefined]. *)
Definition truthyString (s : option string) : bool :=
  match s with
  | Some s => negb (isEmpty s)
  | None => false
  end.

(** [o[k]] tested for truthiness, on an object of booleans. *)
Definition reported (o : list (string * bool)) (k : string) : bool :=
  match List.find (fun kv => String.eqb (fst kv) k) o with
  | Some (_, b) => b
  | None => false
  end.

Definition newline : string := String (ascii_of_nat 10) EmptyString.

Definition moderationRequest (env : ModerationEnv) (prompt : string)
  : ModerationRequest :=
  {| rq_endpoint := toString (EXTERNAL_MODERATION_ENDPOINT env);
     rq_authorization := "Bearer " +:+ toString (EXTERNAL_MODERATION_TOKEN env);
     rq_input := prompt |}.

Definition moderatePrompt (env : ModerationEnv)
    (fetch : ModerationRequest -> Outcome Response) (prompt : string)
  : Outcome Moderation :=
  if negb (truthyString (EXTERNAL_MODERATION_TOKEN env))
     || negb (truthyString (EXTERNAL_MODERATION_ENDPOINT env))
  then Returned {| flagged := false; categories := [] |}
  else
    match fetch (moderationRequest env prompt) with
    | Raised x => Raised x
    | Returned res =>
        if negb (res_ok res) then
          let message :=
            "External moderation failed: " +:+ integerToString (res_status res)
            +:+ " " +:+ res_statusText res in
          let message :=
            match res_text res with
            | Returned body => message +:+ newline +:+ body
            | Raised _ => message
            end in
          Raised (ErrorWith message)
        else
          match res_json res with
          | Raised x => Raised x
          | Returned reply =>
              match results reply !! 0%nat with
              | None => Raised (Native TypeError)
              | Some first =>
                  let flagged := entry_flagged first in
                  let categories :=
                    map fst (List.filter snd (entry_categories first)) in
                  match EXTERNAL_MODERATION_CATEGORIES env with
                  | Some configured =>
                      let categories :=
                        fold_left
                          (fun categories '(k, v) =>
                             if reported (entry_categories first) k
                             then categories ++ [default k v]
                             else categories)
                          configured [] in
                      Returned {| flagged := 0 <? arrayLength categories;
                                  categories := categories |}
                  | None =>
                      Returned {| flagged := flagged; categories := categories |}
                  end
              end
          end
    end.

(** ** Definitions used to state the properties *)

(** The call [parseSortString(s)] as its caller sees it.  No step of the
    function can throw ([split], [map], [trim], [filter], a destructuring
    with a default, [toUpperCase] on a string), so the call always completes
    with the list. *)
Definition parseSortString_result (sortString : string)
  : result (list SortField) :=
  Ok (parseSortString sortString).

(** Some comma-separated clause of the sort string is empty once trimmed. *)
Definition hasEmptyClause (sortString : string) : bool :=
  existsb (fun part => isEmpty (trim part)) (split "," sortString).

(** The property key under which a sort field is stored and read. *)
Definition key (f : SortField) : string := toString (field f).

(** [values[i]] as stored by [parseCursor]: the i-th parsed segment, or
    [undefined] past the end of the array. *)
Definition segmentValue (values : list number) (i : nat) : Value :=
  match values !! i with
  | Some v => VNumber v
  | None => VUndefined
  end.

(** The assignments [result[fields[i].field] = values[i]], in order. *)
Definition cursorEntries (fields : list SortField) (values : list number)
  : list (string * Value) :=
  imap (fun i f => (key f, segmentValue values i)) fields.

(** An object after a sequence of property assignments. *)
Definition assignAll (entries : list (string * Value))
    (o : gmap string Value) : gmap string Value :=
  fold_left (fun o '(k, v) => <[ k := v ]> o) entries o.





(** The integer that a number stands for, when it stands for one. *)
Definition integerValue (x : number) : option Z :=
  match x with
  | S754_zero _ => Some 0
  | S754_finite s m e =>
      if 0 <=? e then Some (cond_Zopp s (Zpos m * 2 ^ e))
      else if Zpos m mod 2 ^ (- e) =? 0
           then Some (cond_Zopp s (Zpos m / 2 ^ (- e)))
           else None
  | _ => None
  end.



(** Every code unit of [s] satisfies [P]. *)
Fixpoint allChars (P : ascii -> Prop) (s : string) : Prop :=
  match s with
  | EmptyString => True
  | String c s' => P c /\ allChars P s'
  end.

(** No code unit of [s] is [c]. *)
Definition avoids (c : ascii) (s : string) : Prop := allChars (fun c' => c' <> c) s.


(** *** Condition trees *)

Inductive Operator : Type := OpEq | OpLt | OpGt.

Record Comparison : Type :=
  { cmp_field : option string; cmp_op : Operator; cmp_value : Value }.

(** A disjunction of conjunctions of comparisons. *)
Abbreviation ConditionTree := (list (list Comparison)).

(** The strict comparison of a sort field: [<] when its order is [DESC],
    [>] otherwise (in particular when it is [ASC]). *)
Definition strictOperator (f : SortField) : Operator :=
  if String.eqb (order f) "DESC" then OpLt else OpGt.

Definition equalTo (cursors : gmap string Value) (f : SortField) : Comparison :=
  {| cmp_field := field f; cmp_op := OpEq; cmp_value := get cursors (field f) |}.

Definition strictlyAfter (cursors : gmap string Value) (f : SortField)
  : Comparison :=
  {| cmp_field := field f; cmp_op := strictOperator f;
     cmp_value := get cursors (field f) |}.

(** The keyset predicate as the specification words it: the i-th disjunct
    equates the fields before rank i with their cursor values and compares
    the field of rank i strictly. *)
Definition keysetTree (fields : list SortField) (cursors : gmap string Value)
  : ConditionTree :=
  imap (fun i f => map (equalTo cursors) (firstn i fields) ++ [strictlyAfter cursors f])
       fields.

Definition operatorText (op : Operator) : string :=
  match op with
  | OpEq => "="
  | OpLt => "<"
  | OpGt => ">"
  end.

Definition comparisonText (c : Comparison) : string :=
  toString (cmp_field c) +:+ " " +:+ operatorText (cmp_op c) +:+ " ?".

Definition clauseText (cl : list Comparison) : string :=
  "(" +:+ join " AND " (map comparisonText cl) +:+ ")".

(** The SQL text of a condition tree, a [?] standing for each value. *)
Definition treeText (t : ConditionTree) : string :=
  "(" +:+ join " OR " (map clauseText t) +:+ ")".

(** The values of a condition tree, in the order of their [?]. *)
Definition treeValues (t : ConditionTree) : list Value :=
  concat (map (map cmp_value) t).

(** The queries Prisma builds for a comparison, for a conjunction of
    comparisons and for a condition tree. *)
Definition comparisonSql (c : Comparison) : Prisma.Sql :=
  {| Prisma.filled :=
       [(toString (cmp_field c) +:+ " " +:+ operatorText (cmp_op c) +:+ " ",
         cmp_value c)];
     Prisma.rest := EmptyString |}.

Definition joinSql (qs : list Prisma.Sql) (separator : string) : Prisma.Sql :=
  Prisma.assemble EmptyString
    (zip (map Prisma.Nested qs)
         (map (fun _ => separator) (tail qs) ++ [EmptyString])).

Definition parenthesize (q : Prisma.Sql) : Prisma.Sql :=
  Prisma.assemble "(" [(Prisma.Nested q, ")")].

Definition clauseSql (cl : list Comparison) : Prisma.Sql :=
  parenthesize (joinSql (map comparisonSql cl) " AND ").

Definition treeSql (t : ConditionTree) : Prisma.Sql :=
  parenthesize (joinSql (map clauseSql t) " OR ").

(** The comparison that the inner loop of [getCursor] builds at indices
    [i] (outer) and [j] (inner), and the conjunction built at index [i]. *)
Definition comparisonAt (fields : list SortField) (cursors : gmap string Value)
    (i j : nat) : Comparison :=
  match fields !! j with
  | Some f => if (j <? i)%nat then equalTo cursors f else strictlyAfter cursors f
  | None => {| cmp_field := None; cmp_op := OpEq; cmp_value := VUndefined |}
  end.

Definition clauseAt (fields : list SortField) (cursors : gmap string Value)
    (i : nat) : list Comparison :=
  map (comparisonAt fields cursors i) (seq 0 (S i)).

(** The number that a value of the cursor is compared as with the number of
    a row.  A large integer is compared as the number nearest to it, the way
    a query compares a large integer with a value held as a number; for an
    integer of magnitude below 2^53 that number is the integer itself.
    [undefined] reaches the query as NULL, which compares with nothing. *)
Definition comparand (v : Value) : option number :=
  match v with
  | VNumber x => Some x
  | VBigInt z => Some (num z)
  | VUndefined => None
  end.

(** Whether a row of numbers satisfies a comparison against a value of the
    cursor; a comparison against NULL selects nothing. *)
Definition evalComparison (row : string -> number) (c : Comparison) : bool :=
  match comparand (cmp_value c) with
  | Some v =>
      let x := row (toString (cmp_field c)) in
      match cmp_op c with
      | OpEq => SFeqb x v
      | OpLt => SFltb x v
      | OpGt => SFltb v x
      end
  | None => false
  end.

Definition evalTree (row : string -> number) (t : ConditionTree) : bool :=
  existsb (forallb (evalComparison row)) t.

(** How a row compares with the cursor on one sort field, read in the
    direction of the field: [Gt] when the row comes after the cursor,
    nothing when the two are not comparable (a NaN, a missing value). *)
Definition fieldCompare (row : string -> number) (cursors : gmap string Value)
    (f : SortField) : option comparison :=
  match comparand (get cursors (field f)) with
  | Some v =>
      match SFcompare (row (toString (field f))) v with
      | Some c => Some (if String.eqb (order f) "DESC" then CompOpp c else c)
      | None => None
      end
  | None => None
  end.

(** The lexicographic comparison of a row with the cursor row under a sort
    specification: the first field on which they differ decides. *)
Fixpoint rowCompare (row : string -> number) (cursors : gmap string Value)
    (fields : list SortField) : option comparison :=
  match fields with
  | [] => Some Eq
  | f :: fields' =>
      match fieldCompare row cursors f with
      | Some Eq => rowCompare row cursors fields'
      | c => c
      end
  end.

(** The sort specification [a ASC, b DESC] and the cursor values
    [(a = 5, b = 10)] of the specification's examples. *)
Definition sortAB : list SortField :=
  [ {| field := Some "a"; order := "ASC" |};
    {| field := Some "b"; order := "DESC" |} ].

Definition cursorsAB : gmap string Value :=
  {[ "a" := VNumber (num 5); "b" := VNumber (num 10) ]}.

(** The sort-key expression of a parsed sort specification. *)
Definition sortKeyExpression (sortFields : list SortField) : option string :=
  match sortFields with
  | [f] => field f
  | _ => Some ("CONCAT(" +:+ join ", ':', " (map (fun f => joinText (field f)) sortFields) +:+ ")")
  end.

(** [ceil(a / b)] on integers, for positive [b]. *)
Definition ceilDiv (a b : Z) : Z := (a + b - 1) / b.

(** *** Definitions used to state the further properties *)

(** [o[k]] on an object given by its own properties. *)
Definition getProperty {V : Type} (k : string) (o : list (string * V)) : option V :=
  snd <$> List.find (fun kv => String.eqb (fst kv) k) o.

Definition hasProperty {V : Type} (k : string) (o : list (string * V)) : bool :=
  existsb (fun kv => String.eqb (fst kv) k) o.

(** The query [q'] is the query [q] with the page set to [page]: every
    other parameter is kept, in the same order. *)
Definition replacesPage (q q' : list (string * QueryValue)) (page : number) : Prop :=
  getProperty "page" q' = Some (QNumber page) /\
  (forall k : string, k <> "page" -> getProperty k q' = getProperty k q) /\
  map fst q' = (if hasProperty "page" q then map fst q else map fst q ++ ["page"]).

(** The base against which the request's URL is resolved. *)
Definition requestBase (isProd : bool) (req : NextApiRequest) : string :=
  if isProd then "https://" +:+ toString (host req) else "http://localhost:3000".

(** The link to a page of the listing the request asks for. *)
Definition linkTo (QS_stringify : list (string * QueryValue) -> string)
    (req : NextApiRequest) (u : URL) (page : number) : string :=
  origin u +:+ pathname u +:+ "?"
  +:+ QS_stringify (setProperty "page" (QNumber page) (query req)).

(** A token of a sort string: not empty, without white space or comma. *)
Definition isToken (t : string) : Prop :=
  t <> EmptyString /\ allChars (fun c => isWhiteSpace c = false /\ c <> ","%char) t.

(** The sort field that a clause with the given tokens stands for. *)
Definition clauseOf (tokens : list string) : SortField :=
  {| field := tokens !! 0%nat;
     order := toUpperCase (default "ASC" (tokens !! 1%nat)) |}.

(** A word: not empty, no white space at either end, no upper-case letter
    after its first code unit. *)
Definition isWord (w : string) : Prop :=
  match w with
  | EmptyString => False
  | String c w' =>
      trim w = w /\ allChars (fun c' => isUpperCase c' = false) w'
  end.

Definition startsUpperCase (w : string) : Prop :=
  match w with
  | String c _ => isUpperCase c = true
  | EmptyString => False
  end.

Fixpoint concatStrings (l : list string) : string :=
  match l with
  | [] => EmptyString
  | s :: l' => s +:+ concatStrings l'
  end.

(** No two images share an id, and no id is [NaN]. *)
Definition distinctIds {Image : Type} (id : Image -> number) (images : list Image)
  : Prop :=
  forall (i j : nat) (x y : Image),
    images !! i = Some x -> images !! j = Some y ->
    strictEquals (id x) (id y) = bool_decide (i = j).

(** A request for page 2 of a listing, and stand-ins for the platform's
    URL parser and for the query-string renderer, to try the links on. *)
Definition exampleRequest : NextApiRequest :=
  {| url := Some "/api/v1/models?limit=20&page=2";
     host := Some "civitai.com";
     query := [("limit", QString "20"); ("page", QString "2")] |}.

Definition exampleUrl : URL :=
  {| origin := "http://localhost:3000"; pathname := "/api/v1/models" |}.

Definition renderKeys (q : list (string * QueryValue)) : string :=
  join "&" (map fst q).

(** The cursor values read off a row: each sort field with the row's
    value for it. *)
Definition cursorOfRow (fields : list SortField) (row : string -> number)
  : gmap string Value :=
  list_to_map (map (fun f => (key f, VNumber (row (key f)))) fields).

(** How [SFcompare] orders two finite numbers of the same sign: exponents
    first, then mantissas. *)
Definition lexCompare (e e' m m' : Z) : comparison :=
  match e ?= e' with
  | Eq => m ?= m'
  | c => c
  end.

(** A word of a name: not empty, made of word characters. *)
Definition isWordLike (w : string) : Prop :=
  w <> EmptyString /\ allChars (fun c => isWordChar c = true) w.

(** An ASCII string: every code unit is below 128. *)
Definition isAsciiString (s : string) : Prop := allChars (fun c => code c < 128) s.

(** The first code units of words, and words each after a space. *)
Fixpoint firstChars (words : list string) : string :=
  match words with
  | [] => EmptyString
  | String c _ :: words' => String c (firstChars words')
  | EmptyString :: words' => firstChars words'
  end.

Fixpoint spaced (words : list string) : string :=
  match words with
  | [] => EmptyString
  | w :: words' => " " +:+ w +:+ spaced words'
  end.

(** The configured categories that an entry of the reply reports, under
    their configured names. *)
Definition configuredCategories (configured : list (string * option string))
    (first : ModerationEntry) : list string :=
  map (fun kv => default (fst kv) (snd kv))
      (List.filter (fun kv => reported (entry_categories first) (fst kv)) configured).

(** What [Math.random] returns: a number from 0 (inclusive) up to but not
    including 1. *)
Definition inUnitInterval (r : number) : Prop :=
  match r with
  | S754_zero false => True
  | S754_finite false m e =>
      bounded prec emax m e = true /\ Zpos (digits2_pos m) + e <= 0
  | _ => False
  end.

(** A source of random numbers: 0, then 1/2, then the largest number
    below 1. *)
Definition exampleRandom (i : nat) : number :=
  match i with
  | O => S754_zero false
  | 1%nat => div (num 1) (num 2)
  | _ => S754_finite false (2 ^ 53 - 1) (-53)
  end.

(** ** The embedding at work *)

Section Examples.

Example parseSortString_two_fields :
  parseSortString "createdAt DESC, id ASC"
  = [ {| field := Some "createdAt"; order := "DESC" |};
      {| field := Some "id"; order := "ASC" |} ].
Proof. reflexivity. Qed.

Example parseSortString_lower_case_direction :
  parseSortString "  score   desc ,id"
  = [ {| field := Some "score"; order := "DESC" |};
      {| field := Some "id"; order := "ASC" |} ].
Proof. reflexivity. Qed.

Example getCursor_single_ascending :
  getCursor "id" (Some (CNumber (num 7)))
  = Ok {| where_ := Some {| Prisma.filled := [("((id > ", VNumber (num 7))];
                            Prisma.rest := "))" |};
          prop := Some "id" |}.
Proof. vm_compute. reflexivity. Qed.

Example getCursor_single_descending :
  getCursor "id DESC" (Some (CNumber (num 7)))
  = Ok {| where_ := Some {| Prisma.filled := [("((id < ", VNumber (num 7))];
                            Prisma.rest := "))" |};
          prop := Some "id" |}.
Proof. vm_compute. reflexivity. Qed.

Example Number_literals :
  Number "5" = num 5 /\ Number " 10 " = num 10 /\ Number "-3" = num (-3) /\
  Number "0x10" = num 16 /\ Number "1e3" = num 1000 /\
  Number EmptyString = num 0 /\ Number "abc" = NaN /\ Number "5px" = NaN /\
  Number "1_0" = NaN /\ Number "Infinity" = S754_infinity false.
Proof. repeat split; reflexivity. Qed.

(** Numbers are binary64 values: the literal 2^53 + 1 is read as 2^53. *)
Example Number_rounds_to_nearest :
  Number "9007199254740993" = num 9007199254740992.
Proof. reflexivity. Qed.

Example Math_ceil_values :
  ceil (div (num 5) (num 2)) = num 3 /\
  ceil (div (num (-5)) (num 2)) = num (-2) /\
  ceil (div (num 6) (num 2)) = num 3 /\
  ceil (div (num (-1)) (num 2)) = S754_zero true.
Proof. repeat split; reflexivity. Qed.

(** An empty clause and a segment that is no number go through
    [getCursor] without an error. *)
Example getCursor_empty_clause :
  getCursor "a,,b" None
  = Ok {| where_ := None; prop := Some "CONCAT(a, ':', , ':', b)" |}.
Proof. reflexivity. Qed.

Example getCursor_non_numeric_segment :
  exists w,
    getCursor "a,b" (Some (CString "5:x"))
    = Ok {| where_ := Some w; prop := Some "CONCAT(a, ':', b)" |} /\
    Prisma.text w = "((a > ?) OR (a = ? AND b > ?))" /\
    Prisma.values w = [VNumber (num 5); VNumber (num 5); VNumber NaN].
Proof. eexists. repeat split; vm_compute; reflexivity. Qed.

End Examples.

(** ** Offset pagination: [getPagination] and [getPagingData] *)

Section OffsetPagination.

Lemma gt_zero_truthy (x : number) : gt x (num 0) = true -> truthy x = true.
Proof. destruct x as [s|s| |s m e]; try destruct s; cbn; congruence. Qed.

Lemma take_getPagination (limit : number) (page : option number) :
  take (getPagination limit page)
  = if gt limit (num 0) then Some limit else None.
Proof. reflexivity. Qed.

Lemma skip_getPagination (limit : number) (page : option number) :
  skip (getPagination limit page)
  = match page with
    | Some p =>
        if truthy p && gt limit (num 0)
        then Some (mul (sub p (num 1)) limit)
        else None
    | None => None
    end.
Proof.
  unfold getPagination; cbn [skip].
  destruct page as [p|]; [|reflexivity].
  destruct (gt limit (num 0)) eqn:Hl.
  - rewrite (gt_zero_truthy _ Hl). reflexivity.
  - now rewrite andb_false_r.
Qed.

End OffsetPagination.

(** ** The cursor decoder: [parseCursor] *)

Section CursorDecoder.

Implicit Types (fields : list SortField) (o : gmap string Value).

Lemma assignAll_cons (k : string) (v : Value) entries o :
  assignAll ((k, v) :: entries) o = assignAll entries (<[ k := v ]> o).
Proof. reflexivity. Qed.

(** Assignments to other keys leave a property alone. *)
Lemma assignAll_lookup_other (entries : list (string * Value)) o (k : string) :
  k ∉ entries.*1 -> assignAll entries o !! k = o !! k.
Proof.
  revert o. induction entries as [|[k1 v1] entries IH]; intros o Hk; [done|].
  cbn in Hk. apply not_elem_of_cons in Hk as [Hne Hk].
  rewrite assignAll_cons, IH by exact Hk.
  apply lookup_insert_ne. congruence.
Qed.

Lemma assignAll_lookup_stable (entries : list (string * Value)) o
    (k : string) (v : Value) :
  (forall j v', entries !! j = Some (k, v') -> v' = v) ->
  o !! k = Some v ->
  assignAll entries o !! k = Some v.
Proof.
  revert o. induction entries as [|[k1 v1] entries IH]; intros o Hall Ho; [done|].
  rewrite assignAll_cons. apply IH.
  - intros j v' Hj. apply (Hall (S j) v'). exact Hj.
  - destruct (decide (k1 = k)) as [->|Hne].
    + rewrite (Hall 0%nat v1 eq_refl). apply lookup_insert_eq.
    + rewrite lookup_insert_ne by done. exact Ho.
Qed.

(** The last assignment to a key decides its value; assignments that
    follow with the same value change nothing. *)
Lemma assignAll_lookup_last (entries : list (string * Value)) o
    (i : nat) (k : string) (v : Value) :
  entries !! i = Some (k, v) ->
  (forall j v', (i < j)%nat -> entries !! j = Some (k, v') -> v' = v) ->
  assignAll entries o !! k = Some v.
Proof.
  revert o i. induction entries as [|[k1 v1] entries IH]; intros o i Hi Hlater.
  - discriminate.
  - rewrite assignAll_cons. destruct i as [|i].
    + injection Hi as -> ->. apply assignAll_lookup_stable.
      * intros j v' Hj. apply (Hlater (S j) v'); [lia|exact Hj].
      * apply lookup_insert_eq.
    + apply (IH _ i); [exact Hi|].
      intros j v' Hij Hj. apply (Hlater (S j) v'); [lia|exact Hj].
Qed.

(** The loop of [parseCursor], started at index [length done]. *)
Lemma parseCursor_loop (values : list number) (done rest : list SortField) o :
  forLoop
    (fun i (result : gmap string Value) =>
       match (done ++ rest) !! i with
       | Some f =>
           Ok (<[ toString (field f) :=
                    match values !! i with
                    | Some v => VNumber v
                    | None => VUndefined
                    end ]> result)
       | None => Throw TypeError
       end)
    (length done) (length rest) o
  = Ok (assignAll
          (imap (fun i f => (key f, segmentValue values (length done + i))) rest)
          o).
Proof.
  revert done o. induction rest as [|f rest IH]; intros done o; [reflexivity|].
  cbn [length forLoop]. rewrite list_lookup_middle by reflexivity.
  cbn [bind].
  specialize (IH (done ++ [f])). rewrite <- app_assoc, length_app in IH.
  cbn [length app] in IH. rewrite Nat.add_1_r in IH. rewrite IH.
  cbn [imap]. rewrite assignAll_cons, Nat.add_0_r.
  f_equal. f_equal. apply imap_ext. intros i x _. cbn.
  now rewrite Nat.add_succ_r.
Qed.

(** A string cursor is decoded by the assignments of [cursorEntries];
    no list of fields makes the decoder throw on it. *)
Lemma parseCursor_string fields (s : string) :
  parseCursor fields (CString s)
  = Ok (assignAll (cursorEntries fields (map Number (split ":" s))) ∅).
Proof.
  unfold parseCursor. apply (parseCursor_loop _ [] fields).
Qed.

Lemma cursorEntries_lookup fields (values : list number) (i : nat) :
  cursorEntries fields values !! i
  = (fun f => (key f, segmentValue values i)) <$> fields !! i.
Proof. unfold cursorEntries. apply list_lookup_imap. Qed.

(** What position [i] of the field list reads back from the decoded
    object, when every later field of the same name is given the same
    value. *)
Lemma parseCursor_lookup fields (s : string) (i : nat) (f : SortField) :
  fields !! i = Some f ->
  (forall j f', (i < j)%nat -> fields !! j = Some f' -> key f' = key f ->
     segmentValue (map Number (split ":" s)) j
     = segmentValue (map Number (split ":" s)) i) ->
  assignAll (cursorEntries fields (map Number (split ":" s))) ∅ !! key f
  = Some (segmentValue (map Number (split ":" s)) i).
Proof.
  intros Hi Hlater. apply (assignAll_lookup_last _ _ i).
  - rewrite cursorEntries_lookup, Hi. reflexivity.
  - intros j v' Hij. rewrite cursorEntries_lookup.
    destruct (fields !! j) as [f'|] eqn:Hj; [|discriminate].
    cbn. intros [= Hk <-]. apply (Hlater j f'); assumption.
Qed.

Lemma segmentValue_map_Number (segs : list string) (i : nat) (seg : string) :
  segs !! i = Some seg ->
  segmentValue (map Number segs) i = VNumber (Number seg).
Proof.
  intros H. unfold segmentValue.
  change (map Number segs) with (Number <$> segs).
  now rewrite list_lookup_fmap, H.
Qed.

Lemma segmentValue_past_end (values : list number) (i : nat) :
  (length values <= i)%nat -> segmentValue values i = VUndefined.
Proof.
  intros H. unfold segmentValue. now rewrite lookup_ge_None_2.
Qed.

End CursorDecoder.

(** ** Strings: splitting, joining, integers in decimal *)

Section Strings.

Lemma allChars_impl (P Q : ascii -> Prop) (s : string) :
  (forall c, P c -> Q c) -> allChars P s -> allChars Q s.
Proof.
  intros HPQ. induction s as [|c s IH]; [trivial|].
  intros [Hc Hs]. split; auto.
Qed.

Lemma split_avoids (sep : ascii) (s : string) :
  avoids sep s -> split sep s = [s].
Proof.
  induction s as [|c s IH]; [reflexivity|]. intros [Hc Hs].
  cbn [split]. apply Ascii.eqb_neq in Hc. rewrite Hc, (IH Hs). reflexivity.
Qed.

Lemma split_app_sep (sep : ascii) (s t : string) :
  avoids sep s -> split sep (s +:+ String sep t) = s :: split sep t.
Proof.
  induction s as [|c s IH]; simpl.
  - intros _. now rewrite Ascii.eqb_refl.
  - intros [Hc Hs]. apply Ascii.eqb_neq in Hc. rewrite Hc, (IH Hs). reflexivity.
Qed.

(** Splitting what [join] glued gives the pieces back, provided none of
    them holds the separator. *)
Lemma split_join (sep : ascii) (segs : list string) :
  segs <> [] -> Forall (avoids sep) segs ->
  split sep (join (String sep EmptyString) segs) = segs.
Proof.
  induction segs as [|s segs IH]; [congruence|]. intros _ Hall.
  apply Forall_cons in Hall as [Hs Hall].
  destruct segs as [|s' segs].
  - cbn. now apply split_avoids.
  - change (join (String sep EmptyString) (s :: s' :: segs))
      with (s +:+ String sep (join (String sep EmptyString) (s' :: segs))).
    rewrite split_app_sep by exact Hs. f_equal. now apply IH.
Qed.


Lemma code_range (c : ascii) : 0 <= code c < 256.
Proof.
  unfold code. pose proof (N_ascii_bounded c) as H. lia.
Qed.


















End Strings.

(** ** Prisma queries: their text and values *)

Section PrismaQueries.

Import Prisma.

Lemma append_nil_l (s : string) : EmptyString +:+ s = s.
Proof. reflexivity. Qed.

Lemma append_cons (c : ascii) (s t : string) :
  String c s +:+ t = String c (s +:+ t).
Proof. reflexivity. Qed.

Lemma append_nil_r (s : string) : s +:+ EmptyString = s.
Proof.
  induction s as [|c s IH]; [reflexivity|]. now rewrite append_cons, IH.
Qed.

Lemma append_assoc (s t u : string) : (s +:+ t) +:+ u = s +:+ t +:+ u.
Proof.
  induction s as [|c s IH]; [reflexivity|]. now rewrite !append_cons, IH.
Qed.

(** Brings a concatenation to its right-nested form. *)
Ltac norm_append :=
  repeat (rewrite append_assoc || rewrite append_cons
          || rewrite append_nil_l || rewrite append_nil_r).

(** The text of a query given by its parts. *)
Lemma text_app (l l' : list (string * Value)) (r : string) :
  text {| filled := l ++ l'; rest := r |}
  = text {| filled := l; rest := text {| filled := l'; rest := r |} |}.
Proof. unfold text. cbn [filled rest]. apply foldr_app. Qed.

Lemma text_rest_app (l : list (string * Value)) (r s : string) :
  text {| filled := l; rest := r +:+ s |} = text {| filled := l; rest := r |} +:+ s.
Proof.
  unfold text. cbn [filled rest].
  induction l as [|[s1 v1] l IH]; [reflexivity|].
  cbn [foldr]. rewrite IH. now norm_append.
Qed.

Lemma text_appendText (q : Sql) (s : string) :
  text (appendText q s) = text q +:+ s.
Proof. destruct q as [l r]. apply text_rest_app. Qed.

Lemma values_appendText (q : Sql) (s : string) :
  values (appendText q s) = values q.
Proof. reflexivity. Qed.

Lemma text_pushValue (q : Sql) (v : Value) (s : string) :
  text (pushValue q v s) = text q +:+ "?" +:+ s.
Proof.
  destruct q as [l r]. unfold pushValue. cbn [filled rest].
  rewrite text_app.
  change (text {| filled := [(r, v)]; rest := s |}) with (r +:+ "?" +:+ s).
  apply text_rest_app.
Qed.

Lemma values_pushValue (q : Sql) (v : Value) (s : string) :
  values (pushValue q v s) = values q ++ [v].
Proof. unfold values, pushValue. cbn [filled]. now rewrite fmap_app. Qed.

Lemma text_splice (q child : Sql) : text (splice q child) = text q +:+ text child.
Proof.
  destruct q as [l r], child as [[|[s0 v0] more] r']; unfold splice; cbn [filled rest].
  - apply text_rest_app.
  - rewrite text_app.
    change (text {| filled := (r +:+ s0, v0) :: more; rest := r' |})
      with ((r +:+ s0) +:+ "?" +:+ text {| filled := more; rest := r' |}).
    rewrite append_assoc. apply text_rest_app.
Qed.

Lemma values_splice (q child : Sql) :
  values (splice q child) = values q ++ values child.
Proof.
  destruct q as [l r], child as [[|[s0 v0] more] r']; unfold splice, values;
    cbn [filled rest appendText].
  - now rewrite app_nil_r.
  - now rewrite fmap_app.
Qed.

(** The text and the values of an assembled query, read off the template. *)
Lemma assemble_spec (s0 : string) (pairs : list (RawValue * string)) :
  text (assemble s0 pairs)
  = s0 +:+ foldr (fun '(child, s) acc =>
                    match child with
                    | Nested c => text c
                    | Plain _ => "?"
                    end +:+ s +:+ acc) EmptyString pairs
  /\ values (assemble s0 pairs)
     = concat (map (fun '(child, _) =>
                      match child with
                      | Nested c => values c
                      | Plain v => [v]
                      end) pairs).
Proof.
  unfold assemble.
  assert (Hgen : forall q,
    let q' := fold_left
                (fun q '(child, rawString) =>
                   match child with
                   | Nested c => appendText (splice q c) rawString
                   | Plain v => pushValue q v rawString
                   end) pairs q in
    text q' = text q +:+ foldr (fun '(child, s) acc =>
                    match child with
                    | Nested c => text c
                    | Plain _ => "?"
                    end +:+ s +:+ acc) EmptyString pairs
    /\ values q' = values q ++ concat (map (fun '(child, _) =>
                      match child with
                      | Nested c => values c
                      | Plain v => [v]
                      end) pairs)).
  { induction pairs as [|[[c|v] s] pairs IH]; intros q; cbn zeta.
    - cbn. now rewrite append_nil_r, app_nil_r.
    - cbn [fold_left foldr map concat].
      destruct (IH (appendText (splice q c) s)) as [Ht Hv].
      rewrite Ht, Hv, text_appendText, text_splice, values_appendText, values_splice.
      norm_append. now rewrite <- app_assoc.
    - cbn [fold_left foldr map concat].
      destruct (IH (pushValue q v s)) as [Ht Hv].
      rewrite Ht, Hv, text_pushValue, values_pushValue.
      norm_append. now rewrite <- app_assoc. }
  apply (Hgen {| filled := []; rest := s0 |}).
Qed.

Lemma text_parenthesize (q : Sql) : text (parenthesize q) = "(" +:+ text q +:+ ")".
Proof.
  unfold parenthesize. rewrite (proj1 (assemble_spec _ _)). cbn [foldr].
  now norm_append.
Qed.

Lemma values_parenthesize (q : Sql) : values (parenthesize q) = values q.
Proof.
  unfold parenthesize. rewrite (proj2 (assemble_spec _ _)). cbn. apply app_nil_r.
Qed.

Lemma joinSql_cons (q q' : Sql) (qs : list Sql) (separator : string) :
  text (joinSql (q :: q' :: qs) separator)
  = text q +:+ separator +:+ text (joinSql (q' :: qs) separator)
  /\ values (joinSql (q :: q' :: qs) separator)
     = values q ++ values (joinSql (q' :: qs) separator).
Proof.
  unfold joinSql. rewrite !(proj1 (assemble_spec _ _)), !(proj2 (assemble_spec _ _)).
  cbn. norm_append. tauto.
Qed.

Lemma text_joinSql (qs : list Sql) (separator : string) :
  text (joinSql qs separator) = Js.join separator (map text qs).
Proof.
  induction qs as [|q [|q' qs] IH].
  - reflexivity.
  - unfold joinSql. rewrite (proj1 (assemble_spec _ _)). cbn.
    now norm_append.
  - rewrite (proj1 (joinSql_cons _ _ _ _)), IH. reflexivity.
Qed.

Lemma values_joinSql (qs : list Sql) (separator : string) :
  values (joinSql qs separator) = concat (map values qs).
Proof.
  induction qs as [|q [|q' qs] IH].
  - reflexivity.
  - unfold joinSql. rewrite (proj2 (assemble_spec _ _)). reflexivity.
  - rewrite (proj2 (joinSql_cons _ _ _ _)), IH. reflexivity.
Qed.

Lemma join_nonempty (q : Sql) (qs : list Sql) (separator : string) :
  Prisma.join (q :: qs) separator = Ok (joinSql (q :: qs) separator).
Proof.
  unfold Prisma.join, new, joinSql. cbn [tail].
  rewrite length_app, !length_map. cbn [length].
  rewrite Nat.add_1_r, Nat.eqb_refl. reflexivity.
Qed.

Lemma sql_parenthesize (q : Sql) :
  Prisma.sql ["("; ")"] [Nested q] = Ok (parenthesize q).
Proof. reflexivity. Qed.

(** The template of one comparison. *)
Lemma sql_comparison (f : option string) (op : Operator) (v : Value) :
  Prisma.sql [EmptyString; " "; " "; EmptyString]
    [Nested (raw f); Nested (raw (Some (operatorText op))); Plain v]
  = Ok (comparisonSql {| cmp_field := f; cmp_op := op; cmp_value := v |}).
Proof.
  unfold Prisma.sql, new, assemble, comparisonSql, splice, appendText, pushValue, raw.
  cbn. now norm_append.
Qed.

Lemma text_comparisonSql (c : Comparison) :
  text (comparisonSql c) = comparisonText c.
Proof.
  unfold comparisonSql, comparisonText, text. cbn.
  now norm_append.
Qed.

Lemma text_clauseSql (cl : list Comparison) : text (clauseSql cl) = clauseText cl.
Proof.
  unfold clauseSql, clauseText.
  rewrite text_parenthesize, text_joinSql, map_map.
  do 3 f_equal. apply map_ext. intros c. apply text_comparisonSql.
Qed.

Lemma values_clauseSql (cl : list Comparison) :
  values (clauseSql cl) = map cmp_value cl.
Proof.
  unfold clauseSql. rewrite values_parenthesize, values_joinSql, map_map.
  induction cl as [|c cl IH]; [reflexivity|].
  cbn [map concat]. now rewrite IH.
Qed.

(** The query of a condition tree reads as the tree. *)
Lemma text_treeSql (t : ConditionTree) : text (treeSql t) = treeText t.
Proof.
  unfold treeSql, treeText.
  rewrite text_parenthesize, text_joinSql, map_map.
  do 3 f_equal. apply map_ext. intros c. apply text_clauseSql.
Qed.

Lemma values_treeSql (t : ConditionTree) : values (treeSql t) = treeValues t.
Proof.
  unfold treeSql, treeValues.
  rewrite values_parenthesize, values_joinSql, map_map.
  f_equal. apply map_ext. intros c. apply values_clauseSql.
Qed.

End PrismaQueries.
(** ** The keyset predicate and [getCursor] *)

Section KeysetPredicate.

Import Prisma.

(** A loop whose every iteration pushes one element. *)
Lemma forLoop_push {A : Type} (body : nat -> list A -> result (list A))
    (g : nat -> A) (a n : nat) (st : list A) :
  (forall j st', (a <= j < a + n)%nat -> body j st' = Ok (st' ++ [g j])) ->
  forLoop body a n st = Ok (st ++ map g (seq a n)).
Proof.
  revert a st. induction n as [|n IH]; intros a st Hbody.
  - cbn. now rewrite app_nil_r.
  - cbn [forLoop seq map]. rewrite Hbody by lia. cbn [bind].
    rewrite IH by (intros; apply Hbody; lia).
    now rewrite <- app_assoc.
Qed.

Lemma operatorText_strict (f : SortField) :
  (if String.eqb (order f) "DESC" then "<" else ">") = operatorText (strictOperator f).
Proof. unfold strictOperator. now destruct (String.eqb (order f) "DESC"). Qed.

(** The inner loop at outer index [i] builds the comparisons of
    [clauseAt]. *)
Lemma inner_loop (sortFields : list SortField) (cursors : gmap string Value)
    (i : nat) :
  (i < length sortFields)%nat ->
  forLoop
    (fun j (conditionParts : list Sql) =>
       match sortFields !! j with
       | Some {| field := field; order := order |} =>
           let operator :=
             if (j <? i)%nat then "="
             else if String.eqb order "DESC" then "<" else ">" in
           let operator := if (j <? i)%nat then "=" else operator in
           let* part :=
             Prisma.sql [EmptyString; " "; " "; EmptyString]
               [Nested (raw field); Nested (raw (Some operator));
                Plain (get cursors field)] in
           Ok (conditionParts ++ [part])
       | None => Throw TypeError
       end)
    0 (S i) []
  = Ok (map comparisonSql (clauseAt sortFields cursors i)).
Proof.
  intros Hi. unfold clauseAt. rewrite map_map.
  apply (forLoop_push _ (fun j => comparisonSql (comparisonAt sortFields cursors i j))).
  intros j st' Hj. unfold comparisonAt.
  destruct (lookup_lt_is_Some_2 sortFields j ltac:(lia)) as [[fld ord] Hf].
  rewrite Hf. cbn zeta.
  destruct (j <? i)%nat.
  - now rewrite (sql_comparison fld OpEq).
  - pose proof (operatorText_strict {| field := fld; order := ord |}) as Hop.
    cbn [order] in Hop. rewrite Hop.
    now rewrite sql_comparison.
Qed.

Lemma comparisonAt_before (fields : list SortField) (cursors : gmap string Value)
    (i : nat) :
  (i <= length fields)%nat ->
  map (comparisonAt fields cursors i) (seq 0 i)
  = map (equalTo cursors) (firstn i fields).
Proof.
  intros Hi. apply list_eq. intros j.
  change (map (comparisonAt fields cursors i) (seq 0 i))
    with (comparisonAt fields cursors i <$> seq 0 i).
  change (map (equalTo cursors) (firstn i fields))
    with (equalTo cursors <$> firstn i fields).
  rewrite !list_lookup_fmap.
  destruct (decide (j < i)%nat) as [Hj|Hj].
  - rewrite lookup_seq_lt, lookup_take_lt by lia. cbn.
    unfold comparisonAt.
    destruct (lookup_lt_is_Some_2 fields j ltac:(lia)) as [f Hf]. rewrite Hf.
    apply Nat.ltb_lt in Hj. rewrite Hj. reflexivity.
  - rewrite lookup_seq_ge, lookup_take_ge by lia. reflexivity.
Qed.

Lemma clauseAt_eq (fields : list SortField) (cursors : gmap string Value)
    (i : nat) (f : SortField) :
  fields !! i = Some f ->
  clauseAt fields cursors i
  = map (equalTo cursors) (firstn i fields) ++ [strictlyAfter cursors f].
Proof.
  intros Hf. pose proof (lookup_lt_Some _ _ _ Hf) as Hi.
  unfold clauseAt. rewrite seq_S, map_app, comparisonAt_before by lia.
  f_equal. cbn [map Nat.add]. unfold comparisonAt.
  now rewrite Hf, Nat.ltb_irrefl.
Qed.

(** The conjunction built at index [i] is the i-th disjunct of the
    specification's tree. *)
Lemma clauseAt_keysetTree (fields : list SortField) (cursors : gmap string Value) :
  map (clauseAt fields cursors) (seq 0 (length fields))
  = keysetTree fields cursors.
Proof.
  apply list_eq. intros i. unfold keysetTree.
  change (map (clauseAt fields cursors) (seq 0 (length fields)))
    with (clauseAt fields cursors <$> seq 0 (length fields)).
  rewrite list_lookup_fmap, list_lookup_imap.
  destruct (fields !! i) as [f|] eqn:Hf.
  - pose proof (lookup_lt_Some _ _ _ Hf) as Hi.
    rewrite lookup_seq_lt by exact Hi.
    change (Some (clauseAt fields cursors i)
            = Some (map (equalTo cursors) (firstn i fields)
                      ++ [strictlyAfter cursors f])).
    now rewrite (clauseAt_eq _ _ _ _ Hf).
  - apply lookup_ge_None in Hf. now rewrite lookup_seq_ge.
Qed.

(** The predicate built for a non-empty sort specification is the query
    of the specification's condition tree. *)
Lemma buildKeysetPredicate_treeSql (sortFields : list SortField)
    (cursors : gmap string Value) :
  sortFields <> [] ->
  buildKeysetPredicate sortFields cursors
  = Ok (treeSql (keysetTree sortFields cursors)).
Proof.
  intros Hne. unfold buildKeysetPredicate.
  rewrite (forLoop_push _ (fun i => clauseSql (clauseAt sortFields cursors i))).
  - cbn [bind app]. rewrite <- (map_map (clauseAt sortFields cursors) clauseSql).
    rewrite clauseAt_keysetTree.
    destruct (keysetTree sortFields cursors) as [|cl t] eqn:Ht.
    + apply (f_equal length) in Ht. unfold keysetTree in Ht.
      rewrite length_imap in Ht. destruct sortFields; [congruence|discriminate].
    + cbn [map]. rewrite join_nonempty. reflexivity.
  - intros i st' Hi. rewrite inner_loop by lia. cbn [bind].
    unfold clauseAt at 1. cbn [seq map].
    rewrite join_nonempty. reflexivity.
Qed.

End KeysetPredicate.
(** ** The sort parser and [getCursor] as a whole *)

Section GetCursor.

Lemma split_nonempty (sep : ascii) (s : string) : split sep s <> [].
Proof.
  destruct s as [|c s]; [discriminate|]. cbn [split].
  destruct (Ascii.eqb c sep); [discriminate|].
  destruct (split sep s); discriminate.
Qed.

Lemma parseSortString_nonempty (sortString : string) :
  parseSortString sortString <> [].
Proof.
  unfold parseSortString. pose proof (split_nonempty "," sortString) as H.
  destruct (split "," sortString); [congruence|discriminate].
Qed.

Lemma parseSortString_length (sortString : string) :
  length (parseSortString sortString) = length (split "," sortString).
Proof. unfold parseSortString. apply length_map. Qed.

(** A clause that is empty once trimmed parses to a field without name,
    in ascending order. *)
Lemma parseSortString_empty_clause (sortString : string) (i : nat) (part : string) :
  split "," sortString !! i = Some part ->
  isEmpty (trim part) = true ->
  parseSortString sortString !! i = Some {| field := None; order := "ASC" |}.
Proof.
  intros Hpart Hempty. unfold parseSortString.
  change (map ?f ?l) with (f <$> l). rewrite list_lookup_fmap, Hpart.
  destruct (trim part) eqn:Htrim; [|discriminate].
  cbn [fmap option_fmap option_map]. now rewrite Htrim.
Qed.

(** The sort-key expression does not depend on the cursor. *)
Lemma getCursor_prop (sortFields : list SortField) :
  (if Nat.eqb (length sortFields) 1 then
     match sortFields !! 0%nat with
     | Some f => Ok (field f)
     | None => Throw TypeError
     end
   else Ok (Some ("CONCAT(" +:+ join ", ':', " (map joinText (map field sortFields)) +:+ ")")))
  = Ok (sortKeyExpression sortFields).
Proof.
  destruct sortFields as [|f [|f' more]]; cbn [length Nat.eqb sortKeyExpression].
  - reflexivity.
  - reflexivity.
  - now rewrite map_map.
Qed.

Lemma getCursor_no_cursor (sortString : string) :
  getCursor sortString None
  = Ok {| where_ := None; prop := sortKeyExpression (parseSortString sortString) |}.
Proof. unfold getCursor. cbn [bind]. now rewrite getCursor_prop. Qed.

Lemma getCursor_falsy (sortString : string) (cursor : Cursor) :
  truthyCursor cursor = false ->
  getCursor sortString (Some cursor) = getCursor sortString None.
Proof. intros H. unfold getCursor. now rewrite H. Qed.

(** On a non-empty field list the decoder never throws. *)
Lemma parseCursor_total (fields : list SortField) (cursor : Cursor) :
  fields <> [] -> exists cursors, parseCursor fields cursor = Ok cursors.
Proof.
  intros Hne. destruct cursor as [s|n|z].
  - eexists. apply parseCursor_string.
  - destruct fields as [|f more]; [congruence|]. eexists. reflexivity.
  - destruct fields as [|f more]; [congruence|]. eexists. reflexivity.
Qed.

Lemma getCursor_truthy (sortString : string) (cursor : Cursor)
    (cursors : gmap string Value) :
  truthyCursor cursor = true ->
  parseCursor (parseSortString sortString) cursor = Ok cursors ->
  getCursor sortString (Some cursor)
  = Ok {| where_ := Some (treeSql (keysetTree (parseSortString sortString) cursors));
          prop := sortKeyExpression (parseSortString sortString) |}.
Proof.
  intros Ht Hc. unfold getCursor. rewrite Ht, Hc. cbn [bind].
  rewrite buildKeysetPredicate_treeSql by apply parseSortString_nonempty.
  cbn [bind]. now rewrite getCursor_prop.
Qed.




End GetCursor.
(** ** Binary64 arithmetic on integers: the number of pages *)

Section Binary64.

Lemma digits2_pos_bounds (p : positive) :
  2 ^ (Zpos (digits2_pos p) - 1) <= Zpos p < 2 ^ Zpos (digits2_pos p).
Proof.
  induction p as [p IH|p IH|]; cbn [digits2_pos].
  - rewrite Pos2Z.inj_succ, Z.pow_succ_r by lia.
    replace (Z.succ (Zpos (digits2_pos p)) - 1) with (Z.succ (Zpos (digits2_pos p) - 1)) by lia.
    rewrite Z.pow_succ_r by lia. lia.
  - rewrite Pos2Z.inj_succ, Z.pow_succ_r by lia.
    replace (Z.succ (Zpos (digits2_pos p)) - 1) with (Z.succ (Zpos (digits2_pos p) - 1)) by lia.
    rewrite Z.pow_succ_r by lia. lia.
  - cbn. lia.
Qed.

Lemma digits2_pos_unique (p : positive) (d : Z) :
  2 ^ (d - 1) <= Zpos p < 2 ^ d -> Zpos (digits2_pos p) = d.
Proof.
  intros [Hlo Hhi]. pose proof (digits2_pos_bounds p) as [Hlo' Hhi'].
  assert (0 < d).
  { destruct (Z.ltb_spec 0 d); [assumption|].
    assert (2 ^ d <= 2 ^ 0) by (apply Z.pow_le_mono_r; lia). cbn in *. lia. }
  destruct (Z.lt_trichotomy (Zpos (digits2_pos p)) d) as [Hlt|[Heq|Hgt]]; [|exact Heq|].
  - assert (2 ^ Zpos (digits2_pos p) <= 2 ^ (d - 1)) by (apply Z.pow_le_mono_r; lia). lia.
  - assert (2 ^ d <= 2 ^ (Zpos (digits2_pos p) - 1)) by (apply Z.pow_le_mono_r; lia). lia.
Qed.

Lemma iter_xO_value (p k : positive) :
  Zpos (Pos.iter xO p k) = Zpos p * 2 ^ Zpos k.
Proof.
  induction k as [|k IH] using Pos.peano_ind.
  - cbn. lia.
  - rewrite Pos.iter_succ, Pos2Z.inj_xO, IH, Pos2Z.inj_succ, Z.pow_succ_r by lia. lia.
Qed.

(** A mantissa of 53 bits at an exponent in range is already rounded. *)
Lemma binary_round_aux_exact (sx : bool) (m : positive) (e : Z) :
  Zpos (digits2_pos m) = 53 -> -1074 <= e <= 971 ->
  binary_round_aux prec emax sx (Zpos m) e loc_Exact = S754_finite sx m e.
Proof.
  intros Hd He. unfold binary_round_aux, shr_fexp, fexp, emin, Zdigits2.
  rewrite Hd. unfold prec, emax.
  replace (Z.max (53 + e - 53) (3 - 1024 - 53) - e) with 0 by lia.
  cbn [shr shr_record_of_loc shr_m loc_of_shr_record round_nearest_even].
  rewrite Hd.
  replace (Z.max (53 + e - 53) (3 - 1024 - 53) - e) with 0 by lia.
  cbn [shr shr_m].
  replace (e <=? 1024 - 53) with true by (symmetry; apply Z.leb_le; lia).
  reflexivity.
Qed.

(** Rounding a positive integer below 2^53 keeps it: the integer itself,
    shifted to 53 bits, under either sign. *)
Lemma binary_round_canonical (sx : bool) (p : positive) :
  Zpos p < 2 ^ 53 ->
  exists (m : positive) (e : Z),
    binary_round prec emax sx p 0 = S754_finite sx m e /\
    Zpos (digits2_pos m) = 53 /\ -52 <= e <= 0 /\ Zpos m = Zpos p * 2 ^ (- e).
Proof.
  intros Hc.
  pose proof (digits2_pos_bounds p) as Hb.
  set (d := Zpos (digits2_pos p)) in *.
  assert (Hd : 1 <= d <= 53).
  { split; [unfold d; lia|].
    destruct (Z.leb_spec d 53); [assumption|].
    assert (2 ^ 53 <= 2 ^ (d - 1)) by (apply Z.pow_le_mono_r; lia). lia. }
  unfold binary_round, shl_align, fexp, emin.
  fold d. unfold prec, emax.
  replace (Z.max (d + 0 - 53) (3 - 1024 - 53) - 0) with (d - 53) by lia.
  replace (Z.max (d + 0 - 53) (3 - 1024 - 53)) with (d - 53) by lia.
  destruct (d - 53) as [|k|k] eqn:Hk; [|lia|].
  - exists p, 0. split; [|repeat split; lia].
    apply binary_round_aux_exact; [fold d; lia|lia].
  - exists (Pos.iter xO p k), (Zneg k).
    assert (Hval : Zpos (Pos.iter xO p k) = Zpos p * 2 ^ Zpos k) by apply iter_xO_value.
    assert (Hdig : Zpos (digits2_pos (Pos.iter xO p k)) = 53).
    { apply digits2_pos_unique. rewrite Hval.
      replace 53 with (d + Zpos k) by lia.
      replace (d + Zpos k - 1) with ((d - 1) + Zpos k) by lia.
      rewrite !Z.pow_add_r by lia.
      assert (0 < 2 ^ Zpos k) by (apply Z.pow_pos_nonneg; lia). nia. }
    split; [|repeat split; try lia].
    + apply binary_round_aux_exact; [exact Hdig|lia].
    + rewrite Hval. reflexivity.
Qed.

(** The number of a positive integer below 2^53. *)
Lemma num_canonical (c : Z) :
  0 < c < 2 ^ 53 ->
  exists (m : positive) (e : Z),
    num c = S754_finite false m e /\
    Zpos (digits2_pos m) = 53 /\ -52 <= e <= 0 /\ Zpos m = c * 2 ^ (- e).
Proof.
  intros Hc. destruct c as [|p|p]; [lia| |lia].
  apply (binary_round_canonical false p). lia.
Qed.



(** Beyond that range a number is the nearest one that exists. *)
Example integerValue_rounded :
  integerValue (num 9007199254740993) = Some 9007199254740992.
Proof. reflexivity. Qed.

End Binary64.
Section Binary64Div.

Lemma new_location_spec (n r : Z) :
  0 < n -> 0 <= r < n ->
  new_location n r = if r =? 0 then loc_Exact else loc_Inexact (2 * r ?= n).
Proof.
  intros Hn Hr. unfold new_location, new_location_even, new_location_odd.
  destruct (Z.even n) eqn:Heven; [reflexivity|].
  destruct (r =? 0); [reflexivity|]. f_equal.
  assert (Hodd : Z.odd n = true) by (rewrite <- Z.negb_even, Heven; reflexivity).
  apply Z.odd_spec in Hodd as [k Hk].
  destruct (Z.compare_spec (2 * r + 1) n), (Z.compare_spec (2 * r) n);
    try reflexivity; lia.
Qed.

(** Rounding to nearest even moves to a neighbouring integer that is at
    most one half away. *)
Lemma round_nearest_even_spec (q n r : Z) :
  0 < n -> 0 <= r < n ->
  let m := round_nearest_even q (if r =? 0 then loc_Exact else loc_Inexact (2 * r ?= n)) in
  q <= m <= q + 1 /\ 2 * Z.abs (m * n - (q * n + r)) <= n.
Proof.
  intros Hn Hr. cbn zeta.
  destruct (Z.eqb_spec r 0) as [->|Hr0]; cbn [round_nearest_even]; [lia|].
  destruct (Z.compare_spec (2 * r) n) as [Heq|Hlt|Hgt]; [destruct (Z.even q)| |]; lia.
Qed.

Lemma shr_1_pos (q : positive) (r s : bool) :
  (1 < q)%positive ->
  shr_1 {| shr_m := Zpos q; shr_r := r; shr_s := s |}
  = {| shr_m := Zpos q / 2; shr_r := Z.odd (Zpos q); shr_s := r || s |}.
Proof.
  intros Hq. destruct q as [p|p|]; [| |lia]; cbn [shr_1 Z.odd].
  - f_equal. rewrite Pos2Z.inj_xI. apply (Z.div_unique _ _ _ 1); lia.
  - f_equal. rewrite Pos2Z.inj_xO. apply (Z.div_unique _ _ _ 0); lia.
Qed.

(** Rounding after one bit has been shifted out. *)
Lemma round_shifted_spec (q n r : Z) :
  0 < n -> 0 <= r < n -> 0 <= q ->
  let loc := if r =? 0 then loc_Exact else loc_Inexact (2 * r ?= n) in
  let mrs := {| shr_m := q / 2; shr_r := Z.odd q;
                shr_s := shr_r (shr_record_of_loc q loc)
                         || shr_s (shr_record_of_loc q loc) |} in
  let m := round_nearest_even (shr_m mrs) (loc_of_shr_record mrs) in
  q / 2 <= m <= q / 2 + 1 /\ Z.abs (2 * m * n - (q * n + r)) <= n.
Proof.
  intros Hn Hr Hq. cbn zeta.
  pose proof (Z.div_mod q 2 ltac:(lia)) as Hdm.
  pose proof (Z.mod_pos_bound q 2 ltac:(lia)) as Hmod.
  rewrite Zmod_odd in Hdm, Hmod.
  assert (Hs : forall l0,
             l0 = (if r =? 0 then loc_Exact else loc_Inexact (2 * r ?= n)) ->
             shr_r (shr_record_of_loc q l0) || shr_s (shr_record_of_loc q l0)
             = negb (r =? 0)).
  { intros l0 ->. destruct (r =? 0); [reflexivity|]. now destruct (2 * r ?= n). }
  rewrite (Hs _ eq_refl). clear Hs. cbn [shr_m].
  destruct (Z.eqb_spec r 0) as [->|Hr0]; destruct (Z.odd q);
    cbn [negb loc_of_shr_record round_nearest_even];
    try destruct (Z.even (q / 2)); split; try lia; nia.
Qed.

End Binary64Div.
Section Binary64Round.

Lemma loc_of_shr_record_of_loc (m : Z) (l : location) :
  loc_of_shr_record (shr_record_of_loc m l) = l.
Proof. destruct l as [|[]]; reflexivity. Qed.

Lemma shr_fexp_53 (q : positive) (e : Z) (l : location) :
  Zpos (digits2_pos q) = 53 -> -1074 <= e ->
  shr_fexp prec emax (Zpos q) e l = (shr_record_of_loc (Zpos q) l, e).
Proof.
  intros Hd He. unfold shr_fexp, fexp, emin, Zdigits2, prec, emax. rewrite Hd.
  replace (Z.max (53 + e - 53) (3 - 1024 - 53) - e) with 0 by lia.
  reflexivity.
Qed.

Lemma shr_fexp_54 (q : positive) (e : Z) (l : location) :
  Zpos (digits2_pos q) = 54 -> -1075 <= e ->
  shr_fexp prec emax (Zpos q) e l = (shr_1 (shr_record_of_loc (Zpos q) l), e + 1).
Proof.
  intros Hd He. unfold shr_fexp, fexp, emin, Zdigits2, prec, emax. rewrite Hd.
  replace (Z.max (54 + e - 53) (3 - 1024 - 53) - e) with 1 by lia.
  reflexivity.
Qed.

(** The last step of rounding: a mantissa that reached 2^53 is brought
    back to 53 bits. *)
Lemma binary_round_finish (sx : bool) (m e : Z) :
  2 ^ 52 <= m <= 2 ^ 53 -> -1074 <= e <= 970 ->
  (let '(mrs, e') := shr_fexp prec emax m e loc_Exact in
   match shr_m mrs with
   | Z0 => S754_zero sx
   | Zpos m0 =>
       if e' <=? emax - prec then S754_finite sx m0 e' else S754_infinity sx
   | Zneg _ => S754_nan
   end)
  = S754_finite sx (Z.to_pos (if m =? 2 ^ 53 then 2 ^ 52 else m))
      (if m =? 2 ^ 53 then e + 1 else e).
Proof.
  intros Hm He. destruct (Z.eqb_spec m (2 ^ 53)) as [->|Hne].
  - unfold shr_fexp, fexp, emin, prec, emax.
    change (Zdigits2 (2 ^ 53)) with 54.
    replace (Z.max (54 + e - 53) (3 - 1024 - 53) - e) with 1 by lia.
    cbn [shr SpecFloat.iter_pos].
    change (shr_1 (shr_record_of_loc (2 ^ 53) loc_Exact))
      with {| shr_m := 2 ^ 52; shr_r := false; shr_s := false |}.
    cbn [shr_m]. change (2 ^ 52) with (Zpos (Z.to_pos (2 ^ 52))) at 1.
    cbv beta iota.
    now replace (e + 1 <=? 1024 - 53) with true by (symmetry; apply Z.leb_le; lia).
  - destruct m as [|p|p]; [lia| |lia].
    rewrite shr_fexp_53; [|apply digits2_pos_unique; lia|lia].
    cbn [shr_record_of_loc shr_m]. unfold prec, emax.
    now replace (e <=? 1024 - 53) with true by (symmetry; apply Z.leb_le; lia).
Qed.

(** Rounding a quotient [q + r / n] of 53 or 54 bits: the result is within
    half a unit in the last place of the quotient. *)
Lemma binary_round_aux_quotient (q : positive) (e n r : Z) :
  0 < n -> 0 <= r < n -> 2 ^ 52 <= Zpos q < 2 ^ 54 -> -1074 <= e <= 900 ->
  exists (mf : positive) (ef mr k : Z),
    binary_round_aux prec emax false (Zpos q) e (new_location n r)
    = S754_finite false mf ef /\
    (k = 0 \/ k = 1) /\
    2 ^ 52 <= mr <= 2 ^ 53 /\
    2 * Z.abs (mr * 2 ^ k * n - (Zpos q * n + r)) <= 2 ^ k * n /\
    ((mr < 2 ^ 53 /\ Zpos mf = mr /\ ef = e + k)
     \/ (mr = 2 ^ 53 /\ Zpos mf = 2 ^ 52 /\ ef = e + k + 1)).
Proof.
  intros Hn Hr Hq He. rewrite new_location_spec by assumption.
  unfold binary_round_aux.
  destruct (Z.ltb_spec (Zpos q) (2 ^ 53)) as [Hlt|Hge].
  - rewrite shr_fexp_53; [|apply digits2_pos_unique; lia|lia].
    rewrite loc_of_shr_record_of_loc.
    replace (shr_m (shr_record_of_loc (Zpos q)
               (if r =? 0 then loc_Exact else loc_Inexact (2 * r ?= n))))
      with (Zpos q) by (destruct (r =? 0); [|destruct (2 * r ?= n)]; reflexivity).
    pose proof (round_nearest_even_spec (Zpos q) n r Hn Hr) as [Hm Herr].
    set (mr := round_nearest_even (Zpos q)
                 (if r =? 0 then loc_Exact else loc_Inexact (2 * r ?= n))) in *.
    rewrite binary_round_finish by lia.
    eexists _, _, mr, 0. split; [reflexivity|]. split; [now left|].
    split; [lia|]. split; [rewrite Z.pow_0_r; lia|].
    destruct (Z.eqb_spec mr (2 ^ 53)) as [Heq|Hne].
    + right. split; [exact Heq|]. split; [reflexivity|lia].
    + left. rewrite Z2Pos.id by lia. split; [lia|]. split; [reflexivity|lia].
  - rewrite shr_fexp_54; [|apply digits2_pos_unique; lia|lia].
    pose proof (round_shifted_spec (Zpos q) n r Hn Hr ltac:(lia)) as Hspec.
    cbv zeta in Hspec.
    assert (Hshr : shr_1 (shr_record_of_loc (Zpos q)
                            (if r =? 0 then loc_Exact else loc_Inexact (2 * r ?= n)))
                   = {| shr_m := Zpos q / 2; shr_r := Z.odd (Zpos q);
                        shr_s := shr_r (shr_record_of_loc (Zpos q)
                                   (if r =? 0 then loc_Exact else loc_Inexact (2 * r ?= n)))
                                 || shr_s (shr_record_of_loc (Zpos q)
                                   (if r =? 0 then loc_Exact else loc_Inexact (2 * r ?= n))) |}).
    { assert (Hq1 : (1 < q)%positive) by lia.
      destruct (r =? 0); [|destruct (2 * r ?= n)];
        apply (shr_1_pos q _ _ Hq1). }
    rewrite Hshr. clear Hshr.
    destruct Hspec as [Hm Herr].
    set (mr := round_nearest_even _ _) in *.
    assert (Hhalf : 2 ^ 52 <= Zpos q / 2 < 2 ^ 53).
    { split; [apply Z.div_le_lower_bound; lia|apply Z.div_lt_upper_bound; lia]. }
    rewrite binary_round_finish by lia.
    eexists _, _, mr, 1. split; [reflexivity|]. split; [now right|].
    split; [lia|]. split; [rewrite Z.pow_1_r; lia|].
    destruct (Z.eqb_spec mr (2 ^ 53)) as [Heq|Hne].
    + right. split; [exact Heq|]. split; [reflexivity|lia].
    + left. rewrite Z2Pos.id by lia. split; [lia|]. split; [reflexivity|lia].
Qed.

End Binary64Round.

Section Binary64Ceil.

Lemma div_eucl_div_mod (a b : Z) : Z.div_eucl a b = (a / b, a mod b).
Proof. unfold Z.div, Z.modulo. now destruct (Z.div_eucl a b). Qed.

(** The quotient of two numbers with 53-bit mantissas is the rounding of
    the quotient of the mantissas, scaled by 2^53. *)
Lemma div_canonical (m1 m2 : positive) (e1 e2 : Z) :
  Zpos (digits2_pos m1) = 53 -> Zpos (digits2_pos m2) = 53 ->
  -52 <= e1 <= 0 -> -52 <= e2 <= 0 ->
  div (S754_finite false m1 e1) (S754_finite false m2 e2)
  = binary_round_aux prec emax false
      (Zpos m1 * 2 ^ 53 / Zpos m2) (e1 - e2 - 53)
      (new_location (Zpos m2) ((Zpos m1 * 2 ^ 53) mod Zpos m2)).
Proof.
  intros Hd1 Hd2 He1 He2.
  unfold div, SFdiv, SFdiv_core_binary, Zdigits2, fexp, emin, prec, emax.
  rewrite Hd1, Hd2.
  replace (Z.min (Z.max (53 + e1 - (53 + e2) - 53) (3 - 1024 - 53)) (e1 - e2))
    with (e1 - e2 - 53) by lia.
  replace (e1 - e2 - (e1 - e2 - 53)) with 53 by lia.
  cbv beta iota. rewrite Z.shiftl_mul_pow2 by lia.
  rewrite div_eucl_div_mod. reflexivity.
Qed.

(** [Math.ceil] of a number that is not integral by its exponent. *)
Lemma ceil_fraction (m : positive) (e : Z) :
  e < 0 ->
  ceil (S754_finite false m e)
  = num (if Zpos m / 2 ^ (- e) * 2 ^ (- e) =? Zpos m
         then Zpos m / 2 ^ (- e) else Zpos m / 2 ^ (- e) + 1).
Proof.
  intros He. unfold ceil.
  replace (0 <=? e) with false by (symmetry; apply Z.leb_gt; lia).
  rewrite Z.shiftr_div_pow2, Z.shiftl_mul_pow2 by lia. reflexivity.
Qed.

Lemma ceilDiv_spec (c l : Z) :
  0 < l -> (ceilDiv c l - 1) * l < c <= ceilDiv c l * l.
Proof.
  intros Hl. unfold ceilDiv.
  pose proof (Z.div_mod (c + l - 1) l ltac:(lia)) as Hdm.
  pose proof (Z.mod_pos_bound (c + l - 1) l Hl) as Hmod.
  nia.
Qed.

Lemma ceilDiv_range (c l : Z) : 1 <= c -> 1 <= l -> 1 <= ceilDiv c l <= c.
Proof.
  intros Hc Hl. pose proof (ceilDiv_spec c l ltac:(lia)) as HN.
  set (N := ceilDiv c l) in *. split; nia.
Qed.

(** The integer argument: a mantissa [mr] of at least [T] bits' worth that
    is within half a unit of [c / l] scaled by [Ds], for [c] below [T],
    lies in the unit interval that ends at the ceiling of [c / l]. *)
Lemma rounded_quotient_ceiling (T c l mr Ds N : Z) :
  1 <= c < T -> 1 <= l -> T <= mr -> 0 < Ds ->
  2 * Z.abs (mr * l - c * Ds) <= l ->
  (N - 1) * l < c <= N * l ->
  l <= Ds /\ (N - 1) * Ds < mr <= N * Ds.
Proof.
  intros Hc Hl Hmr HDs Herr HN.
  assert (H1 : 2 * (mr * l - c * Ds) <= l) by lia.
  assert (H2 : - l <= 2 * (mr * l - c * Ds)) by lia.
  clear Herr.
  assert (HDl : l <= Ds) by nia.
  split; [exact HDl|]. split; nia.
Qed.

Lemma ceiling_of_fraction (m X N : Z) :
  0 < X -> (N - 1) * X < m <= N * X ->
  (if m / X * X =? m then m / X else m / X + 1) = N.
Proof.
  intros HX Hm.
  pose proof (Z.div_mod m X ltac:(lia)) as Hdm.
  pose proof (Z.mod_pos_bound m X HX) as Hmod.
  destruct (Z.eqb_spec (m / X * X) m); nia.
Qed.

Lemma pow2_gt_1 (x : Z) : 0 <= x -> 1 < 2 ^ x -> 0 < x.
Proof.
  intros Hx H. destruct (Z.eq_dec x 0) as [->|]; [cbn in H; lia|lia].
Qed.

Lemma pow2_gt_2 (x : Z) : 0 <= x -> 2 < 2 ^ x -> 1 < x.
Proof.
  intros Hx H. destruct (Z.eq_dec x 0) as [->|]; [cbn in H; lia|].
  destruct (Z.eq_dec x 1) as [->|]; [cbn in H; lia|lia].
Qed.

Lemma pow2_pred (x : Z) : 0 < x -> 2 ^ x = 2 * 2 ^ (x - 1).
Proof.
  intros Hx. rewrite <- Z.pow_succ_r by lia. f_equal. lia.
Qed.

(** For a count below 2^52 and a page size below 2^53 the number of pages
    computed in binary64 is the exact ceiling of the quotient. *)
Lemma ceil_div_integers (c l : Z) :
  1 <= c < 2 ^ 52 -> 1 <= l < 2 ^ 53 ->
  ceil (div (num c) (num l)) = num (ceilDiv c l).
Proof.
  intros Hc Hl.
  destruct (num_canonical c ltac:(lia)) as (m1 & e1 & -> & Hd1 & He1 & Hm1).
  destruct (num_canonical l ltac:(lia)) as (m2 & e2 & -> & Hd2 & He2 & Hm2).
  rewrite div_canonical by assumption.
  pose proof (digits2_pos_bounds m1) as Hb1. rewrite Hd1 in Hb1.
  pose proof (digits2_pos_bounds m2) as Hb2. rewrite Hd2 in Hb2.
  change (2 ^ (53 - 1)) with (2 ^ 52) in Hb1, Hb2.
  pose proof (Z.div_mod (Zpos m1 * 2 ^ 53) (Zpos m2) ltac:(lia)) as Hdm.
  pose proof (Z.mod_pos_bound (Zpos m1 * 2 ^ 53) (Zpos m2) ltac:(lia)) as Hmod.
  set (q := Zpos m1 * 2 ^ 53 / Zpos m2) in *.
  set (r := (Zpos m1 * 2 ^ 53) mod Zpos m2) in *.
  assert (Hq : 2 ^ 52 <= q < 2 ^ 54).
  { set (T := 2 ^ 52) in *. change (2 ^ 53) with (2 * T) in *.
    change (2 ^ 54) with (4 * T). clearbody T. clear - Hb1 Hb2 Hdm Hmod. nia. }
  destruct q as [|qp|qp] eqn:Hqp; [lia| |lia].
  destruct (binary_round_aux_quotient qp (e1 - e2 - 53) (Zpos m2) r
              ltac:(lia) Hmod Hq ltac:(lia))
    as (mf & ef & mr & k & -> & Hk & Hmr & Herr & Hfin).
  (* the error bound, scaled down to the integers c and l *)
  set (A := - e1) in *. set (B := - e2) in *.
  assert (HA : 0 <= A <= 52) by (unfold A; lia).
  assert (HB : 0 <= B <= 52) by (unfold B; lia).
  set (Ds := 2 ^ (A - B + 53 - k)).
  set (P := 2 ^ (B + k)).
  assert (HDs : 0 < Ds) by (apply Z.pow_pos_nonneg; lia).
  assert (HP : 0 < P) by (apply Z.pow_pos_nonneg; lia).
  assert (HP1 : 2 ^ k * 2 ^ B = P)
    by (unfold P; rewrite <- Z.pow_add_r by lia; f_equal; lia).
  assert (HP2 : 2 ^ A * 2 ^ 53 = Ds * P).
  { unfold Ds, P. rewrite <- !Z.pow_add_r by lia. f_equal. lia. }
  assert (Herr' : 2 * Z.abs (mr * l - c * Ds) <= l).
  { assert (Hnum : mr * 2 ^ k * Zpos m2 - (Zpos qp * Zpos m2 + r)
                   = (mr * l - c * Ds) * P).
    { replace (Zpos qp * Zpos m2 + r) with (Zpos m1 * 2 ^ 53) by lia.
      rewrite Hm1, Hm2.
      replace (c * 2 ^ A * 2 ^ 53) with (c * (2 ^ A * 2 ^ 53)) by ring.
      rewrite HP2. rewrite <- HP1. ring. }
    assert (Hden : 2 ^ k * Zpos m2 = l * P) by (rewrite Hm2, <- HP1; ring).
    rewrite Hnum, Hden, Z.abs_mul, (Z.abs_eq P) in Herr by lia.
    clear - Herr HP. nia. }
  pose proof (ceilDiv_spec c l ltac:(lia)) as HN.
  pose proof (ceilDiv_range c l ltac:(lia) ltac:(lia)) as HN1.
  set (N := ceilDiv c l) in *.
  destruct (rounded_quotient_ceiling (2 ^ 52) c l mr Ds N Hc ltac:(lia) ltac:(lia)
              HDs Herr' HN) as (HDl & Hlo & Hhi).
  (* the exponent of the result is negative *)
  assert (Hexp : 0 <= A - B + 53 - k) by lia.
  assert (Hef : exists E, 0 < E /\ ef = - E /\
                          (N - 1) * 2 ^ E < Zpos mf <= N * 2 ^ E).
  { destruct Hfin as [(Hlt & Hmf & ->)|(Heq & Hmf & ->)].
    - exists (A - B + 53 - k). fold Ds. rewrite Hmf.
      split; [|split; [unfold A, B; lia|lia]].
      apply pow2_gt_1; [exact Hexp|]. fold Ds.
      set (T := 2 ^ 52) in *. clearbody T. clear - Hmr Hhi HN1 Hc HDs. nia.
    - assert (HDs2 : 2 < Ds).
      { set (T := 2 ^ 52) in *. change (2 ^ 53) with (2 * T) in *. clearbody T.
        clear - Heq Hhi HN1 Hc HDs. nia. }
      pose proof (pow2_gt_2 _ Hexp HDs2) as Hexp2.
      exists (A - B + 53 - k - 1). rewrite Hmf.
      split; [lia|]. split; [unfold A, B; lia|].
      assert (HDs3 : Ds = 2 * 2 ^ (A - B + 53 - k - 1))
        by (unfold Ds; apply pow2_pred; lia).
      set (X := 2 ^ (A - B + 53 - k - 1)) in *.
      set (T := 2 ^ 52) in *. change (2 ^ 53) with (2 * T) in *. clearbody T X.
      clear - Heq Hlo Hhi HDs3. subst mr Ds. nia. }
  destruct Hef as (E & HE & -> & HmfE).
  rewrite ceil_fraction by lia. f_equal.
  rewrite Z.opp_involutive.
  apply ceiling_of_fraction; [apply Z.pow_pos_nonneg; lia|exact HmfE].
Qed.

End Binary64Ceil.

Section Binary64Exact.

Lemma iter_pos_iter {A : Type} (f : A -> A) (n : positive) (x : A) :
  SpecFloat.iter_pos f n x = Pos.iter f x n.
Proof.
  revert x. induction n as [n IH|n IH|]; intros x;
    cbn [SpecFloat.iter_pos Pos.iter].
  - now rewrite !IH, !Pos.iter_swap.
  - now rewrite !IH.
  - reflexivity.
Qed.

Lemma iter_pos_succ {A : Type} (f : A -> A) (n : positive) (x : A) :
  SpecFloat.iter_pos f (Pos.succ n) x = SpecFloat.iter_pos f n (f x).
Proof.
  now rewrite !iter_pos_iter, Pos.iter_succ, Pos.iter_swap.
Qed.

(** Shifting out [n] zero bits is exact. *)
Lemma iter_shr_1_exact (n x : positive) :
  SpecFloat.iter_pos shr_1 n
    {| shr_m := Zpos (Pos.iter xO x n); shr_r := false; shr_s := false |}
  = {| shr_m := Zpos x; shr_r := false; shr_s := false |}.
Proof.
  induction n as [|n IH] using Pos.peano_ind.
  - reflexivity.
  - rewrite iter_pos_succ, Pos.iter_succ. cbn [shr_1 orb]. exact IH.
Qed.

Lemma digits2_pos_iter_xO (x n : positive) :
  Zpos (digits2_pos (Pos.iter xO x n)) = Zpos (digits2_pos x) + Zpos n.
Proof.
  induction n as [|n IH] using Pos.peano_ind.
  - cbn. lia.
  - rewrite Pos.iter_succ. cbn [digits2_pos]. lia.
Qed.

(** A 53-bit mantissa followed by zero bits is rounded to itself. *)
Lemma binary_round_aux_shifted (sx : bool) (x n : positive) (e : Z) :
  Zpos (digits2_pos x) = 53 -> -1074 <= e + Zpos n <= 971 ->
  binary_round_aux prec emax sx (Zpos (Pos.iter xO x n)) e loc_Exact
  = S754_finite sx x (e + Zpos n).
Proof.
  intros Hd He. unfold binary_round_aux.
  assert (Hshr : shr_fexp prec emax (Zpos (Pos.iter xO x n)) e loc_Exact
                 = ({| shr_m := Zpos x; shr_r := false; shr_s := false |}, e + Zpos n)).
  { unfold shr_fexp, fexp, emin, Zdigits2, prec, emax.
    rewrite digits2_pos_iter_xO, Hd.
    replace (Z.max (53 + Zpos n + e - 53) (3 - 1024 - 53) - e) with (Zpos n) by lia.
    cbn [shr shr_record_of_loc]. now rewrite iter_shr_1_exact. }
  rewrite Hshr. cbn [shr_m loc_of_shr_record round_nearest_even].
  rewrite shr_fexp_53 by (assumption || lia).
  cbn [shr_record_of_loc shr_m]. unfold prec, emax.
  now replace (e + Zpos n <=? 1024 - 53) with true by (symmetry; apply Z.leb_le; lia).
Qed.

(** The integer [z] written with [k] more zero bits at exponent [-k] is
    the number [z]. *)
Lemma binary_normalize_scaled (z k : Z) :
  0 < z < 2 ^ 53 -> 0 <= k <= 1000 ->
  binary_normalize prec emax (z * 2 ^ k) (- k) false = num z.
Proof.
  intros Hz Hk.
  destruct (num_canonical z Hz) as (x & ex & -> & Hdx & Hex & Hx).
  assert (H2k : 0 < 2 ^ k) by (apply Z.pow_pos_nonneg; lia).
  destruct (z * 2 ^ k) as [|M|M] eqn:HM; [nia| |nia].
  unfold binary_normalize, binary_round, shl_align, fexp, emin.
  pose proof (digits2_pos_bounds M) as HbM.
  set (dM := Zpos (digits2_pos M)) in *.
  (* digits: dM - k = 53 + ex *)
  assert (HdM : dM = 53 + ex + k).
  { unfold dM. apply digits2_pos_unique. rewrite <- HM.
    pose proof (digits2_pos_bounds x) as Hbx. rewrite Hdx, Hx in Hbx.
    assert (Hz1 : 2 ^ (53 + ex - 1) * 2 ^ (- ex) <= z * 2 ^ (- ex) < 2 ^ (53 + ex) * 2 ^ (- ex)).
    { rewrite <- !Z.pow_add_r by lia.
      replace (53 + ex - 1 + - ex) with (53 - 1) by lia.
      replace (53 + ex + - ex) with 53 by lia. exact Hbx. }
    assert (H2e : 0 < 2 ^ (- ex)) by (apply Z.pow_pos_nonneg; lia).
    assert (Hz2 : 2 ^ (53 + ex - 1) <= z < 2 ^ (53 + ex)) by nia.
    replace (53 + ex + k - 1) with ((53 + ex - 1) + k) by lia.
    rewrite !Z.pow_add_r by lia. nia. }
  unfold prec, emax. rewrite HdM.
  replace (Z.max (53 + ex + k + - k - 53) (3 - 1024 - 53)) with ex by lia.
  destruct (ex - - k) as [|d|d] eqn:Hd.
  - (* no shift at all: M = x *)
    assert (M = x) by (assert (k = - ex) by lia; subst k; lia). subst M.
    replace (- k) with ex by lia. apply binary_round_aux_exact; [exact Hdx|lia].
  - (* zero bits to shift out *)
    assert (HMx : M = Pos.iter xO x d).
    { apply Pos2Z.inj. rewrite iter_xO_value, Hx, <- HM.
      replace k with (- ex + Zpos d) by lia. rewrite Z.pow_add_r by lia. ring. }
    rewrite HMx, binary_round_aux_shifted by (assumption || lia).
    f_equal. lia.
  - (* bits to add *)
    assert (HMx : Pos.iter xO M d = x).
    { apply Pos2Z.inj. rewrite iter_xO_value, Hx, <- HM.
      replace (- ex) with (k + Zpos d) by lia. rewrite Z.pow_add_r by lia. ring. }
    rewrite HMx. apply binary_round_aux_exact; [exact Hdx|lia].
Qed.

End Binary64Exact.

Section Binary64Integers.

Lemma shl_align_value (m : positive) (e ez : Z) :
  ez <= e -> Zpos (fst (shl_align m e ez)) = Zpos m * 2 ^ (e - ez).
Proof.
  intros He. unfold shl_align.
  destruct (ez - e) as [|d|d] eqn:Hd; cbn [fst]; [|lia|].
  - replace (e - ez) with 0 by lia. cbn. lia.
  - rewrite iter_xO_value. f_equal. f_equal. lia.
Qed.

Lemma binary_round_wide (sx : bool) (M : positive) (e : Z) :
  53 <= Zpos (digits2_pos M) ->
  binary_round prec emax sx M e = binary_round_aux prec emax sx (Zpos M) e loc_Exact.
Proof.
  intros Hd. unfold binary_round, shl_align, fexp, emin, prec, emax.
  destruct (Z.max (Zpos (digits2_pos M) + e - 53) (3 - 1024 - 53) - e) eqn:H;
    [reflexivity|reflexivity|lia].
Qed.

Lemma num_positive (z : Z) : 0 < z < 2 ^ 53 -> truthy (num z) = true /\ gt (num z) (num 0) = true.
Proof.
  intros Hz. destruct (num_canonical z Hz) as (m & e & -> & _). split; reflexivity.
Qed.

(** Subtraction of integers below 2^53 is exact. *)
Lemma sub_integers (a b : Z) :
  0 < b <= a -> a < 2 ^ 53 -> sub (num a) (num b) = num (a - b).
Proof.
  intros Hb Ha.
  destruct (num_canonical a ltac:(lia)) as (m1 & e1 & -> & Hd1 & He1 & Hm1).
  destruct (num_canonical b ltac:(lia)) as (m2 & e2 & -> & Hd2 & He2 & Hm2).
  unfold sub, SFsub. cbn [cond_Zopp].
  rewrite !shl_align_value by lia.
  set (ez := Z.min e1 e2).
  assert (Hez : -52 <= ez <= 0) by (unfold ez; lia).
  assert (Hval : Zpos m1 * 2 ^ (e1 - ez) - Zpos m2 * 2 ^ (e2 - ez)
                 = (a - b) * 2 ^ (- ez)).
  { rewrite Hm1, Hm2, <- !Z.mul_assoc, <- !Z.pow_add_r by (unfold ez; lia).
    replace (- e1 + (e1 - ez)) with (- ez) by lia.
    replace (- e2 + (e2 - ez)) with (- ez) by lia. ring. }
  rewrite Hval.
  destruct (Z.eq_dec a b) as [->|Hne].
  - now rewrite Z.sub_diag.
  - replace ez with (- - ez) at 2 by lia.
    apply binary_normalize_scaled; lia.
Qed.

(** Multiplication of positive integers with a product below 2^53 is
    exact. *)
Lemma mul_integers (a b : Z) :
  0 < a -> 0 < b -> a * b < 2 ^ 53 -> mul (num a) (num b) = num (a * b).
Proof.
  intros Ha Hb Hab.
  destruct (num_canonical a ltac:(nia)) as (m1 & e1 & -> & Hd1 & He1 & Hm1).
  destruct (num_canonical b ltac:(nia)) as (m2 & e2 & -> & Hd2 & He2 & Hm2).
  unfold mul, SFmul. cbn [xorb].
  pose proof (digits2_pos_bounds m1) as Hb1. rewrite Hd1 in Hb1.
  pose proof (digits2_pos_bounds m2) as Hb2. rewrite Hd2 in Hb2.
  change (2 ^ (53 - 1)) with (2 ^ 52) in Hb1, Hb2.
  assert (Hwide : 53 <= Zpos (digits2_pos (m1 * m2))).
  { pose proof (digits2_pos_bounds (m1 * m2)) as Hbm.
    destruct (Z.leb_spec 53 (Zpos (digits2_pos (m1 * m2)))); [assumption|].
    assert (2 ^ Zpos (digits2_pos (m1 * m2)) <= 2 ^ 52)
      by (apply Z.pow_le_mono_r; lia).
    rewrite Pos2Z.inj_mul in Hbm.
    set (T := 2 ^ 52) in *. assert (0 < T) by reflexivity. clearbody T.
    clear - Hbm H0 Hb1 Hb2 H1. nia. }
  rewrite <- (binary_round_wide false (m1 * m2) (e1 + e2) Hwide).
  change (binary_round prec emax false (m1 * m2) (e1 + e2))
    with (binary_normalize prec emax (Zpos (m1 * m2)) (e1 + e2) false).
  rewrite Pos2Z.inj_mul, Hm1, Hm2.
  replace (a * 2 ^ (- e1) * (b * 2 ^ (- e2))) with (a * b * 2 ^ (- (e1 + e2)))
    by (rewrite Z.opp_add_distr, Z.pow_add_r by lia; ring).
  replace (e1 + e2) with (- - (e1 + e2)) at 2 by lia.
  apply binary_normalize_scaled; lia.
Qed.

(** The offset of an integral page, for an integral limit. *)
Lemma skip_integers (p l : Z) :
  1 <= p < 2 ^ 53 -> 1 <= l < 2 ^ 53 -> (p - 1) * l < 2 ^ 53 ->
  mul (sub (num p) (num 1)) (num l) = num ((p - 1) * l).
Proof.
  intros Hp Hl Hpl. rewrite sub_integers by lia.
  destruct (Z.eq_dec p 1) as [->|Hne].
  - destruct (num_canonical l ltac:(lia)) as (m & e & -> & _). reflexivity.
  - apply mul_integers; lia.
Qed.

End Binary64Integers.

(** ** What the keyset predicate selects *)

Section KeysetSemantics.

Variable row : string -> number.
Variable cursors : gmap string Value.

Lemma Pos_compare_cont_antisym (p q : positive) (c : comparison) :
  Pos.compare_cont (CompOpp c) q p = CompOpp (Pos.compare_cont c p q).
Proof.
  revert q c. induction p as [p IH|p IH|]; intros [q|q|] c; cbn; try reflexivity;
    try apply (IH q _).
  - apply (IH q Gt).
  - apply (IH q Lt).
Qed.

Lemma SFcompare_antisym (x y : number) :
  SFcompare y x = CompOpp <$> SFcompare x y.
Proof.
  destruct x as [sx|sx| |sx mx ex], y as [sy|sy| |sy my ey];
    try destruct sx; try destruct sy; try reflexivity; cbn;
    rewrite (Z.compare_antisym ex ey); destruct (ex ?= ey); cbn; try reflexivity;
    f_equal.
  - rewrite <- (Pos_compare_cont_antisym mx my Eq). reflexivity.
  - apply (Pos_compare_cont_antisym mx my Eq).
Qed.

Lemma keysetTree_cons (f : SortField) (fields : list SortField) :
  keysetTree (f :: fields) cursors
  = [strictlyAfter cursors f]
      :: map (cons (equalTo cursors f)) (keysetTree fields cursors).
Proof.
  unfold keysetTree. cbn [imap firstn map app]. f_equal.
  apply list_eq. intros i. change (map ?g ?l) with (g <$> l).
  rewrite list_lookup_fmap, !list_lookup_imap.
  now destruct (fields !! i).
Qed.

Lemma evalTree_cons (c : Comparison) (t : ConditionTree) :
  evalTree row (map (cons c) t) = evalComparison row c && evalTree row t.
Proof.
  unfold evalTree. induction t as [|cl t IH]; cbn [map existsb forallb].
  - now rewrite andb_false_r.
  - rewrite IH. now destruct (evalComparison row c).
Qed.

Lemma evalComparison_equalTo (f : SortField) :
  evalComparison row (equalTo cursors f) = true
  <-> fieldCompare row cursors f = Some Eq.
Proof.
  unfold evalComparison, equalTo, fieldCompare, SFeqb. cbn [cmp_value cmp_op cmp_field].
  destruct (comparand (get cursors (field f))) as [v|]; try easy.
  destruct (SFcompare (row (toString (field f))) v) as [[]|];
    destruct (String.eqb (order f) "DESC"); cbn; easy.
Qed.

Lemma evalComparison_strictlyAfter (f : SortField) :
  evalComparison row (strictlyAfter cursors f) = true
  <-> fieldCompare row cursors f = Some Gt.
Proof.
  unfold evalComparison, strictlyAfter, strictOperator, fieldCompare, SFltb.
  cbn [cmp_value cmp_op cmp_field].
  destruct (comparand (get cursors (field f))) as [v|]; try easy.
  rewrite (SFcompare_antisym (row (toString (field f))) v).
  destruct (SFcompare (row (toString (field f))) v) as [[]|];
    destruct (String.eqb (order f) "DESC"); cbn; easy.
Qed.

(** The keyset predicate selects exactly the rows that sort strictly after
    the cursor row in the lexicographic order of the sort specification. *)
Theorem keyset_selects_rows_after_cursor (fields : list SortField) :
  evalTree row (keysetTree fields cursors) = true
  <-> rowCompare row cursors fields = Some Gt.
Proof.
  induction fields as [|f fields IH].
  - cbn. easy.
  - rewrite keysetTree_cons. cbn [rowCompare].
    change (evalTree row ([strictlyAfter cursors f] :: ?t))
      with (forallb (evalComparison row) [strictlyAfter cursors f] || evalTree row t).
    cbn [forallb]. rewrite andb_true_r, evalTree_cons.
    rewrite orb_true_iff, andb_true_iff, IH.
    rewrite evalComparison_strictlyAfter, evalComparison_equalTo.
    destruct (fieldCompare row cursors f) as [[]|]; split; intros H;
      try (destruct H as [H|[H H']]); try discriminate; auto.
Qed.

End KeysetSemantics.

(** ** The properties of the specification *)

(** C1: for every non-empty sort specification and every cursor-value
    mapping, the predicate built by [getCursor] is the disjunction, over the
    ranks i, of the conjunction of [field_j = cursor_j] for j < i with
    [field_i > cursor_i] when the field is ascending and [field_i < cursor_i]
    when it is descending; for [a ASC, b DESC] and the cursor (a = 5,
    b = 10) it is [(a > 5) OR (a = 5 AND b < 10)]. *)
Theorem keyset_predicate_disjunction :
  (forall (sortFields : list SortField) (cursors : gmap string Value),
      sortFields <> [] ->
      exists w,
        buildKeysetPredicate sortFields cursors = Ok w /\
        Prisma.text w = treeText (keysetTree sortFields cursors) /\
        Prisma.values w = treeValues (keysetTree sortFields cursors)) /\
  (forall (sortFields : list SortField) (cursors : gmap string Value)
          (i : nat) (f : SortField),
      sortFields !! i = Some f ->
      keysetTree sortFields cursors !! i
      = Some (map (equalTo cursors) (firstn i sortFields)
                ++ [strictlyAfter cursors f])) /\
  (forall (cursors : gmap string Value) (f : SortField),
      (order f = "ASC" -> cmp_op (strictlyAfter cursors f) = OpGt) /\
      (order f = "DESC" -> cmp_op (strictlyAfter cursors f) = OpLt)) /\
  (forall (sortString : string) (cursor : Cursor),
      truthyCursor cursor = true ->
      exists cursors w,
        parseCursor (parseSortString sortString) cursor = Ok cursors /\
        getCursor sortString (Some cursor)
        = Ok {| where_ := Some w;
                prop := sortKeyExpression (parseSortString sortString) |} /\
        Prisma.text w = treeText (keysetTree (parseSortString sortString) cursors) /\
        Prisma.values w = treeValues (keysetTree (parseSortString sortString) cursors)) /\
  (exists w,
      getCursor "a ASC, b DESC" (Some (CString "5:10"))
      = Ok {| where_ := Some w; prop := Some "CONCAT(a, ':', b)" |} /\
      Prisma.text w = "((a > ?) OR (a = ? AND b < ?))" /\
      Prisma.values w = [VNumber (num 5); VNumber (num 5); VNumber (num 10)]) /\
  (forall row : string -> number,
      evalTree row (keysetTree sortAB cursorsAB)
      = SFltb (num 5) (row "a")
        || (SFeqb (row "a") (num 5) && SFltb (row "b") (num 10))).
Proof.
  split; [|split; [|split; [|split; [|split]]]].
  - intros sortFields cursors Hne. eexists. split; [|split].
    + now apply buildKeysetPredicate_treeSql.
    + apply text_treeSql.
    + apply values_treeSql.
  - intros sortFields cursors i f Hf. unfold keysetTree.
    now rewrite list_lookup_imap, Hf.
  - intros cursors f. unfold strictlyAfter, strictOperator. cbn [cmp_op].
    split; intros ->; reflexivity.
  - intros sortString cursor Ht.
    destruct (parseCursor_total (parseSortString sortString) cursor
                (parseSortString_nonempty sortString)) as [cursors Hc].
    exists cursors. eexists. split; [exact Hc|]. split; [|split].
    + exact (getCursor_truthy _ _ _ Ht Hc).
    + apply text_treeSql.
    + apply values_treeSql.
  - eexists. split; [|split].
    + vm_compute. reflexivity.
    + vm_compute. reflexivity.
    + vm_compute. reflexivity.
  - intros row.
    change (keysetTree sortAB cursorsAB)
      with [ [ {| cmp_field := Some "a"; cmp_op := OpGt; cmp_value := VNumber (num 5) |} ];
             [ {| cmp_field := Some "a"; cmp_op := OpEq; cmp_value := VNumber (num 5) |};
               {| cmp_field := Some "b"; cmp_op := OpLt; cmp_value := VNumber (num 10) |} ] ].
    unfold evalTree, evalComparison.
    cbn [existsb forallb cmp_value cmp_op cmp_field toString comparand].
    now rewrite !andb_true_r, orb_false_r.
Qed.

Lemma keyset_predicate_disjunction_witness :
  sortAB <> [] /\
  exists w,
    buildKeysetPredicate sortAB cursorsAB = Ok w /\
    Prisma.text w = treeText (keysetTree sortAB cursorsAB) /\
    Prisma.values w = treeValues (keysetTree sortAB cursorsAB).
Proof.
  assert (H : sortAB <> []) by discriminate.
  split; [exact H|].
  exact (proj1 keyset_predicate_disjunction sortAB cursorsAB H).
Defined.

(** C2, as amended: [parseSortString] never fails.  It returns one sort
    field per comma-separated clause, and a clause that is empty once
    trimmed gives the field without name ([undefined]) in ascending order
    instead of an [InvalidSortSpec] error. *)
Theorem parseSortString_never_fails (sortString : string) :
  parseSortString_result sortString = Ok (parseSortString sortString) /\
  length (parseSortString sortString) = length (split "," sortString) /\
  (forall (i : nat) (part : string),
      split "," sortString !! i = Some part ->
      isEmpty (trim part) = true ->
      parseSortString sortString !! i = Some {| field := None; order := "ASC" |}).
Proof.
  split; [reflexivity|]. split.
  - apply parseSortString_length.
  - apply parseSortString_empty_clause.
Qed.

Lemma parseSortString_never_fails_witness :
  split "," "a,,b" !! 1%nat = Some EmptyString /\
  isEmpty (trim EmptyString) = true /\
  parseSortString "a,,b" !! 1%nat = Some {| field := None; order := "ASC" |}.
Proof.
  assert (H1 : split "," "a,,b" !! 1%nat = Some EmptyString) by reflexivity.
  assert (H2 : isEmpty (trim EmptyString) = true) by reflexivity.
  split; [exact H1|]. split; [exact H2|].
  exact (proj2 (proj2 (parseSortString_never_fails "a,,b")) 1%nat EmptyString H1 H2).
Defined.

(** C2 as stated fails: the sort string [a,,b] has an empty clause, and the
    parser returns three sort fields for it rather than failing. *)
Lemma parseSortString_empty_clause_returns :
  hasEmptyClause "a,,b" = true /\
  parseSortString_result "a,,b"
  = Ok [ {| field := Some "a"; order := "ASC" |};
         {| field := None; order := "ASC" |};
         {| field := Some "b"; order := "ASC" |} ] /\
  parseSortString_result "a,,b" <> Throw InvalidSortSpec.
Proof.
  split; [reflexivity|]. split; [reflexivity|]. discriminate.
Qed.

(** C3, as amended: a string cursor never makes the decoder fail.  It
    returns a mapping, in which the field at the position of a segment that
    does not parse as a number holds [NaN] (unless a later field of the same
    name overwrites it) instead of an [InvalidCursor] error being raised. *)
Theorem parseCursor_non_numeric_segment (fields : list SortField) (cursor : string) :
  exists cursors,
    parseCursor fields (CString cursor) = Ok cursors /\
    forall (i : nat) (f : SortField) (segment : string),
      fields !! i = Some f ->
      split ":" cursor !! i = Some segment ->
      Number segment = NaN ->
      (forall j f', (i < j)%nat -> fields !! j = Some f' -> key f' <> key f) ->
      cursors !! key f = Some (VNumber NaN).
Proof.
  eexists. split; [apply parseCursor_string|].
  intros i f segment Hf Hseg Hnan Hlater.
  rewrite (parseCursor_lookup fields cursor i f Hf).
  - now rewrite (segmentValue_map_Number _ _ _ Hseg), Hnan.
  - intros j f' Hij Hf' Hkey. now destruct (Hlater j f' Hij Hf').
Qed.

Lemma parseCursor_non_numeric_segment_witness :
  exists cursors,
    parseCursor sortAB (CString "5:x") = Ok cursors /\
    cursors !! "b" = Some (VNumber NaN).
Proof.
  destruct (parseCursor_non_numeric_segment sortAB "5:x") as (cursors & Hc & Hnan).
  exists cursors. split; [exact Hc|].
  apply (Hnan 1%nat {| field := Some "b"; order := "DESC" |} "x").
  - reflexivity.
  - reflexivity.
  - reflexivity.
  - intros j f' Hj Hf'. destruct j as [|[|j]]; [lia|lia|discriminate].
Defined.

(** C3 as stated fails: the segment [abc] does not parse as a number, and
    the decoder returns the mapping of [a] to [NaN] rather than failing. *)
Lemma parseCursor_non_numeric_returns :
  Number "abc" = NaN /\
  parseCursor [ {| field := Some "a"; order := "ASC" |} ] (CString "abc")
  = Ok {[ "a" := VNumber NaN ]} /\
  parseCursor [ {| field := Some "a"; order := "ASC" |} ] (CString "abc")
  <> Throw InvalidCursor.
Proof.
  split; [reflexivity|]. split; [reflexivity|]. discriminate.
Qed.









(** C5: for every non-empty list of sort fields, a numeric cursor is
    decoded to the mapping of the first field alone to the cursor value
    (the other fields are left undefined), and a string cursor is decoded by
    assigning the i-th colon-delimited segment, parsed as a number, to the
    i-th field; [5:10] against [a, b] gives [{a: 5, b: 10}] and the number
    42 against [a, b] gives [{a: 42}] with [b] undefined. *)
Theorem parseCursor_positional (f0 : SortField) (more : list SortField) :
  (forall n : number,
      parseCursor (f0 :: more) (CNumber n) = Ok {[ key f0 := VNumber n ]}) /\
  (forall z : Z,
      parseCursor (f0 :: more) (CBigInt z) = Ok {[ key f0 := VBigInt z ]}) /\
  (forall (v : Value) (f : SortField),
      key f <> key f0 ->
      ({[ key f0 := v ]} : gmap string Value) !! key f = None) /\
  (forall s : string,
      parseCursor (f0 :: more) (CString s)
      = Ok (assignAll (cursorEntries (f0 :: more) (map Number (split ":" s))) ∅)) /\
  (forall (s : string) (i : nat) (f : SortField) (segment : string),
      (f0 :: more) !! i = Some f ->
      split ":" s !! i = Some segment ->
      cursorEntries (f0 :: more) (map Number (split ":" s)) !! i
      = Some (key f, VNumber (Number segment))) /\
  (forall (s : string) (i : nat) (f : SortField) (segment : string),
      (f0 :: more) !! i = Some f ->
      split ":" s !! i = Some segment ->
      (forall j f', (i < j)%nat -> (f0 :: more) !! j = Some f' -> key f' <> key f) ->
      exists cursors,
        parseCursor (f0 :: more) (CString s) = Ok cursors /\
        cursors !! key f = Some (VNumber (Number segment))) /\
  parseCursor sortAB (CString "5:10")
  = Ok {[ "a" := VNumber (num 5); "b" := VNumber (num 10) ]} /\
  parseCursor sortAB (CNumber (num 42)) = Ok {[ "a" := VNumber (num 42) ]} /\
  ({[ "a" := VNumber (num 42) ]} : gmap string Value) !! "b" = None.
Proof.
  split; [reflexivity|]. split; [reflexivity|].
  split; [|split; [|split; [|split]]].
  - intros v f Hkey. now apply lookup_singleton_ne.
  - intros s. apply parseCursor_string.
  - intros s i f segment Hf Hseg.
    now rewrite cursorEntries_lookup, Hf, (segmentValue_map_Number _ _ _ Hseg).
  - intros s i f segment Hf Hseg Hlater. eexists.
    split; [apply parseCursor_string|].
    rewrite (parseCursor_lookup (f0 :: more) s i f Hf).
    + now rewrite (segmentValue_map_Number _ _ _ Hseg).
    + intros j f' Hij Hf' Hkey. now destruct (Hlater j f' Hij Hf').
  - split; [|split]; vm_compute; reflexivity.
Qed.

Lemma parseCursor_positional_witness :
  exists cursors,
    parseCursor sortAB (CString "5:10") = Ok cursors /\
    cursors !! "a" = Some (VNumber (Number "5")).
Proof.
  apply (proj1 (proj2 (proj2 (proj2 (proj2 (proj2
           (parseCursor_positional {| field := Some "a"; order := "ASC" |}
              [ {| field := Some "b"; order := "DESC" |} ]))))))
           "5:10" 0%nat {| field := Some "a"; order := "ASC" |} "5").
  - reflexivity.
  - reflexivity.
  - intros j f' Hj Hf'. destruct j as [|[|j]]; [lia| |discriminate].
    injection Hf' as <-. discriminate.
Defined.

(** C6: for every sort string, [getCursor] without a cursor returns no
    predicate and still returns the sort-key expression: the field name for
    a single-field sort, [CONCAT] of the field names joined with [':'] in
    declared order for a multi-field sort. *)
Theorem getCursor_without_cursor (sortString : string) :
  getCursor sortString None
  = Ok {| where_ := None; prop := sortKeyExpression (parseSortString sortString) |} /\
  (forall f : SortField,
      parseSortString sortString = [f] ->
      getCursor sortString None = Ok {| where_ := None; prop := field f |}) /\
  (forall (f f' : SortField) (more : list SortField),
      parseSortString sortString = f :: f' :: more ->
      getCursor sortString None
      = Ok {| where_ := None;
              prop := Some ("CONCAT("
                            +:+ join ", ':', "
                                  (map (fun f => joinText (field f)) (f :: f' :: more))
                            +:+ ")") |}) /\
  (avoids "," sortString -> length (parseSortString sortString) = 1%nat) /\
  getCursor "id" None = Ok {| where_ := None; prop := Some "id" |} /\
  getCursor "a ASC, b DESC" None
  = Ok {| where_ := None; prop := Some "CONCAT(a, ':', b)" |}.
Proof.
  split; [apply getCursor_no_cursor|]. split; [|split; [|split; [|split]]].
  - intros f Hf. now rewrite getCursor_no_cursor, Hf.
  - intros f f' more Hf. now rewrite getCursor_no_cursor, Hf.
  - intros Hs. now rewrite parseSortString_length, split_avoids.
  - reflexivity.
  - reflexivity.
Qed.

Lemma getCursor_without_cursor_witness :
  getCursor "b DESC" None
  = Ok {| where_ := None; prop := Some "b" |}.
Proof.
  apply (proj1 (proj2 (getCursor_without_cursor "b DESC"))
           {| field := Some "b"; order := "DESC" |}).
  reflexivity.
Defined.

(** C7: the [totalPages] of [getPagingData] is [ceil(totalItems / pageSize)]
    when the page size and the item count are both known and non-zero, and 1
    otherwise; for integral counts and page sizes it is the exact ceiling of
    their quotient, and [getPagingData({count: 95, items}, 20, 2)] has 5
    pages. *)
Theorem getPagingData_totalPages {T : Type} (data : PagingInput T)
    (limit page : option number) :
  totalItems (getPagingData data limit page) = default (num 0) (count data) /\
  pageSize (getPagingData data limit page)
  = default (default (num 0) (count data)) limit /\
  totalPages (getPagingData data limit page)
  = (if truthy (pageSize (getPagingData data limit page))
        && truthy (totalItems (getPagingData data limit page))
     then ceil (div (totalItems (getPagingData data limit page))
                    (pageSize (getPagingData data limit page)))
     else num 1) /\
  (count data = None -> totalPages (getPagingData data limit page) = num 1) /\
  (forall c : number,
      count data = Some c -> truthy c = false ->
      totalPages (getPagingData data limit page) = num 1) /\
  (forall l : number,
      limit = Some l -> truthy l = false ->
      totalPages (getPagingData data limit page) = num 1) /\
  (forall c l : number,
      count data = Some c -> limit = Some l ->
      truthy c = true -> truthy l = true ->
      totalPages (getPagingData data limit page) = ceil (div c l)) /\
  (forall c l : Z,
      count data = Some (num c) -> limit = Some (num l) ->
      1 <= c < 2 ^ 52 -> 1 <= l < 2 ^ 53 ->
      totalPages (getPagingData data limit page) = num (ceilDiv c l)) /\
  totalPages (getPagingData {| count := Some (num 95); items := items data |}
                (Some (num 20)) (Some (num 2))) = num 5.
Proof.
  split; [reflexivity|]. split; [reflexivity|]. split; [reflexivity|].
  unfold getPagingData. cbn [totalPages].
  split; [|split; [|split; [|split; [|split]]]].
  - intros ->. cbn. now rewrite andb_false_r.
  - intros c -> Hc. cbn [default from_option id]. now rewrite Hc, andb_false_r.
  - intros l -> Hl. cbn [default from_option id]. now rewrite Hl.
  - intros c l -> -> Hc Hl. cbn [default from_option id]. now rewrite Hc, Hl.
  - intros c l -> -> Hc Hl. cbn [default from_option id].
    destruct (num_canonical c ltac:(lia)) as (mc & ec & Hnc & _).
    destruct (num_canonical l ltac:(lia)) as (ml & el & Hnl & _).
    rewrite <- (ceil_div_integers c l Hc Hl).
    now rewrite Hnc, Hnl.
  - reflexivity.
Qed.

Lemma getPagingData_totalPages_witness :
  totalPages (getPagingData {| count := Some (num 7); items := @nil unit |}
                (Some (num 3)) None)
  = num (ceilDiv 7 3).
Proof.
  apply (proj1 (proj2 (proj2 (proj2 (proj2 (proj2 (proj2 (proj2
           (getPagingData_totalPages {| count := Some (num 7); items := @nil unit |}
              (Some (num 3)) None)))))))) 7 3); [reflexivity|reflexivity|lia|lia].
Defined.

(** C8, as amended: [getPagination] returns [take = limit] when the limit
    is positive and no [take] otherwise; it returns
    [skip = (page - 1) * limit] when the limit is positive and the page is
    given and is neither 0 nor NaN (every positive page, and every negative
    one too), and no [skip] when the page is missing, 0 or NaN or the limit
    is not positive.  For an integral page and limit the offset is the exact
    integer product as long as it stays below 2^53; [getPagination(20, 3)]
    is [{take: 20, skip: 40}] and [getPagination(0, 3)] has neither. *)
Theorem getPagination_take_skip (limit : number) (page : option number) :
  take (getPagination limit page)
  = (if gt limit (num 0) then Some limit else None) /\
  skip (getPagination limit page)
  = match page with
    | Some p =>
        if truthy p && gt limit (num 0)
        then Some (mul (sub p (num 1)) limit)
        else None
    | None => None
    end /\
  (forall p : number,
      page = Some p -> gt p (num 0) = true -> gt limit (num 0) = true ->
      getPagination limit page
      = {| take := Some limit; skip := Some (mul (sub p (num 1)) limit) |}) /\
  (forall p l : Z,
      page = Some (num p) -> limit = num l ->
      1 <= p < 2 ^ 53 -> 1 <= l < 2 ^ 53 -> (p - 1) * l < 2 ^ 53 ->
      getPagination limit page
      = {| take := Some (num l); skip := Some (num ((p - 1) * l)) |}) /\
  (gt limit (num 0) = false ->
   getPagination limit page = {| take := None; skip := None |}) /\
  getPagination (num 20) (Some (num 3))
  = {| take := Some (num 20); skip := Some (num 40) |} /\
  getPagination (num 0) (Some (num 3)) = {| take := None; skip := None |}.
Proof.
  split; [apply take_getPagination|]. split; [apply skip_getPagination|].
  split; [|split; [|split; [|split]]].
  - intros p -> Hp Hl. unfold getPagination.
    now rewrite Hl, (gt_zero_truthy p Hp), (gt_zero_truthy limit Hl).
  - intros p l -> -> Hp Hl Hpl. unfold getPagination.
    destruct (num_positive p ltac:(lia)) as [Htp _].
    destruct (num_positive l ltac:(lia)) as [Htl Hgl].
    rewrite Hgl, Htp, Htl. cbn [andb].
    now rewrite skip_integers.
  - intros Hl. unfold getPagination. rewrite Hl. now destruct page.
  - reflexivity.
  - reflexivity.
Qed.

Lemma getPagination_take_skip_witness :
  getPagination (num 10) (Some (num 2))
  = {| take := Some (num 10); skip := Some (mul (sub (num 2) (num 1)) (num 10)) |}.
Proof.
  apply (proj1 (proj2 (proj2 (getPagination_take_skip (num 10) (Some (num 2)))))
           (num 2)); reflexivity.
Defined.

(** C8 as stated fails: the page -1 is not positive, and [getPagination]
    still returns a [skip], the negative offset -40. *)
Lemma getPagination_negative_page :
  gt (num (-1)) (num 0) = false /\
  getPagination (num 20) (Some (num (-1)))
  = {| take := Some (num 20); skip := Some (num (-40)) |} /\
  skip (getPagination (num 20) (Some (num (-1)))) <> None.
Proof.
  split; [reflexivity|]. split; [reflexivity|]. discriminate.
Qed.

(** C9: a string cursor whose number of segments differs from the number of
    sort fields raises no error: the segments beyond the field count are
    dropped, and the fields beyond the segment count are mapped to
    [undefined]. *)
Theorem parseCursor_count_mismatch (fields : list SortField) (cursor : string) :
  exists cursors,
    parseCursor fields (CString cursor) = Ok cursors /\
    (forall cursor' : string,
        firstn (length fields) (split ":" cursor')
        = firstn (length fields) (split ":" cursor) ->
        parseCursor fields (CString cursor') = Ok cursors) /\
    (forall (i : nat) (f : SortField),
        fields !! i = Some f ->
        (length (split ":" cursor) <= i)%nat ->
        cursors !! key f = Some VUndefined).
Proof.
  eexists. split; [apply parseCursor_string|]. split.
  - intros cursor' Hsame. rewrite parseCursor_string. do 2 f_equal.
    unfold cursorEntries. apply imap_ext. intros i f Hf. f_equal.
    pose proof (lookup_lt_Some _ _ _ Hf) as Hi.
    unfold segmentValue. change (map Number ?l) with (Number <$> l).
    rewrite !list_lookup_fmap.
    rewrite <- (lookup_take_lt (split ":" cursor') (length fields) i Hi).
    rewrite <- (lookup_take_lt (split ":" cursor) (length fields) i Hi).
    now rewrite Hsame.
  - intros i f Hf Hi.
    rewrite (parseCursor_lookup fields cursor i f Hf).
    + now rewrite segmentValue_past_end by now rewrite length_map.
    + intros j f' Hij _ _.
      now rewrite !segmentValue_past_end by (rewrite length_map; lia).
Qed.

Lemma parseCursor_count_mismatch_witness :
  exists cursors,
    parseCursor sortAB (CString "5") = Ok cursors /\
    parseCursor sortAB (CString "5:10:15") = parseCursor sortAB (CString "5:10") /\
    cursors !! "b" = Some VUndefined.
Proof.
  destruct (parseCursor_count_mismatch sortAB "5") as (cursors & Hc & _ & Hmissing).
  destruct (parseCursor_count_mismatch sortAB "5:10") as (cursors' & Hc' & Hextra & _).
  exists cursors. split; [exact Hc|]. split.
  - rewrite Hc'. apply Hextra. reflexivity.
  - apply (Hmissing 1%nat {| field := Some "b"; order := "DESC" |}).
    + reflexivity.
    + cbn. lia.
Defined.

(** C10: for every sort string, [getCursor] with the numeric cursor 0 or
    with the empty string behaves exactly as without a cursor: the predicate
    is undefined and the cursor is not decoded, because the cursor is tested
    for truthiness. *)
Theorem getCursor_falsy_cursor (sortString : string) :
  getCursor sortString (Some (CNumber (num 0))) = getCursor sortString None /\
  getCursor sortString (Some (CString EmptyString)) = getCursor sortString None /\
  (forall cursor : Cursor,
      truthyCursor cursor = false ->
      getCursor sortString (Some cursor) = getCursor sortString None) /\
  (exists q, getCursor sortString None = Ok q /\ where_ q = None).
Proof.
  split; [now apply getCursor_falsy|]. split; [now apply getCursor_falsy|].
  split; [intros cursor; apply getCursor_falsy|].
  eexists. split; [apply getCursor_no_cursor|reflexivity].
Qed.

Lemma getCursor_falsy_cursor_witness :
  getCursor "a ASC, b DESC" (Some (CNumber NaN)) = getCursor "a ASC, b DESC" None.
Proof.
  apply (proj1 (proj2 (proj2 (getCursor_falsy_cursor "a ASC, b DESC")))
           (CNumber NaN)).
  reflexivity.
Defined.

(** ** Further properties of the helpers

    What follows goes beyond the specification: the rest of
    [pagination-helpers.ts], then [string-helpers.ts] and the navigation of
    [ImageDetailProvider.tsx]. *)

Section Shifts.

Lemma shr_1_nonneg (m : Z) (r s : bool) :
  0 <= m ->
  shr_1 {| shr_m := m; shr_r := r; shr_s := s |}
  = {| shr_m := m / 2; shr_r := Z.odd m; shr_s := r || s |}.
Proof.
  intros Hm. destruct m as [|[p|p|]|p]; try lia; cbn [shr_1].
  - now rewrite Z.div_0_l.
  - f_equal. rewrite Pos2Z.inj_xI. symmetry.
    rewrite Z.add_comm, Z.mul_comm. rewrite Z.div_add by lia. reflexivity.
  - f_equal. rewrite Pos2Z.inj_xO. symmetry. rewrite Z.mul_comm.
    now rewrite Z.div_mul by lia.
  - reflexivity.
Qed.

(** Shifting [k] bits out of [P]: what is left, the last bit shifted out,
    and whether a one was shifted out before it. *)
Lemma iter_shr_1_spec (P : Z) (k : positive) :
  0 <= P ->
  SpecFloat.iter_pos shr_1 k {| shr_m := P; shr_r := false; shr_s := false |}
  = {| shr_m := P / 2 ^ Zpos k;
       shr_r := Z.odd (P / 2 ^ (Zpos k - 1));
       shr_s := negb (P mod 2 ^ (Zpos k - 1) =? 0) |}.
Proof.
  intros HP. rewrite iter_pos_iter.
  induction k as [|k IH] using Pos.peano_ind.
  - cbn [Pos.iter]. rewrite shr_1_nonneg by exact HP.
    change (Zpos 1 - 1) with 0. rewrite Z.pow_0_r, Z.div_1_r, Z.mod_1_r.
    reflexivity.
  - rewrite Pos.iter_succ, IH.
    assert (Hk : 0 < 2 ^ Zpos k) by (apply Z.pow_pos_nonneg; lia).
    rewrite shr_1_nonneg by (apply Z.div_pos; lia).
    rewrite Pos2Z.inj_succ.
    replace (Z.succ (Zpos k) - 1) with (Zpos k) by lia.
    f_equal.
    + rewrite Z.div_div by lia. f_equal.
      rewrite Z.pow_succ_r by lia. lia.
    + (* sticky *)
      assert (Hk1 : 0 < 2 ^ (Zpos k - 1)) by (apply Z.pow_pos_nonneg; lia).
      assert (H2k : 2 ^ Zpos k = 2 ^ (Zpos k - 1) * 2).
      { replace (Zpos k) with (Zpos k - 1 + 1) at 1 by lia.
        rewrite Z.pow_add_r by lia. reflexivity. }
      assert (Hmod : P mod 2 ^ Zpos k
                     = 2 ^ (Zpos k - 1) * ((P / 2 ^ (Zpos k - 1)) mod 2)
                       + P mod 2 ^ (Zpos k - 1)).
      { rewrite H2k. rewrite Z.rem_mul_r by lia. lia. }
      rewrite Hmod.
      pose proof (Z.mod_pos_bound P (2 ^ (Zpos k - 1)) Hk1) as Hb.
      rewrite (Zmod_odd (P / 2 ^ (Zpos k - 1))).
      destruct (Z.odd (P / 2 ^ (Zpos k - 1))); cbn [orb].
      * symmetry. apply negb_true_iff. apply Z.eqb_neq. lia.
      * rewrite Z.mul_0_r, Z.add_0_l. reflexivity.
Qed.

End Shifts.

Section Rounding.

(** Rounding to nearest after [k] bits are shifted out of [P]: the result
    is within half a unit of the quotient. *)
Lemma round_after_shift (P : Z) (k : positive) :
  0 <= P ->
  let mrs := SpecFloat.iter_pos shr_1 k {| shr_m := P; shr_r := false; shr_s := false |} in
  let mr := round_nearest_even (shr_m mrs) (loc_of_shr_record mrs) in
  P / 2 ^ Zpos k <= mr <= P / 2 ^ Zpos k + 1 /\
  2 * (mr * 2 ^ Zpos k) <= 2 * P + 2 ^ Zpos k.
Proof.
  intros HP. cbv zeta. rewrite iter_shr_1_spec by exact HP.
  cbn [shr_m loc_of_shr_record shr_r shr_s].
  assert (Hk1 : 0 < 2 ^ (Zpos k - 1)) by (apply Z.pow_pos_nonneg; lia).
  assert (H2k : 2 ^ Zpos k = 2 ^ (Zpos k - 1) * 2).
  { replace (Zpos k) with (Zpos k - 1 + 1) at 1 by lia.
    rewrite Z.pow_add_r by lia. reflexivity. }
  assert (Hmod : P mod 2 ^ Zpos k
                 = 2 ^ (Zpos k - 1) * ((P / 2 ^ (Zpos k - 1)) mod 2)
                   + P mod 2 ^ (Zpos k - 1)).
  { rewrite H2k. rewrite Z.rem_mul_r by lia. lia. }
  pose proof (Z.mod_pos_bound P (2 ^ (Zpos k - 1)) Hk1) as Hb.
  pose proof (Z.div_mod P (2 ^ Zpos k) ltac:(lia)) as Hdm.
  rewrite (Zmod_odd (P / 2 ^ (Zpos k - 1))) in Hmod.
  set (q := P / 2 ^ Zpos k) in *.
  set (N := 2 ^ Zpos k) in *.
  set (lo := P mod 2 ^ (Zpos k - 1)) in *.
  set (h := 2 ^ (Zpos k - 1)) in *.
  assert (Hq : 0 <= q) by (apply Z.div_pos; lia).
  destruct (Z.odd (P / h)).
  - (* the bit shifted out last is set *)
    destruct (negb (lo =? 0)); cbn [round_nearest_even].
    + split; [lia|]. clearbody q N lo h. nia.
    + destruct (Z.even q); (split; [lia|]); clearbody q N lo h; nia.
  - destruct (negb (lo =? 0)); cbn [round_nearest_even];
      (split; [lia|]); clearbody q N lo h; nia.
Qed.

End Rounding.

(** *** Sums and comparisons of integers in binary64 *)

Section Binary64Order.

(** Addition of positive integers with a sum below 2^53 is exact. *)
Lemma add_integers (a b : Z) :
  0 < a -> 0 < b -> a + b < 2 ^ 53 -> add (num a) (num b) = num (a + b).
Proof.
  intros Ha Hb Hab.
  destruct (num_canonical a ltac:(lia)) as (m1 & e1 & -> & Hd1 & He1 & Hm1).
  destruct (num_canonical b ltac:(lia)) as (m2 & e2 & -> & Hd2 & He2 & Hm2).
  unfold add, SFadd. cbn [cond_Zopp].
  rewrite !shl_align_value by lia.
  set (ez := Z.min e1 e2).
  assert (Hez : -52 <= ez <= 0) by (unfold ez; lia).
  assert (Hval : Zpos m1 * 2 ^ (e1 - ez) + Zpos m2 * 2 ^ (e2 - ez)
                 = (a + b) * 2 ^ (- ez)).
  { rewrite Hm1, Hm2, <- !Z.mul_assoc, <- !Z.pow_add_r by (unfold ez; lia).
    replace (- e1 + (e1 - ez)) with (- ez) by lia.
    replace (- e2 + (e2 - ez)) with (- ez) by lia. ring. }
  rewrite Hval.
  replace ez with (- - ez) at 2 by lia.
  apply binary_normalize_scaled; lia.
Qed.

(** Of two integers scaled to mantissas of the same width, the one with
    the smaller exponent is the smaller. *)
Lemma canonical_lt (a b m1 m2 e1 e2 T : Z) :
  0 < T -> T <= m2 -> m1 < 2 * T ->
  m1 = a * 2 ^ (- e1) -> m2 = b * 2 ^ (- e2) ->
  e1 <= 0 -> e2 <= 0 -> e1 < e2 -> a < b.
Proof.
  intros HT H2 H1 Hm1 Hm2 He1 He2 Hlt.
  assert (Hk : 2 ^ (- e1) = 2 ^ (- e2) * 2 ^ (e2 - e1)).
  { rewrite <- Z.pow_add_r by lia. f_equal. lia. }
  assert (H2e : 0 < 2 ^ (- e2)) by (apply Z.pow_pos_nonneg; lia).
  assert (Hd : 2 <= 2 ^ (e2 - e1)).
  { change 2 with (2 ^ 1) at 1. apply Z.pow_le_mono_r; lia. }
  set (K := 2 ^ (- e2)) in *. set (D := 2 ^ (e2 - e1)) in *.
  rewrite Hk in Hm1. clearbody K D. clear - HT H2 H1 Hm1 Hm2 H2e Hd.
  subst m1 m2.
  assert (H3 : 2 * T <= b * K * D).
  { assert (0 <= (b * K - T) * D) by (apply Z.mul_nonneg_nonneg; lia).
    assert (0 <= T * (D - 2)) by (apply Z.mul_nonneg_nonneg; lia). lia. }
  assert (H4 : 0 < K * D) by (apply Z.mul_pos_pos; lia).
  destruct (Z.lt_ge_cases a b) as [|Hge]; [assumption|exfalso].
  assert (0 <= (a - b) * (K * D)) by (apply Z.mul_nonneg_nonneg; lia).
  lia.
Qed.

(** Positive integers below 2^53 compare as numbers the way they compare
    as integers. *)
Lemma compare_integers (a b : Z) :
  0 < a < 2 ^ 53 -> 0 < b < 2 ^ 53 ->
  SFcompare (num a) (num b) = Some (a ?= b).
Proof.
  intros Ha Hb.
  destruct (num_canonical a Ha) as (m1 & e1 & -> & Hd1 & He1 & Hm1).
  destruct (num_canonical b Hb) as (m2 & e2 & -> & Hd2 & He2 & Hm2).
  pose proof (digits2_pos_bounds m1) as Hb1. rewrite Hd1 in Hb1.
  pose proof (digits2_pos_bounds m2) as Hb2. rewrite Hd2 in Hb2.
  change (2 ^ (53 - 1)) with (2 ^ 52) in Hb1, Hb2.
  change (2 ^ 53) with (2 * 2 ^ 52) in Hb1, Hb2.
  cbn [SFcompare]. f_equal.
  destruct (Z.compare_spec e1 e2) as [Heq|Hlt|Hgt].
  - subst e2. change (Pos.compare_cont Eq m1 m2) with (Zpos m1 ?= Zpos m2).
    rewrite Hm1, Hm2.
    assert (HK : 0 < 2 ^ (- e1)) by (apply Z.pow_pos_nonneg; lia).
    symmetry. apply Zmult_compare_compat_r. lia.
  - symmetry. apply Z.compare_lt_iff.
    apply (canonical_lt a b (Zpos m1) (Zpos m2) e1 e2 (2 ^ 52)); lia.
  - symmetry. apply Z.compare_gt_iff.
    apply (canonical_lt b a (Zpos m2) (Zpos m1) e2 e1 (2 ^ 52)); lia.
Qed.

Lemma lt_integers (a b : Z) :
  0 < a < 2 ^ 53 -> 0 < b < 2 ^ 53 -> lt (num a) (num b) = (a <? b).
Proof.
  intros Ha Hb. unfold lt, SFltb. rewrite (compare_integers a b Ha Hb).
  unfold Z.ltb. now destruct (a ?= b).
Qed.

Lemma gt_integers (a b : Z) :
  0 < a < 2 ^ 53 -> 0 < b < 2 ^ 53 -> gt (num a) (num b) = (b <? a).
Proof. intros Ha Hb. apply (lt_integers b a Hb Ha). Qed.

(** The number of pages of an integral count and page size. *)
Lemma totalPages_integers {T : Type} (items : list T) (page : option number) (c l : Z) :
  1 <= c < 2 ^ 52 -> 1 <= l < 2 ^ 53 ->
  totalPages (getPagingData {| count := Some (num c); items := items |}
                (Some (num l)) page)
  = num (ceilDiv c l).
Proof.
  intros Hc Hl. unfold getPagingData. cbn [totalPages count default from_option id].
  destruct (num_positive c ltac:(lia)) as [Htc _].
  destruct (num_positive l ltac:(lia)) as [Htl _].
  rewrite Htc, Htl. cbn [andb]. now apply ceil_div_integers.
Qed.

End Binary64Order.

Section LargeIntegers.

(** The last step of rounding, whatever the exponent: the exponent does not
    go down, or the result is an infinity. *)
Lemma binary_round_finish_cases (sx : bool) (m e : Z) :
  2 ^ 52 <= m <= 2 ^ 53 -> -1074 <= e ->
  (let '(mrs, e') := shr_fexp prec emax m e loc_Exact in
   match shr_m mrs with
   | Z0 => S754_zero sx
   | Zpos m0 =>
       if e' <=? emax - prec then S754_finite sx m0 e' else S754_infinity sx
   | Zneg _ => S754_nan
   end) = S754_infinity sx
  \/ exists (m0 : positive) (e0 : Z),
       (let '(mrs, e') := shr_fexp prec emax m e loc_Exact in
        match shr_m mrs with
        | Z0 => S754_zero sx
        | Zpos m0 =>
            if e' <=? emax - prec then S754_finite sx m0 e' else S754_infinity sx
        | Zneg _ => S754_nan
        end) = S754_finite sx m0 e0 /\ e <= e0.
Proof.
  intros Hm He.
  match goal with |- ?R = _ \/ _ => remember R as r eqn:Hr end.
  destruct (Z.eqb_spec m (2 ^ 53)) as [->|Hne].
  - unfold shr_fexp, fexp, emin, prec, emax in Hr.
    change (Zdigits2 (2 ^ 53)) with 54 in Hr.
    replace (Z.max (54 + e - 53) (3 - 1024 - 53) - e) with 1 in Hr by lia.
    cbn [shr SpecFloat.iter_pos] in Hr.
    change (shr_1 (shr_record_of_loc (2 ^ 53) loc_Exact))
      with {| shr_m := 2 ^ 52; shr_r := false; shr_s := false |} in Hr.
    cbn [shr_m] in Hr. change (2 ^ 52) with (Zpos (Z.to_pos (2 ^ 52))) in Hr.
    cbv beta iota in Hr.
    destruct (e + 1 <=? 1024 - 53); [right|now left].
    eexists _, _. split; [exact Hr|lia].
  - destruct m as [|p|p]; [lia| |lia].
    rewrite shr_fexp_53 in Hr; [|apply digits2_pos_unique; lia|lia].
    cbn [shr_record_of_loc shr_m] in Hr. unfold prec, emax in Hr.
    destruct (e <=? 1024 - 53); [right|now left].
    eexists _, _. split; [exact Hr|lia].
Qed.

(** The number nearest to an integer from 2^53 on has a positive exponent,
    or is an infinity. *)
Lemma num_large (z : Z) :
  2 ^ 53 <= z ->
  num z = S754_infinity false
  \/ exists (m : positive) (e : Z), num z = S754_finite false m e /\ 1 <= e.
Proof.
  intros Hz. destruct z as [|M|M]; [lia| |lia].
  pose proof (digits2_pos_bounds M) as HM.
  set (d := Zpos (digits2_pos M)) in *.
  assert (Hd : 54 <= d).
  { destruct (Z.leb_spec 54 d); [assumption|].
    assert (2 ^ d <= 2 ^ 53) by (apply Z.pow_le_mono_r; lia). lia. }
  remember (num (Zpos M)) as r eqn:Hr.
  unfold num, binary_normalize in Hr.
  rewrite binary_round_wide in Hr by (fold d; lia).
  unfold binary_round_aux in Hr. unfold shr_fexp at 1 in Hr.
  unfold fexp at 1 in Hr. unfold emin, Zdigits2 in Hr. fold d in Hr.
  change (3 - emax - prec) with (3 - 1024 - 53) in Hr.
  change prec with 53 in Hr at 1.
  replace (Z.max (d + 0 - 53) (3 - 1024 - 53) - 0) with (d - 53) in Hr by lia.
  destruct (d - 53) as [|k|k] eqn:Hk; try lia.
  cbn [shr shr_record_of_loc] in Hr.
  pose proof (round_after_shift (Zpos M) k ltac:(lia)) as Hround.
  cbv zeta in Hround. destruct Hround as [Hmr _].
  set (mrs := SpecFloat.iter_pos shr_1 k _) in *.
  set (mr := round_nearest_even (shr_m mrs) (loc_of_shr_record mrs)) in *.
  assert (HN : 0 < 2 ^ Zpos k) by (apply Z.pow_pos_nonneg; lia).
  assert (Hlow : 2 ^ 52 * 2 ^ Zpos k <= Zpos M < 2 ^ 53 * 2 ^ Zpos k).
  { rewrite <- !Z.pow_add_r by lia.
    replace (52 + Zpos k) with (d - 1) by lia.
    replace (53 + Zpos k) with d by lia. exact HM. }
  assert (Hq : 2 ^ 52 <= Zpos M / 2 ^ Zpos k < 2 ^ 53).
  { split; [apply Z.div_le_lower_bound; lia|apply Z.div_lt_upper_bound; lia]. }
  destruct (binary_round_finish_cases false mr (0 + Zpos k) ltac:(lia) ltac:(lia))
    as [Hinf|(m0 & e0 & Hfin & He0)].
  - left. rewrite Hr. exact Hinf.
  - right. exists m0, e0. split; [rewrite Hr; exact Hfin|lia].
Qed.

(** A positive integer below 2^53 compares with the number nearest to any
    positive integer as it compares with that integer. *)
Lemma compare_integer_nearest (a z : Z) :
  0 < a < 2 ^ 53 -> 0 < z ->
  SFcompare (num a) (num z) = Some (a ?= z).
Proof.
  intros Ha Hz. destruct (Z.ltb_spec z (2 ^ 53)) as [Hlt|Hge].
  - apply compare_integers; lia.
  - replace (a ?= z) with Lt by (symmetry; apply Z.compare_lt_iff; lia).
    destruct (num_canonical a Ha) as (m1 & e1 & -> & _ & He1 & _).
    destruct (num_large z Hge) as [->|(m & e & -> & He)]; [reflexivity|].
    cbn [SFcompare].
    now replace (e1 ?= e) with Lt by (symmetry; apply Z.compare_lt_iff; lia).
Qed.

End LargeIntegers.


(** *** [getPagedData] *)

Section PagedData.

Context {V TData : Type}.
Implicit Types (page limit : option number) (rest : gmap string V).
Implicit Types (fn : gmap string (ArgValue V) -> result (FetchResult TData)).

Lemma getPagedData_truthy (p : number) limit rest fn :
  truthy p = true ->
  getPagedData (Some p) limit rest fn
  = let* fetched :=
      fn (fetchArgs (Some (mul (sub p (num 1)) (toNumber limit))) limit rest) in
    Ok {| pg_currentPage := Some p;
          pg_pageSize := limit;
          pg_totalPages :=
            if truthyOpt limit && truthyOpt (fr_count fetched)
            then ceil (div (toNumber (fr_count fetched)) (toNumber limit))
            else num 1;
          pg_totalItems := fr_count fetched;
          pg_items := fr_items fetched |}.
Proof.
  intros Hp. unfold getPagedData. cbn [truthyOpt toNumber].
  rewrite Hp. reflexivity.
Qed.

Lemma fetchArgs_given (skip take : option number) rest (k : string) (v : V) :
  rest !! k = Some v -> fetchArgs skip take rest !! k = Some (Given v).
Proof.
  intros Hk. unfold fetchArgs. apply lookup_union_Some_l.
  now rewrite lookup_fmap, Hk.
Qed.

Lemma fetchArgs_skip (skip take : option number) rest :
  rest !! "skip" = None -> fetchArgs skip take rest !! "skip" = Some (Computed skip).
Proof.
  intros Hk. unfold fetchArgs. rewrite lookup_union_r by now rewrite lookup_fmap, Hk.
  now rewrite lookup_insert_eq.
Qed.

Lemma fetchArgs_take (skip take : option number) rest :
  rest !! "take" = None -> fetchArgs skip take rest !! "take" = Some (Computed take).
Proof.
  intros Hk. unfold fetchArgs. rewrite lookup_union_r by now rewrite lookup_fmap, Hk.
  rewrite lookup_insert_ne by discriminate. apply lookup_singleton_eq.
Qed.

Lemma fetchArgs_other (skip take : option number) rest (k : string) :
  k <> "skip" -> k <> "take" -> rest !! k = None ->
  fetchArgs skip take rest !! k = None.
Proof.
  intros Hs Ht Hk. unfold fetchArgs.
  rewrite lookup_union_r by now rewrite lookup_fmap, Hk.
  rewrite lookup_insert_ne by congruence. apply lookup_singleton_ne. congruence.
Qed.

End PagedData.

(** X1: when the page is missing, 0 or NaN, [getPagedData] ignores the
    limit: it asks the callback for everything (no [skip], no [take]) and
    reports a single page without a page size, whatever the limit and the
    count are; the items and the count of the callback are returned as they
    are, and its failure is the failure of the call. *)
Theorem getPagedData_page_disabled {V TData : Type} (page limit : option number)
    (rest : gmap string V)
    (fn : gmap string (ArgValue V) -> result (FetchResult TData)) :
  truthyOpt page = false ->
  (forall limit' : option number,
      getPagedData page limit' rest fn = getPagedData page limit rest fn) /\
  (forall fetched : FetchResult TData,
      fn (fetchArgs None None rest) = Ok fetched ->
      getPagedData page limit rest fn
      = Ok {| pg_currentPage := page;
              pg_pageSize := None;
              pg_totalPages := num 1;
              pg_totalItems := fr_count fetched;
              pg_items := fr_items fetched |}) /\
  (forall e : Error,
      fn (fetchArgs None None rest) = Throw e ->
      getPagedData page limit rest fn = Throw e).
Proof.
  intros Hp. unfold getPagedData. rewrite Hp. cbn [negb].
  split; [reflexivity|]. split.
  - intros fetched ->. reflexivity.
  - intros e ->. reflexivity.
Qed.

Lemma getPagedData_page_disabled_witness :
  getPagedData (Some (num 0)) (Some (num 20)) (∅ : gmap string unit)
    (fun _ => Ok {| fr_items := [1; 2; 3]%nat; fr_count := Some (num 3) |})
  = Ok {| pg_currentPage := Some (num 0);
          pg_pageSize := None;
          pg_totalPages := num 1;
          pg_totalItems := Some (num 3);
          pg_items := [1; 2; 3]%nat |}.
Proof.
  apply (proj1 (proj2 (getPagedData_page_disabled (Some (num 0)) (Some (num 20)) ∅
                  (fun _ => Ok {| fr_items := [1; 2; 3]%nat; fr_count := Some (num 3) |})
                  eq_refl))
           {| fr_items := [1; 2; 3]%nat; fr_count := Some (num 3) |}).
  reflexivity.
Defined.

(** X2: [getPagedData] hands every other property of the query to the
    callback unchanged, next to the [skip] and [take] it computes; a property
    of the query that is itself named [skip] or [take] takes the place of the
    computed one, and nothing else is added. *)
Theorem getPagedData_passes_query {V : Type} (page limit : option number)
    (rest : gmap string V) :
  exists skip take : option number,
    (forall (TData : Type)
            (fn : gmap string (ArgValue V) -> result (FetchResult TData)),
        getPagedData page limit rest fn
        = let* fetched := fn (fetchArgs skip take rest) in
          Ok {| pg_currentPage := page;
                pg_pageSize := take;
                pg_totalPages :=
                  if truthyOpt take && truthyOpt (fr_count fetched)
                  then ceil (div (toNumber (fr_count fetched)) (toNumber take))
                  else num 1;
                pg_totalItems := fr_count fetched;
                pg_items := fr_items fetched |}) /\
    (forall (k : string) (v : V),
        rest !! k = Some v -> fetchArgs skip take rest !! k = Some (Given v)) /\
    (rest !! "skip" = None ->
     fetchArgs skip take rest !! "skip" = Some (Computed skip)) /\
    (rest !! "take" = None ->
     fetchArgs skip take rest !! "take" = Some (Computed take)) /\
    (forall k : string,
        k <> "skip" -> k <> "take" -> rest !! k = None ->
        fetchArgs skip take rest !! k = None).
Proof.
  eexists _, _. split; [intros TData fn; reflexivity|].
  split; [apply fetchArgs_given|]. split; [apply fetchArgs_skip|].
  split; [apply fetchArgs_take|apply fetchArgs_other].
Qed.

Lemma getPagedData_passes_query_witness :
  exists skip take : option number,
    fetchArgs skip take ({[ "query" := "cat"; "take" := "5" ]} : gmap string string)
      !! "query" = Some (Given "cat") /\
    fetchArgs skip take ({[ "query" := "cat"; "take" := "5" ]} : gmap string string)
      !! "take" = Some (Given "5") /\
    fetchArgs skip take ({[ "query" := "cat"; "take" := "5" ]} : gmap string string)
      !! "skip" = Some (Computed skip).
Proof.
  destruct (getPagedData_passes_query (Some (num 2)) (Some (num 20))
              ({[ "query" := "cat"; "take" := "5" ]} : gmap string string))
    as (skip & take & _ & Hgiven & Hskip & _).
  exists skip, take. split; [|split].
  - apply Hgiven. reflexivity.
  - apply Hgiven. reflexivity.
  - apply Hskip. reflexivity.
Defined.

(** X3: for a page that is neither missing, 0 nor NaN, [getPagedData]
    asks the callback for [take = limit] and [skip = (page - 1) * limit] and
    reports the [totalPages] that [getPagingData] computes from the same
    count, limit and page.  [getPagination] computes the same [skip] and
    [take] when the limit is positive; when it is not, [getPagination] gives
    neither, while [getPagedData] still passes them. *)
Theorem getPagedData_agrees {V TData : Type} (p l : number)
    (rest : gmap string V)
    (fn : gmap string (ArgValue V) -> result (FetchResult TData)) :
  truthy p = true ->
  getPagedData (Some p) (Some l) rest fn
  = (let* fetched := fn (fetchArgs (Some (mul (sub p (num 1)) l)) (Some l) rest) in
     Ok {| pg_currentPage := Some p;
           pg_pageSize := Some l;
           pg_totalPages :=
             totalPages (getPagingData
                           {| count := fr_count fetched; items := @nil unit |}
                           (Some l) (Some p));
           pg_totalItems := fr_count fetched;
           pg_items := fr_items fetched |}) /\
  (gt l (num 0) = true ->
   getPagination l (Some p)
   = {| take := Some l; skip := Some (mul (sub p (num 1)) l) |}) /\
  (gt l (num 0) = false ->
   getPagination l (Some p) = {| take := None; skip := None |}).
Proof.
  intros Hp. split; [|split].
  - rewrite (getPagedData_truthy p (Some l) rest fn Hp). cbn [toNumber truthyOpt].
    destruct (fn _) as [fetched|e]; [|reflexivity]. cbn [bind]. do 2 f_equal.
    unfold getPagingData. cbn [totalPages count default from_option id].
    destruct (fr_count fetched) as [c|]; cbn [truthyOpt toNumber from_option id].
    + reflexivity.
    + change (truthy (num 0)) with false. now rewrite andb_false_r.
  - intros Hl. unfold getPagination. rewrite Hl, Hp, (gt_zero_truthy l Hl). reflexivity.
  - intros Hl. unfold getPagination. now rewrite Hl.
Qed.

Lemma getPagedData_agrees_witness :
  getPagedData (Some (num 3)) (Some (num 20)) (∅ : gmap string unit)
    (fun _ => Ok {| fr_items := [1; 2; 3]%nat; fr_count := Some (num 95) |})
  = Ok {| pg_currentPage := Some (num 3);
          pg_pageSize := Some (num 20);
          pg_totalPages := num 5;
          pg_totalItems := Some (num 95);
          pg_items := [1; 2; 3]%nat |} /\
  getPagination (num 20) (Some (num 3))
  = {| take := Some (num 20); skip := Some (mul (sub (num 3) (num 1)) (num 20)) |}.
Proof.
  destruct (getPagedData_agrees (num 3) (num 20) (∅ : gmap string unit)
              (fun _ => Ok {| fr_items := [1; 2; 3]%nat; fr_count := Some (num 95) |})
              eq_refl) as (Hpaged & Hsame & _).
  split; [exact Hpaged|apply Hsame; reflexivity].
Defined.

(** *** [getPagination] and [getPagingData] together *)

(** X4: for an integral count and limit, the offsets of [getPagination]
    and the page count of [getPagingData] fit: every page from 1 to
    [totalPages] starts at an offset below the count, so none of them is
    empty, and the last one reaches the end of the items. *)
Theorem pages_cover_items {T : Type} (items : list T) (page : option number) (c l : Z) :
  1 <= c < 2 ^ 52 -> 1 <= l < 2 ^ 53 ->
  exists n : Z,
    totalPages (getPagingData {| count := Some (num c); items := items |}
                  (Some (num l)) page) = num n /\
    1 <= n <= c /\
    (forall p : Z,
        1 <= p <= n ->
        getPagination (num l) (Some (num p))
        = {| take := Some (num l); skip := Some (num ((p - 1) * l)) |} /\
        (p - 1) * l < c) /\
    c <= (n - 1) * l + l.
Proof.
  intros Hc Hl. exists (ceilDiv c l).
  pose proof (ceilDiv_spec c l ltac:(lia)) as Hspec.
  pose proof (ceilDiv_range c l ltac:(lia) ltac:(lia)) as Hrange.
  destruct (num_positive l ltac:(lia)) as [Htl Hgl].
  split; [|split; [exact Hrange|split]].
  - now apply totalPages_integers.
  - set (n := ceilDiv c l) in *. clearbody n. intros p Hp.
    assert (Hpl : (p - 1) * l < c).
    { assert (0 <= (n - p) * l) by (apply Z.mul_nonneg_nonneg; lia). lia. }
    split; [|exact Hpl].
    unfold getPagination.
    destruct (num_positive p ltac:(lia)) as [Htp _].
    rewrite Hgl, Htp, Htl. cbn [andb].
    rewrite skip_integers by lia. reflexivity.
  - lia.
Qed.

Lemma pages_cover_items_witness :
  exists n : Z,
    totalPages (getPagingData {| count := Some (num 95); items := @nil unit |}
                  (Some (num 20)) None) = num n /\
    1 <= n <= 95 /\
    (forall p : Z,
        1 <= p <= n ->
        getPagination (num 20) (Some (num p))
        = {| take := Some (num 20); skip := Some (num ((p - 1) * 20)) |} /\
        (p - 1) * 20 < 95) /\
    95 <= (n - 1) * 20 + 20.
Proof.
  apply (pages_cover_items (@nil unit) None 95 20); lia.
Defined.

(** X5: without a limit [getPagingData] takes the count as the page size
    and reports a single page, for every integral count from 0 on as well as
    for a missing count. *)
Theorem getPagingData_without_limit {T : Type} (items : list T) (page : option number) :
  (pageSize (getPagingData {| count := None; items := items |} None page) = num 0 /\
   totalPages (getPagingData {| count := None; items := items |} None page) = num 1) /\
  (forall c : Z,
      0 <= c < 2 ^ 52 ->
      pageSize (getPagingData {| count := Some (num c); items := items |} None page)
      = num c /\
      totalPages (getPagingData {| count := Some (num c); items := items |} None page)
      = num 1).
Proof.
  split; [split; reflexivity|].
  intros c Hc. split; [reflexivity|].
  unfold getPagingData. cbn [totalPages count default from_option id].
  destruct (Z.eq_dec c 0) as [->|Hne]; [reflexivity|].
  destruct (num_positive c ltac:(lia)) as [Htc _]. rewrite Htc. cbn [andb].
  rewrite ceil_div_integers by lia. f_equal.
  unfold ceilDiv. replace (c + c - 1) with (1 * c + (c - 1)) by lia.
  rewrite Z.div_add_l by lia. rewrite Z.div_small by lia. reflexivity.
Qed.

Lemma getPagingData_without_limit_witness :
  pageSize (getPagingData {| count := Some (num 95); items := @nil unit |} None None)
  = num 95 /\
  totalPages (getPagingData {| count := Some (num 95); items := @nil unit |} None None)
  = num 1.
Proof.
  apply (proj2 (getPagingData_without_limit (@nil unit) None) 95). lia.
Defined.

(** *** [getPaginationLinks] *)

Section SetProperty.

Context {V : Type}.
Implicit Types (o : list (string * V)) (k : string) (v : V).

Lemma getProperty_cons k k' v o :
  getProperty k ((k', v) :: o) = if String.eqb k' k then Some v else getProperty k o.
Proof. unfold getProperty. cbn. now destruct (String.eqb k' k). Qed.

Lemma getProperty_setProperty k v o : getProperty k (setProperty k v o) = Some v.
Proof.
  induction o as [|[k' v'] o IH]; cbn [setProperty].
  - rewrite getProperty_cons. now rewrite String.eqb_refl.
  - destruct (String.eqb k' k) eqn:Hk; rewrite getProperty_cons, Hk;
      [reflexivity|exact IH].
Qed.

Lemma getProperty_setProperty_ne k k0 v o :
  k0 <> k -> getProperty k0 (setProperty k v o) = getProperty k0 o.
Proof.
  intros Hne. induction o as [|[k' v'] o IH]; cbn [setProperty].
  - rewrite getProperty_cons.
    destruct (String.eqb_spec k k0); [congruence|reflexivity].
  - destruct (String.eqb_spec k' k) as [->|Hk]; rewrite !getProperty_cons.
    + destruct (String.eqb_spec k k0); [congruence|reflexivity].
    + now rewrite IH.
Qed.

Lemma keys_setProperty k v o :
  map fst (setProperty k v o)
  = if hasProperty k o then map fst o else map fst o ++ [k].
Proof.
  unfold hasProperty. induction o as [|[k' v'] o IH]; cbn [setProperty]; [reflexivity|].
  cbn [existsb fst]. destruct (String.eqb k' k) eqn:Hk; cbn [orb map fst];
    [reflexivity|].
  rewrite IH. now destruct (existsb _ o).
Qed.

End SetProperty.

Lemma replacesPage_setProperty (q : list (string * QueryValue)) (page : number) :
  replacesPage q (setProperty "page" (QNumber page) q) page.
Proof.
  split; [apply getProperty_setProperty|]. split.
  - intros k Hk. now apply getProperty_setProperty_ne.
  - apply keys_setProperty.
Qed.

Section PaginationLinks.

Variable isProd : bool.
Variable URL_new : string -> string -> result URL.
Variable QS_stringify : list (string * QueryValue) -> string.
Variable req : NextApiRequest.

Lemma getPaginationLinks_integers (n p : Z) :
  1 <= n < 2 ^ 53 -> 1 <= p < 2 ^ 53 - 1 ->
  getPaginationLinks isProd URL_new QS_stringify req (num n) (num p)
  = let* u := URL_new (default "/" (url req)) (requestBase isProd req) in
    Ok {| nextPage :=
            if p <? n then Some (linkTo QS_stringify req u (num (p + 1))) else None;
          prevPage :=
            if (1 <? n) && (1 <? p)
            then Some (linkTo QS_stringify req u (num (p - 1)))
            else None;
          baseUrl := u |}.
Proof.
  intros Hn Hp. unfold getPaginationLinks, linkTo, requestBase.
  rewrite lt_integers, !gt_integers by lia.
  rewrite add_integers by lia.
  destruct (URL_new _ _) as [u|e]; [|reflexivity]. cbn [bind].
  destruct (p <? n), (1 <? n) eqn:H1n, (1 <? p) eqn:H1p; cbn [andb];
    try rewrite sub_integers by lia; reflexivity.
Qed.

(** X6: for an integral page p and page count n, [getPaginationLinks]
    gives a link to page p + 1 exactly when p < n and a link to page p - 1
    exactly when both p and n exceed 1; a page beyond the last one still gets
    its link back to p - 1.  The call fails exactly when the request's URL
    cannot be resolved, whether a link is needed or not. *)
Theorem getPaginationLinks_by_position (n p : Z) :
  1 <= n < 2 ^ 53 -> 1 <= p < 2 ^ 53 - 1 ->
  (forall u : URL,
      URL_new (default "/" (url req)) (requestBase isProd req) = Ok u ->
      getPaginationLinks isProd URL_new QS_stringify req (num n) (num p)
      = Ok {| nextPage :=
                if p <? n then Some (linkTo QS_stringify req u (num (p + 1)))
                else None;
              prevPage :=
                if (1 <? n) && (1 <? p)
                then Some (linkTo QS_stringify req u (num (p - 1)))
                else None;
              baseUrl := u |}) /\
  (forall e : Error,
      URL_new (default "/" (url req)) (requestBase isProd req) = Throw e ->
      getPaginationLinks isProd URL_new QS_stringify req (num n) (num p) = Throw e) /\
  (n < p -> 1 < n ->
   forall u : URL,
     URL_new (default "/" (url req)) (requestBase isProd req) = Ok u ->
     exists links,
       getPaginationLinks isProd URL_new QS_stringify req (num n) (num p) = Ok links /\
       nextPage links = None /\
       prevPage links = Some (linkTo QS_stringify req u (num (p - 1)))).
Proof.
  intros Hn Hp. rewrite getPaginationLinks_integers by assumption.
  split; [|split].
  - intros u ->. reflexivity.
  - intros e ->. reflexivity.
  - intros Hbeyond H1 u ->. eexists. split; [reflexivity|]. cbn [nextPage prevPage].
    replace (p <? n) with false by (symmetry; apply Z.ltb_ge; lia).
    replace (1 <? n) with true by (symmetry; apply Z.ltb_lt; lia).
    replace (1 <? p) with true by (symmetry; apply Z.ltb_lt; lia).
    split; reflexivity.
Qed.

(** X7: fed with the paging data of an integral count c, limit l and
    page p, [getPaginationLinks] offers the next page exactly when items
    remain beyond the current page (p * l < c) and the previous page exactly
    when p exceeds 1 and the items do not fit on one page (l < c). *)
Theorem links_follow_items {T : Type} (items : list T) (c l p : Z) (u : URL) :
  1 <= c < 2 ^ 52 -> 1 <= l < 2 ^ 53 -> 1 <= p < 2 ^ 53 - 1 ->
  URL_new (default "/" (url req)) (requestBase isProd req) = Ok u ->
  getPaginationLinks isProd URL_new QS_stringify req
    (totalPages (getPagingData {| count := Some (num c); items := items |}
                   (Some (num l)) (Some (num p))))
    (currentPage (getPagingData {| count := Some (num c); items := items |}
                    (Some (num l)) (Some (num p))))
  = Ok {| nextPage :=
            if p * l <? c then Some (linkTo QS_stringify req u (num (p + 1)))
            else None;
          prevPage :=
            if (l <? c) && (1 <? p)
            then Some (linkTo QS_stringify req u (num (p - 1)))
            else None;
          baseUrl := u |}.
Proof.
  intros Hc Hl Hp Hu.
  pose proof (ceilDiv_spec c l ltac:(lia)) as Hspec.
  pose proof (ceilDiv_range c l ltac:(lia) ltac:(lia)) as Hrange.
  rewrite totalPages_integers by assumption.
  change (currentPage _) with (num p).
  rewrite getPaginationLinks_integers by lia. rewrite Hu. cbn [bind].
  set (n := ceilDiv c l) in *. clearbody n.
  assert (Hnext : (p <? n) = (p * l <? c)).
  { destruct (Z.ltb_spec p n) as [Hlt|Hge]; symmetry.
    - apply Z.ltb_lt.
      assert (0 <= (n - 1 - p) * l) by (apply Z.mul_nonneg_nonneg; lia). lia.
    - apply Z.ltb_ge.
      assert (0 <= (p - n) * l) by (apply Z.mul_nonneg_nonneg; lia). lia. }
  assert (Hprev : (1 <? n) = (l <? c)).
  { destruct (Z.ltb_spec 1 n) as [Hlt|Hge]; symmetry.
    - apply Z.ltb_lt.
      assert (0 <= (n - 2) * l) by (apply Z.mul_nonneg_nonneg; lia). lia.
    - apply Z.ltb_ge. replace n with 1 in * by lia. lia. }
  now rewrite Hnext, Hprev.
Qed.

(** X8: the links of [getPaginationLinks] carry the query of the request
    with only the page changed: in the query that is rendered into the link,
    [page] is the neighbouring page and every other parameter has the value
    and the position it has in the request; [page] is added at the end when
    the request has none. *)
Theorem links_keep_query (n p : Z) (u : URL) :
  1 < p < n -> n < 2 ^ 53 ->
  URL_new (default "/" (url req)) (requestBase isProd req) = Ok u ->
  exists (links : PaginationLinks) (qnext qprev : list (string * QueryValue)),
    getPaginationLinks isProd URL_new QS_stringify req (num n) (num p) = Ok links /\
    nextPage links = Some (origin u +:+ pathname u +:+ "?" +:+ QS_stringify qnext) /\
    prevPage links = Some (origin u +:+ pathname u +:+ "?" +:+ QS_stringify qprev) /\
    replacesPage (query req) qnext (num (p + 1)) /\
    replacesPage (query req) qprev (num (p - 1)).
Proof.
  intros Hp Hn Hu.
  eexists _, _, _. split.
  - rewrite getPaginationLinks_integers by lia. rewrite Hu. cbn [bind].
    replace (p <? n) with true by (symmetry; apply Z.ltb_lt; lia).
    replace (1 <? n) with true by (symmetry; apply Z.ltb_lt; lia).
    replace (1 <? p) with true by (symmetry; apply Z.ltb_lt; lia).
    cbn [andb]. reflexivity.
  - cbn [nextPage prevPage]. unfold linkTo.
    split; [reflexivity|]. split; [reflexivity|].
    split; apply replacesPage_setProperty.
Qed.

End PaginationLinks.

Lemma getPaginationLinks_by_position_witness :
  getPaginationLinks false (fun _ _ => Ok exampleUrl) renderKeys exampleRequest
    (num 5) (num 2)
  = Ok {| nextPage := Some (linkTo renderKeys exampleRequest exampleUrl (num 3));
          prevPage := Some (linkTo renderKeys exampleRequest exampleUrl (num 1));
          baseUrl := exampleUrl |}.
Proof.
  apply (proj1 (getPaginationLinks_by_position false (fun _ _ => Ok exampleUrl)
                  renderKeys exampleRequest 5 2 ltac:(lia) ltac:(lia))
           exampleUrl).
  reflexivity.
Defined.

Lemma links_follow_items_witness :
  getPaginationLinks false (fun _ _ => Ok exampleUrl) renderKeys exampleRequest
    (totalPages (getPagingData {| count := Some (num 95); items := @nil unit |}
                   (Some (num 20)) (Some (num 5))))
    (currentPage (getPagingData {| count := Some (num 95); items := @nil unit |}
                    (Some (num 20)) (Some (num 5))))
  = Ok {| nextPage := None;
          prevPage := Some (linkTo renderKeys exampleRequest exampleUrl (num 4));
          baseUrl := exampleUrl |}.
Proof.
  apply (links_follow_items false (fun _ _ => Ok exampleUrl) renderKeys exampleRequest
           (@nil unit) 95 20 5 exampleUrl); try lia.
  reflexivity.
Defined.

Lemma links_keep_query_witness :
  exists (links : PaginationLinks) (qnext qprev : list (string * QueryValue)),
    getPaginationLinks false (fun _ _ => Ok exampleUrl) renderKeys exampleRequest
      (num 5) (num 2) = Ok links /\
    nextPage links
    = Some (origin exampleUrl +:+ pathname exampleUrl +:+ "?" +:+ renderKeys qnext) /\
    prevPage links
    = Some (origin exampleUrl +:+ pathname exampleUrl +:+ "?" +:+ renderKeys qprev) /\
    replacesPage (query exampleRequest) qnext (num (2 + 1)) /\
    replacesPage (query exampleRequest) qprev (num (2 - 1)).
Proof.
  apply (links_keep_query false (fun _ _ => Ok exampleUrl) renderKeys exampleRequest
           5 2 exampleUrl); try lia.
  reflexivity.
Defined.

(** *** [parseSortString] on clauses of tokens *)

Section SortStrings.

Lemma allChars_app (P : ascii -> Prop) (s t : string) :
  allChars P (s +:+ t) <-> allChars P s /\ allChars P t.
Proof.
  induction s as [|c s IH].
  - change (EmptyString +:+ t) with t. cbn. tauto.
  - change (String c s +:+ t) with (String c (s +:+ t)). cbn [allChars].
    rewrite IH. tauto.
Qed.

Lemma allChars_join (P : ascii -> Prop) (sep : string) (l : list string) :
  allChars P sep -> Forall (allChars P) l -> allChars P (join sep l).
Proof.
  intros Hsep. induction l as [|s l IH]; intros Hl; [exact I|].
  apply Forall_cons in Hl as [Hs Hl].
  destruct l as [|s' l]; [exact Hs|].
  change (join sep (s :: s' :: l)) with (s +:+ sep +:+ join sep (s' :: l)).
  rewrite !allChars_app. auto.
Qed.

Lemma split_allChars (P : ascii -> Prop) (sep : ascii) (s : string) :
  allChars P s -> Forall (allChars P) (split sep s).
Proof.
  induction s as [|c s IH]; intros H.
  - repeat constructor.
  - destruct H as [Hc Hs]. specialize (IH Hs). cbn [split].
    destruct (Ascii.eqb c sep).
    + constructor; [exact I|exact IH].
    + destruct (split sep s) as [|seg segs]; [repeat constructor; assumption|].
      apply Forall_cons in IH as [Hseg Hsegs].
      constructor; [split; assumption|assumption].
Qed.

(** No piece of a split holds the separator. *)
Lemma split_parts_avoid (sep : ascii) (s : string) :
  Forall (avoids sep) (split sep s).
Proof.
  induction s as [|c s IH]; [repeat constructor|].
  cbn [split]. destruct (Ascii.eqb_spec c sep) as [->|Hne].
  - constructor; [exact I|exact IH].
  - destruct (split sep s) as [|seg segs]; [repeat constructor; assumption|].
    apply Forall_cons in IH as [Hseg Hsegs].
    constructor; [split; assumption|assumption].
Qed.

Lemma trimStart_allChars (P : ascii -> Prop) (s : string) :
  allChars P s -> allChars P (trimStart s).
Proof.
  induction s as [|c s IH]; [trivial|]. intros [Hc Hs]. cbn [trimStart].
  destruct (isWhiteSpace c); [auto|split; assumption].
Qed.

Lemma trimEnd_allChars (P : ascii -> Prop) (s : string) :
  allChars P s -> allChars P (trimEnd s).
Proof.
  induction s as [|c s IH]; [trivial|]. intros [Hc Hs]. cbn [trimEnd].
  destruct (isWhiteSpace c && isEmpty (trimEnd s)); [exact I|split; auto].
Qed.

Lemma trim_allChars (P : ascii -> Prop) (s : string) :
  allChars P s -> allChars P (trim s).
Proof. intros H. now apply trimEnd_allChars, trimStart_allChars. Qed.

Lemma trimEnd_no_space (s : string) :
  allChars (fun c => isWhiteSpace c = false) s -> trimEnd s = s.
Proof.
  induction s as [|c s IH]; [reflexivity|]. intros [Hc Hs].
  cbn. now rewrite Hc, (IH Hs).
Qed.

(** [trimEnd] leaves alone what comes before a part that is not all
    white space. *)
Lemma trimEnd_app (a b : string) :
  trimEnd b <> EmptyString -> trimEnd (a +:+ b) = a +:+ trimEnd b.
Proof.
  intros Hb. induction a as [|c a IH].
  - reflexivity.
  - change (String c a +:+ b) with (String c (a +:+ b)).
    change (String c a +:+ trimEnd b) with (String c (a +:+ trimEnd b)).
    cbn [trimEnd]. rewrite IH. destruct (a +:+ trimEnd b) eqn:Hab.
    + destruct a; [|discriminate].
      change (EmptyString +:+ trimEnd b) with (trimEnd b) in Hab. congruence.
    + cbn [isEmpty]. now rewrite andb_false_r.
Qed.

Lemma isToken_no_space (t : string) :
  isToken t -> allChars (fun c => isWhiteSpace c = false) t.
Proof. intros [_ H]. eapply allChars_impl; [|exact H]. now intros c [Hc _]. Qed.

Lemma isToken_avoids_space (t : string) : isToken t -> avoids " " t.
Proof.
  intros [_ H]. eapply allChars_impl; [|exact H]. intros c [Hc _] ->. discriminate.
Qed.

Lemma isToken_avoids_comma (t : string) : isToken t -> avoids "," t.
Proof. intros [_ H]. eapply allChars_impl; [|exact H]. now intros c [_ Hc]. Qed.

(** A clause made of tokens has no white space at either end. *)
Lemma trim_tokens (tokens : list string) :
  Forall isToken tokens -> trim (join " " tokens) = join " " tokens.
Proof.
  intros Hall. unfold trim.
  assert (Hstart : trimStart (join " " tokens) = join " " tokens).
  { destruct tokens as [|t tokens]; [reflexivity|].
    apply Forall_cons in Hall as [[Hne Ht] _].
    destruct t as [|c t]; [congruence|]. destruct Ht as [[Hc _] _].
    destruct tokens as [|t' tokens].
    - cbn [join trimStart]. now rewrite Hc.
    - change (join " " (String c t :: t' :: tokens))
        with (String c (t +:+ " " +:+ join " " (t' :: tokens))).
      cbn [trimStart]. now rewrite Hc. }
  rewrite Hstart. clear Hstart.
  assert (Hend : trimEnd (join " " tokens) = join " " tokens /\
                 (tokens <> [] -> join " " tokens <> EmptyString)).
  { induction tokens as [|t tokens IH]; [split; [reflexivity|congruence]|].
    apply Forall_cons in Hall as [Ht Hall]. destruct (IH Hall) as [IH1 IH2].
    destruct tokens as [|t' tokens].
    - split; [now apply trimEnd_no_space, isToken_no_space|].
      intros _. exact (proj1 Ht).
    - change (join " " (t :: t' :: tokens))
        with (t +:+ " " +:+ join " " (t' :: tokens)).
      split.
      + rewrite trimEnd_app.
        * rewrite trimEnd_app by (rewrite IH1; now apply IH2). now rewrite IH1.
        * rewrite trimEnd_app by (rewrite IH1; now apply IH2). discriminate.
      + intros _. destruct Ht as [Hne _]. destruct t; [congruence|discriminate]. }
  exact (proj1 Hend).
Qed.

Lemma filter_tokens (tokens : list string) :
  Forall isToken tokens ->
  List.filter (fun t => negb (isEmpty t)) tokens = tokens.
Proof.
  induction 1 as [|t tokens [Hne _] _ IH]; [reflexivity|].
  cbn [List.filter]. destruct t; [congruence|]. cbn. now rewrite IH.
Qed.

Lemma clause_tokens (tokens : list string) :
  Forall isToken tokens ->
  List.filter (fun t => negb (isEmpty t)) (split " " (trim (join " " tokens)))
  = tokens.
Proof.
  intros Hall. rewrite trim_tokens by exact Hall.
  destruct tokens as [|t tokens]; [reflexivity|].
  rewrite (split_join " " (t :: tokens)).
  - now apply filter_tokens.
  - discriminate.
  - eapply Forall_impl; [exact Hall|]. apply isToken_avoids_space.
Qed.

Lemma parseSortString_clauses (clauses : list (list string)) :
  clauses <> [] -> Forall (Forall isToken) clauses ->
  parseSortString (join "," (map (join " ") clauses)) = map clauseOf clauses.
Proof.
  intros Hne Hall. unfold parseSortString.
  rewrite (split_join "," (map (join " ") clauses)).
  - rewrite map_map. apply map_ext_in. intros tokens Hin.
    rewrite clause_tokens; [reflexivity|].
    rewrite Forall_forall in Hall. apply Hall. now apply list_elem_of_In.
  - destruct clauses; [congruence|discriminate].
  - apply Forall_forall. intros s Hs.
    apply list_elem_of_fmap in Hs as (tokens & -> & Hin).
    apply allChars_join.
    + split; [discriminate|exact I].
    + rewrite Forall_forall in Hall. specialize (Hall tokens Hin).
      eapply Forall_impl; [exact Hall|]. apply isToken_avoids_comma.
Qed.

Lemma toUpperChar_idem (c : ascii) : toUpperChar (toUpperChar c) = toUpperChar c.
Proof. destruct c as [[] [] [] [] [] [] [] []]; reflexivity. Qed.

Lemma toUpperChar_separator (c : ascii) :
  c <> " "%char -> c <> ","%char ->
  toUpperChar c <> " "%char /\ toUpperChar c <> ","%char.
Proof.
  destruct c as [[] [] [] [] [] [] [] []]; intros H1 H2; split;
    try discriminate; congruence.
Qed.

Lemma toUpperCase_idem (s : string) : toUpperCase (toUpperCase s) = toUpperCase s.
Proof.
  induction s as [|c s IH]; [reflexivity|].
  cbn [toUpperCase]. now rewrite toUpperChar_idem, IH.
Qed.

Lemma toUpperCase_separators (s : string) :
  avoids " " s -> avoids "," s ->
  avoids " " (toUpperCase s) /\ avoids "," (toUpperCase s).
Proof.
  induction s as [|c s IH]; [now split|].
  intros [Hc1 Hs1] [Hc2 Hs2]. destruct (IH Hs1 Hs2) as [IH1 IH2].
  destruct (toUpperChar_separator c Hc1 Hc2). now repeat split.
Qed.

Lemma toUpperCase_nonempty (s : string) :
  s <> EmptyString -> toUpperCase s <> EmptyString.
Proof. destruct s; [congruence|discriminate]. Qed.

(** The tokens of a clause: none is empty, none holds a space or a comma. *)
Lemma clause_tokens_clean (sortString part token : string) :
  part ∈ split "," sortString ->
  token ∈ List.filter (fun t => negb (isEmpty t)) (split " " (trim part)) ->
  token <> EmptyString /\ avoids " " token /\ avoids "," token.
Proof.
  intros Hpart Htoken.
  apply list_elem_of_In, filter_In in Htoken as [Hin Hne].
  apply list_elem_of_In in Hin.
  split; [|split].
  - destruct token; [discriminate|discriminate].
  - pose proof (split_parts_avoid " " (trim part)) as H.
    rewrite Forall_forall in H. now apply H.
  - pose proof (split_parts_avoid "," sortString) as H.
    rewrite Forall_forall in H. specialize (H part Hpart).
    pose proof (split_allChars _ " " _ (trim_allChars _ _ H)) as H'.
    rewrite Forall_forall in H'. now apply H'.
Qed.

End SortStrings.

(** X9: a sort string written as clauses of tokens (tokens separated by
    one space, clauses by a comma) parses to one sort field per clause, with
    the first token as the field and the second, upper-cased, as the order;
    a clause of one token is ascending, a clause without tokens has no field,
    and tokens after the second are ignored. *)
Theorem parseSortString_tokens (clauses : list (list string)) :
  clauses <> [] -> Forall (Forall isToken) clauses ->
  parseSortString (join "," (map (join " ") clauses)) = map clauseOf clauses /\
  (forall (i : nat) (name direction : string) (more : list string),
      clauses !! i = Some (name :: direction :: more) ->
      parseSortString (join "," (map (join " ") clauses)) !! i
      = Some {| field := Some name; order := toUpperCase direction |}) /\
  (forall (i : nat) (name : string),
      clauses !! i = Some [name] ->
      parseSortString (join "," (map (join " ") clauses)) !! i
      = Some {| field := Some name; order := "ASC" |}) /\
  (forall i : nat,
      clauses !! i = Some [] ->
      parseSortString (join "," (map (join " ") clauses)) !! i
      = Some {| field := None; order := "ASC" |}).
Proof.
  intros Hne Hall. rewrite (parseSortString_clauses clauses Hne Hall).
  split; [reflexivity|].
  change (map clauseOf clauses) with (clauseOf <$> clauses).
  split; [|split].
  - intros i name direction more Hi. now rewrite list_lookup_fmap, Hi.
  - intros i name Hi. now rewrite list_lookup_fmap, Hi.
  - intros i Hi. now rewrite list_lookup_fmap, Hi.
Qed.

Lemma parseSortString_tokens_witness :
  parseSortString
    (join "," (map (join " ") [["createdAt"; "desc"; "nulls"]; ["id"]]))
  = [ {| field := Some "createdAt"; order := "DESC" |};
      {| field := Some "id"; order := "ASC" |} ].
Proof.
  apply (proj1 (parseSortString_tokens [["createdAt"; "desc"; "nulls"]; ["id"]]
                  ltac:(discriminate)
                  ltac:(repeat first [constructor | discriminate]))).
Defined.

(** X10: whatever the sort string, every parsed sort field is clean: a
    field name is never empty and holds neither a space nor a comma, and the
    order is a non-empty upper-case word without space or comma. *)
Theorem parseSortString_fields_clean (sortString : string) (f : SortField) :
  f ∈ parseSortString sortString ->
  (forall name : string,
      field f = Some name ->
      name <> EmptyString /\ avoids " " name /\ avoids "," name) /\
  order f <> EmptyString /\ avoids " " (order f) /\ avoids "," (order f) /\
  toUpperCase (order f) = order f.
Proof.
  unfold parseSortString. intros Hf.
  apply list_elem_of_fmap in Hf as (part & -> & Hpart).
  cbn [field order].
  set (tokens := List.filter _ _).
  assert (Hclean : forall token, token ∈ tokens ->
            token <> EmptyString /\ avoids " " token /\ avoids "," token).
  { intros token. apply (clause_tokens_clean sortString part token Hpart). }
  split.
  - intros name Hname. apply Hclean. now apply list_elem_of_lookup_2 in Hname.
  - assert (Hord : default "ASC" (tokens !! 1%nat) <> EmptyString /\
                   avoids " " (default "ASC" (tokens !! 1%nat)) /\
                   avoids "," (default "ASC" (tokens !! 1%nat))).
    { destruct (tokens !! 1%nat) as [t|] eqn:Ht; cbn [default from_option id].
      - apply Hclean. now apply list_elem_of_lookup_2 in Ht.
      - repeat split; discriminate. }
    destruct Hord as (H1 & H2 & H3).
    destruct (toUpperCase_separators _ H2 H3).
    repeat split; auto using toUpperCase_nonempty, toUpperCase_idem.
Qed.

Lemma parseSortString_fields_clean_witness :
  order {| field := Some "score"; order := "DESC" |} <> EmptyString /\
  toUpperCase (order {| field := Some "score"; order := "DESC" |}) = "DESC".
Proof.
  destruct (parseSortString_fields_clean "  score   desc ,id"
              {| field := Some "score"; order := "DESC" |})
    as (_ & Hne & _ & _ & Hup).
  - change (parseSortString "  score   desc ,id")
      with [ {| field := Some "score"; order := "DESC" |};
             {| field := Some "id"; order := "ASC" |} ].
    apply list_elem_of_here.
  - split; [exact Hne|exact Hup].
Defined.

(** *** [parseCursor] and [getCursor] *)

Section CursorQueries.

Lemma assignAll_dom (entries : list (string * Value)) (o : gmap string Value)
    (k : string) :
  is_Some (assignAll entries o !! k) <-> is_Some (o !! k) \/ k ∈ entries.*1.
Proof.
  revert o. induction entries as [|[k' v] entries IH]; intros o.
  - cbn. rewrite elem_of_nil. tauto.
  - rewrite assignAll_cons, IH. cbn [fmap list_fmap fst].
    rewrite elem_of_cons.
    destruct (decide (k = k')) as [->|Hne].
    + rewrite lookup_insert_eq.
      split; [intros _; right; now left|intros _; left; eauto].
    + rewrite lookup_insert_ne by congruence. tauto.
Qed.

Lemma cursorEntries_keys (fields : list SortField) (values : list number) :
  (cursorEntries fields values).*1 = map key fields.
Proof.
  unfold cursorEntries. apply list_eq. intros i.
  change (map key fields) with (key <$> fields).
  rewrite !list_lookup_fmap, list_lookup_imap.
  now destruct (fields !! i).
Qed.

(** The text of the keyset predicate does not depend on the cursor
    values. *)
Lemma treeText_keysetTree (fields : list SortField)
    (cursors cursors' : gmap string Value) :
  treeText (keysetTree fields cursors) = treeText (keysetTree fields cursors').
Proof.
  unfold treeText.
  assert (Hmap : map clauseText (keysetTree fields cursors)
                 = map clauseText (keysetTree fields cursors')); [|now rewrite Hmap].
  unfold keysetTree.
  apply list_eq. intros i. change (map clauseText ?l) with (clauseText <$> l).
  rewrite !list_lookup_fmap, !list_lookup_imap.
  destruct (fields !! i) as [f|]; [|reflexivity]. cbn [fmap option_fmap option_map].
  f_equal. unfold clauseText.
  rewrite !map_app, !map_map. reflexivity.
Qed.

(** The keyset predicate of n fields binds 1 + 2 + ... + n values. *)
Lemma length_treeValues_keysetTree (fields : list SortField)
    (cursors : gmap string Value) :
  (2 * length (treeValues (keysetTree fields cursors))
   = length fields * (length fields + 1))%nat.
Proof.
  unfold treeValues.
  assert (Hgen : forall (pre rest : list SortField),
             (2 * length (concat (map (map cmp_value)
                (imap (fun i f =>
                         map (equalTo cursors) (firstn (length pre + i) (pre ++ rest))
                         ++ [strictlyAfter cursors f]) rest)))
              = length rest * (2 * length pre + length rest + 1))%nat).
  { intros pre rest. revert pre. induction rest as [|f rest IH]; intros pre.
    - cbn. lia.
    - cbn [imap map concat]. rewrite length_app, !length_map, length_app, length_map.
      rewrite length_firstn, length_app. cbn [length].
      specialize (IH (pre ++ [f])).
      rewrite length_app in IH. cbn [length] in IH.
      erewrite imap_ext in IH.
      2:{ intros i x _. cbn beta. rewrite <- app_assoc. cbn [app].
          replace (length pre + 1 + i)%nat with (length pre + S i)%nat by lia.
          reflexivity. }
      unfold compose. lia. }
  specialize (Hgen [] fields). cbn [length app Nat.add] in Hgen.
  unfold keysetTree. rewrite Hgen. lia.
Qed.

End CursorQueries.

(** X11: in a sort string of one clause, the direction decides the
    comparison of the predicate: the field is compared with [<] when the
    direction token is [DESC] in any letter case and with [>] for every other
    token, ascending or not; the sort-key expression is the field. *)
Theorem getCursor_direction (name direction : string) (n : number) :
  isToken name -> isToken direction -> truthy n = true ->
  exists w,
    getCursor (name +:+ " " +:+ direction) (Some (CNumber n))
    = Ok {| where_ := Some w; prop := Some name |} /\
    Prisma.text w
    = "((" +:+ name
      +:+ (if String.eqb (toUpperCase direction) "DESC" then " < ?))" else " > ?))") /\
    Prisma.values w = [VNumber n].
Proof.
  intros Hname Hd Hn.
  assert (Hparse : parseSortString (name +:+ " " +:+ direction)
                   = [ {| field := Some name; order := toUpperCase direction |} ]).
  { apply (parseSortString_clauses [[name; direction]]); [discriminate|].
    repeat first [assumption | constructor]. }
  assert (Hcursor :
            parseCursor (parseSortString (name +:+ " " +:+ direction)) (CNumber n)
            = Ok {[ name := VNumber n ]}) by now rewrite Hparse.
  pose proof (getCursor_truthy _ (CNumber n) _ Hn Hcursor) as Hget.
  rewrite Hparse in Hget. cbn [sortKeyExpression field] in Hget.
  eexists. split; [exact Hget|]. split.
  - rewrite text_treeSql.
    unfold keysetTree, treeText, clauseText, comparisonText, strictlyAfter,
      strictOperator.
    cbn [imap firstn map app join cmp_field cmp_op cmp_value field order toString].
    destruct (String.eqb (toUpperCase direction) "DESC"); cbn [operatorText];
      rewrite ?append_assoc, ?append_cons, ?append_nil_l; reflexivity.
  - rewrite values_treeSql.
    unfold keysetTree, treeValues, strictlyAfter, get.
    cbn [imap firstn map app concat cmp_value field toString].
    now rewrite lookup_singleton_eq.
Qed.

Lemma getCursor_direction_witness :
  exists w,
    getCursor ("score" +:+ " " +:+ "descending") (Some (CNumber (num 7)))
    = Ok {| where_ := Some w; prop := Some "score" |} /\
    Prisma.text w = "((score > ?))" /\
    Prisma.values w = [VNumber (num 7)].
Proof.
  apply (getCursor_direction "score" "descending" (num 7)).
  - split; [discriminate|]. cbn. repeat split; discriminate.
  - split; [discriminate|]. cbn. repeat split; discriminate.
  - reflexivity.
Defined.

(** X12: decoding a string cursor gives an entry, a number or
    [undefined], to the name of every sort field and to nothing else,
    whatever the cursor is. *)
Theorem parseCursor_domain (fields : list SortField) (s : string) :
  exists cursors,
    parseCursor fields (CString s) = Ok cursors /\
    (forall k : string,
        is_Some (cursors !! k) <-> exists f, f ∈ fields /\ key f = k) /\
    (forall (k : string) (v : Value),
        cursors !! k = Some v ->
        v = VUndefined \/ exists x : number, v = VNumber x).
Proof.
  eexists. split; [apply parseCursor_string|]. split.
  - intros k.
    rewrite assignAll_dom, cursorEntries_keys, lookup_empty.
    change (map key fields) with (key <$> fields). rewrite list_elem_of_fmap.
    split.
    + intros [[x Hx]|(f & -> & Hf)]; [discriminate|eauto].
    + intros (f & Hf & <-). right. eauto.
  - intros k v Hv.
    assert (Hgen : forall entries (o : gmap string Value),
               (forall k' v', o !! k' = Some v' ->
                              v' = VUndefined \/ exists x : number, v' = VNumber x) ->
               Forall (fun kv => snd kv = VUndefined \/ exists x : number, snd kv = VNumber x)
                      entries ->
               assignAll entries o !! k = Some v ->
               v = VUndefined \/ exists x : number, v = VNumber x).
    { clear. induction entries as [|[k1 v1] entries IH]; intros o Ho Hall Hlook.
      - now apply (Ho k).
      - apply Forall_cons in Hall as [H1 Hall]. rewrite assignAll_cons in Hlook.
        apply (IH (<[ k1 := v1 ]> o)); [|exact Hall|exact Hlook].
        intros k' v'. destruct (decide (k' = k1)) as [->|Hne].
        + rewrite lookup_insert_eq. intros [= <-]. exact H1.
        + rewrite lookup_insert_ne by congruence. apply Ho. }
    apply (Hgen (cursorEntries fields (map Number (split ":" s))) ∅);
      [intros k' v'; now rewrite lookup_empty| |exact Hv].
    apply Forall_forall. intros [k1 v1] Hin. cbn [snd].
    unfold cursorEntries in Hin. apply list_elem_of_lookup_1 in Hin as [i Hi].
    rewrite list_lookup_imap in Hi.
    destruct (fields !! i) as [f|]; [|discriminate]. injection Hi as _ <-.
    unfold segmentValue. destruct (_ !! i); eauto.
Qed.

(** X13: the cursor reaches the query as bound values only.  For a given
    sort string, the SQL text of the predicate and the sort-key expression
    are the same for every cursor, and the predicate binds 1 + 2 + ... + n
    values, n being the number of clauses of the sort string. *)
Theorem getCursor_text_ignores_cursor (sortString : string) (cursor cursor' : Cursor) :
  truthyCursor cursor = true -> truthyCursor cursor' = true ->
  exists (w w' : Prisma.Sql) (prop : option string),
    getCursor sortString (Some cursor) = Ok {| where_ := Some w; prop := prop |} /\
    getCursor sortString (Some cursor') = Ok {| where_ := Some w'; prop := prop |} /\
    Prisma.text w = Prisma.text w' /\
    (2 * length (Prisma.values w)
     = length (split "," sortString) * (length (split "," sortString) + 1))%nat /\
    length (Prisma.values w') = length (Prisma.values w).
Proof.
  intros Ht Ht'.
  destruct (parseCursor_total (parseSortString sortString) cursor
              (parseSortString_nonempty sortString)) as [cursors Hc].
  destruct (parseCursor_total (parseSortString sortString) cursor'
              (parseSortString_nonempty sortString)) as [cursors' Hc'].
  eexists _, _, _.
  split; [exact (getCursor_truthy _ _ _ Ht Hc)|].
  split; [exact (getCursor_truthy _ _ _ Ht' Hc')|].
  rewrite !text_treeSql, !values_treeSql.
  split; [apply treeText_keysetTree|].
  pose proof (length_treeValues_keysetTree (parseSortString sortString) cursors) as H.
  pose proof (length_treeValues_keysetTree (parseSortString sortString) cursors') as H'.
  rewrite parseSortString_length in H, H'. split; [exact H|lia].
Qed.

Lemma getCursor_text_ignores_cursor_witness :
  exists (w w' : Prisma.Sql) (prop : option string),
    getCursor "a ASC, b DESC" (Some (CString "5:10"))
    = Ok {| where_ := Some w; prop := prop |} /\
    getCursor "a ASC, b DESC" (Some (CString "1; DROP TABLE x"))
    = Ok {| where_ := Some w'; prop := prop |} /\
    Prisma.text w = Prisma.text w' /\
    (2 * length (Prisma.values w)
     = length (split "," "a ASC, b DESC") * (length (split "," "a ASC, b DESC") + 1))%nat /\
    length (Prisma.values w') = length (Prisma.values w).
Proof.
  apply (getCursor_text_ignores_cursor "a ASC, b DESC"
           (CString "5:10") (CString "1; DROP TABLE x")); reflexivity.
Defined.

(** X14: a numeric cursor with a sort on two fields still builds both
    disjuncts: the second field is compared with [undefined], the value the
    decoder leaves for it. *)
Theorem getCursor_numeric_cursor_two_fields (name name' : string) (n : number) :
  isToken name -> isToken name' -> name' <> name -> truthy n = true ->
  exists w,
    getCursor (name +:+ "," +:+ name') (Some (CNumber n))
    = Ok {| where_ := Some w;
            prop := Some ("CONCAT(" +:+ name +:+ ", ':', " +:+ name' +:+ ")") |} /\
    Prisma.text w
    = "((" +:+ name +:+ " > ?) OR (" +:+ name +:+ " = ? AND " +:+ name' +:+ " > ?))" /\
    Prisma.values w = [VNumber n; VNumber n; VUndefined].
Proof.
  intros Hname Hname' Hne Hn.
  assert (Hparse : parseSortString (name +:+ "," +:+ name')
                   = [ {| field := Some name; order := "ASC" |};
                       {| field := Some name'; order := "ASC" |} ]).
  { apply (parseSortString_clauses [[name]; [name']]); [discriminate|].
    repeat first [assumption | constructor]. }
  assert (Hcursor : parseCursor (parseSortString (name +:+ "," +:+ name')) (CNumber n)
                    = Ok {[ name := VNumber n ]}) by now rewrite Hparse.
  pose proof (getCursor_truthy _ (CNumber n) _ Hn Hcursor) as Hget.
  rewrite Hparse in Hget. cbn [sortKeyExpression field map joinText join] in Hget.
  rewrite !append_assoc in Hget.
  eexists. split; [exact Hget|]. split.
  - rewrite text_treeSql.
    unfold keysetTree, treeText, clauseText, comparisonText, strictlyAfter, equalTo,
      strictOperator.
    cbn [imap firstn map app join cmp_field cmp_op cmp_value field order toString
         String.eqb Ascii.eqb Bool.eqb operatorText compose].
    rewrite ?append_assoc, ?append_cons, ?append_nil_l. reflexivity.
  - rewrite values_treeSql.
    unfold keysetTree, treeValues, strictlyAfter, equalTo, get.
    cbn [imap firstn map app concat cmp_value field toString compose].
    rewrite lookup_singleton_eq, lookup_singleton_ne by congruence. reflexivity.
Qed.

Lemma getCursor_numeric_cursor_two_fields_witness :
  exists w,
    getCursor ("createdAt" +:+ "," +:+ "id") (Some (CNumber (num 42)))
    = Ok {| where_ := Some w;
            prop := Some ("CONCAT(" +:+ "createdAt" +:+ ", ':', " +:+ "id" +:+ ")") |} /\
    Prisma.text w
    = "((" +:+ "createdAt" +:+ " > ?) OR (" +:+ "createdAt" +:+ " = ? AND "
      +:+ "id" +:+ " > ?))" /\
    Prisma.values w = [VNumber (num 42); VNumber (num 42); VUndefined].
Proof.
  apply (getCursor_numeric_cursor_two_fields "createdAt" "id" (num 42)).
  - split; [discriminate|]. cbn. repeat split; discriminate.
  - split; [discriminate|]. cbn. repeat split; discriminate.
  - discriminate.
  - reflexivity.
Defined.

(** X15: read as a condition on rows of numbers, the predicate that
    [getCursor] builds for a cursor (a string, a number or a large integer)
    holds of a row exactly when the row comes strictly after the decoded
    cursor in the lexicographic order of the sort fields, each taken in its
    direction; in particular a row that equals the cursor on every sort field
    is not selected again.  A large integer of the cursor is compared as the
    number nearest to it: against a row value that is a positive integer
    below 2^53, that is the comparison of the two integers. *)
Theorem getCursor_selects_after_cursor (sortString : string) (cursor : Cursor) :
  truthyCursor cursor = true ->
  exists (cursors : gmap string Value) (tree : ConditionTree),
    parseCursor (parseSortString sortString) cursor = Ok cursors /\
    getCursor sortString (Some cursor)
    = Ok {| where_ := Some (treeSql tree);
            prop := sortKeyExpression (parseSortString sortString) |} /\
    Prisma.text (treeSql tree) = treeText tree /\
    Prisma.values (treeSql tree) = treeValues tree /\
    (forall row : string -> number,
        evalTree row tree = true
        <-> rowCompare row cursors (parseSortString sortString) = Some Gt) /\
    (forall row : string -> number,
        rowCompare row cursors (parseSortString sortString) = Some Eq ->
        evalTree row tree = false) /\
    (forall (row : string -> number) (f : SortField) (a z : Z),
        0 < a < 2 ^ 53 -> 0 < z -> row (key f) = num a ->
        get cursors (field f) = VBigInt z \/ get cursors (field f) = VNumber (num z) ->
        fieldCompare row cursors f
        = Some (if String.eqb (order f) "DESC" then CompOpp (a ?= z) else a ?= z)).
Proof.
  intros Ht.
  destruct (parseCursor_total (parseSortString sortString) cursor
              (parseSortString_nonempty sortString)) as [cursors Hc].
  exists cursors, (keysetTree (parseSortString sortString) cursors).
  split; [exact Hc|]. split; [exact (getCursor_truthy _ _ _ Ht Hc)|].
  split; [apply text_treeSql|]. split; [apply values_treeSql|].
  split; [|split].
  - intros row. apply keyset_selects_rows_after_cursor.
  - intros row Heq. apply not_true_is_false. intros Htrue.
    apply keyset_selects_rows_after_cursor in Htrue. congruence.
  - intros row f a z Ha Hz Hrow Hget. unfold fieldCompare.
    assert (Hcmp : comparand (get cursors (field f)) = Some (num z))
      by (destruct Hget as [-> | ->]; reflexivity).
    rewrite Hcmp. fold (key f). rewrite Hrow.
    now rewrite (compare_integer_nearest a z Ha Hz).
Qed.

Lemma getCursor_selects_after_cursor_witness :
  exists (cursors : gmap string Value) (tree : ConditionTree),
    parseCursor (parseSortString "id DESC, n") (CBigInt 7) = Ok cursors /\
    getCursor "id DESC, n" (Some (CBigInt 7))
    = Ok {| where_ := Some (treeSql tree);
            prop := sortKeyExpression (parseSortString "id DESC, n") |} /\
    Prisma.text (treeSql tree) = treeText tree /\
    Prisma.values (treeSql tree) = treeValues tree /\
    (forall row : string -> number,
        evalTree row tree = true
        <-> rowCompare row cursors (parseSortString "id DESC, n") = Some Gt) /\
    (forall row : string -> number,
        rowCompare row cursors (parseSortString "id DESC, n") = Some Eq ->
        evalTree row tree = false) /\
    (forall (row : string -> number) (f : SortField) (a z : Z),
        0 < a < 2 ^ 53 -> 0 < z -> row (key f) = num a ->
        get cursors (field f) = VBigInt z \/ get cursors (field f) = VNumber (num z) ->
        fieldCompare row cursors f
        = Some (if String.eqb (order f) "DESC" then CompOpp (a ?= z) else a ?= z)).
Proof.
  apply (getCursor_selects_after_cursor "id DESC, n" (CBigInt 7)).
  reflexivity.
Defined.

(** A large-integer cursor at work: with [id DESC, n] and the cursor [7n],
    the row of id 5 is selected, the rows of id 7 and of id 9 are not. *)
Example getCursor_large_integer_cursor :
  exists tree : ConditionTree,
    getCursor "id DESC, n" (Some (CBigInt 7))
    = Ok {| where_ := Some (treeSql tree); prop := Some "CONCAT(id, ':', n)" |} /\
    Prisma.text (treeSql tree) = "((id < ?) OR (id = ? AND n > ?))" /\
    Prisma.values (treeSql tree) = [VBigInt 7; VBigInt 7; VUndefined] /\
    evalTree (fun _ => num 5) tree = true /\
    evalTree (fun _ => num 7) tree = false /\
    evalTree (fun _ => num 9) tree = false.
Proof.
  exists (keysetTree (parseSortString "id DESC, n") {[ "id" := VBigInt 7 ]}).
  repeat split; vm_compute; reflexivity.
Qed.

(** *** string-helpers.ts: [getFileExtension] and [splitUppercase] *)

Section FileExtension.

Lemma lastIndexOf_avoids (c : ascii) (s : string) :
  avoids c s -> lastIndexOf c s = -1.
Proof.
  induction s as [|c' s IH]; [reflexivity|]. intros [Hc Hs].
  cbn [lastIndexOf]. rewrite (IH Hs). cbn.
  apply Ascii.eqb_neq in Hc. now rewrite Hc.
Qed.

(** The last occurrence is the one that nothing follows. *)
Lemma lastIndexOf_app (c : ascii) (s t : string) :
  avoids c t -> lastIndexOf c (s +:+ String c t) = stringLength s.
Proof.
  intros Ht. unfold stringLength. induction s as [|c' s IH].
  - change (EmptyString +:+ String c t) with (String c t).
    cbn [lastIndexOf]. rewrite (lastIndexOf_avoids c t Ht). cbn.
    now rewrite Ascii.eqb_refl.
  - change (String c' s +:+ String c t) with (String c' (s +:+ String c t)).
    cbn [lastIndexOf String.length]. rewrite IH, Nat2Z.inj_succ.
    destruct (Z.leb_spec 0 (Z.of_nat (String.length s))); lia.
Qed.

Lemma dropChars_app (s t : string) : dropChars (String.length s) (s +:+ t) = t.
Proof. induction s as [|c s IH]; [reflexivity|exact IH]. Qed.

Lemma dropChars_all (n : nat) (s : string) :
  (String.length s <= n)%nat -> dropChars n s = EmptyString.
Proof.
  revert s. induction n as [|n IH]; intros [|c s] H; cbn in *;
    try reflexivity; try lia.
  apply IH. lia.
Qed.

Lemma length_append (s t : string) :
  String.length (s +:+ t) = (String.length s + String.length t)%nat.
Proof. induction s as [|c s IH]; [reflexivity|]. cbn. now rewrite <- IH. Qed.

End FileExtension.

(** X16: [getFileExtension] returns what follows the last dot of a name:
    for a non-empty stem and an extension without a dot, the extension of
    [stem.ext] is [ext] (so [archive.tar.gz] gives [gz], and a trailing dot
    gives the empty extension), as long as the stem is shorter than 2^32. *)
Theorem getFileExtension_extension (stem ext : string) :
  stem <> EmptyString -> avoids "." ext ->
  stringLength stem < 2 ^ 32 ->
  getFileExtension (stem +:+ "." +:+ ext) = ext.
Proof.
  intros Hstem Hext Hlen. unfold getFileExtension.
  change (stem +:+ "." +:+ ext) with (stem +:+ String "." ext).
  rewrite lastIndexOf_app by exact Hext.
  assert (Hpos : 0 < stringLength stem).
  { unfold stringLength. destruct stem; [congruence|]. cbn [String.length]. lia. }
  unfold toUint32. rewrite Z.mod_small by lia.
  unfold slice.
  replace (stringLength stem - 1 + 2 <? 0) with false
    by (symmetry; apply Z.ltb_ge; lia).
  assert (Hl : stringLength (stem +:+ String "." ext)
               = stringLength stem + 1 + stringLength ext).
  { unfold stringLength. rewrite length_append. cbn [String.length]. lia. }
  rewrite Hl. rewrite Z.min_l by (unfold stringLength; lia).
  replace (Z.to_nat (stringLength stem - 1 + 2)) with (String.length (stem +:+ "."))
    by (rewrite length_append; unfold stringLength; cbn [String.length]; lia).
  replace (stem +:+ String "." ext) with ((stem +:+ ".") +:+ ext).
  - apply dropChars_app.
  - now rewrite append_assoc.
Qed.

Lemma getFileExtension_extension_witness :
  getFileExtension ("archive.tar" +:+ "." +:+ "gz") = "gz".
Proof.
  apply (getFileExtension_extension "archive.tar" "gz").
  - discriminate.
  - cbn. repeat split; discriminate.
  - reflexivity.
Defined.

(** X17: a name without a dot has no extension, and neither has a name
    whose only dot is its first code unit (a dot file such as [.gitignore]):
    [getFileExtension] returns the empty string for both, as long as the name
    is not longer than 2^32. *)
Theorem getFileExtension_none (name : string) :
  avoids "." name -> stringLength name <= 2 ^ 32 ->
  getFileExtension name = EmptyString /\
  getFileExtension ("." +:+ name) = EmptyString.
Proof.
  intros Hv Hlen. unfold getFileExtension. split.
  - rewrite lastIndexOf_avoids by exact Hv.
    change (toUint32 (-1 - 1) + 2) with (2 ^ 32). unfold slice.
    change (2 ^ 32 <? 0) with false. cbv beta iota.
    apply dropChars_all. unfold stringLength in *. lia.
  - change ("." +:+ name) with (EmptyString +:+ String "." name).
    rewrite lastIndexOf_app by exact Hv.
    change (toUint32 (stringLength EmptyString - 1) + 2) with (2 ^ 32 + 1).
    unfold slice. change (2 ^ 32 + 1 <? 0) with false. cbv beta iota.
    apply dropChars_all. unfold stringLength in *.
    change (EmptyString +:+ String "." name) with (String "." name).
    cbn [String.length]. lia.
Qed.

Lemma getFileExtension_none_witness :
  getFileExtension "gitignore" = EmptyString /\
  getFileExtension ("." +:+ "gitignore") = EmptyString.
Proof.
  apply (getFileExtension_none "gitignore").
  - cbn. repeat split; discriminate.
  - unfold stringLength. cbn. lia.
Defined.

Section SplitUppercase.

Lemma splitBeforeUpperCase_word (w : string) :
  allChars (fun c' => isUpperCase c' = false) w ->
  forall c, splitBeforeUpperCase (String c w) = [String c w].
Proof.
  induction w as [|c' w IH]; intros H c; [reflexivity|].
  destruct H as [Hc' Hw]. cbn [splitBeforeUpperCase]. rewrite Hc'.
  specialize (IH Hw c'). cbn [splitBeforeUpperCase] in IH. now rewrite IH.
Qed.

Lemma splitBeforeUpperCase_app (w rest : string) (c : ascii) :
  allChars (fun c' => isUpperCase c' = false) w ->
  startsUpperCase rest ->
  splitBeforeUpperCase (String c w +:+ rest) = String c w :: splitBeforeUpperCase rest.
Proof.
  revert c. induction w as [|c' w IH]; intros c H Hrest.
  - destruct rest as [|r rest]; [contradiction|]. cbn in Hrest.
    change (String c EmptyString +:+ String r rest) with (String c (String r rest)).
    cbn [splitBeforeUpperCase]. now rewrite Hrest.
  - destruct H as [Hc' Hw].
    change (String c (String c' w) +:+ rest) with (String c (String c' w +:+ rest)).
    specialize (IH c' Hw Hrest).
    change (String c' w +:+ rest) with (String c' (w +:+ rest)) in *.
    cbn [splitBeforeUpperCase]. rewrite Hc'.
    cbn [splitBeforeUpperCase] in IH. now rewrite IH.
Qed.

Lemma length_trimStart (s : string) :
  (String.length (trimStart s) <= String.length s)%nat.
Proof.
  induction s as [|c s IH]; [reflexivity|]. cbn [trimStart].
  destruct (isWhiteSpace c); cbn [String.length]; lia.
Qed.

Lemma length_trimEnd (s : string) :
  (String.length (trimEnd s) <= String.length s)%nat.
Proof.
  induction s as [|c s IH]; [reflexivity|]. cbn [trimEnd].
  destruct (isWhiteSpace c && isEmpty (trimEnd s)); cbn [String.length]; lia.
Qed.

(** A string that [trim] leaves alone starts with no white space and
    ends with none. *)
Lemma trim_fixed (c : ascii) (w : string) :
  trim (String c w) = String c w ->
  isWhiteSpace c = false /\ trimEnd (String c w) = String c w.
Proof.
  unfold trim. cbn [trimStart]. destruct (isWhiteSpace c) eqn:Hc.
  - intros H. exfalso.
    pose proof (length_trimEnd (trimStart w)) as H1.
    pose proof (length_trimStart w) as H2.
    rewrite H in H1. cbn [String.length] in H1. lia.
  - auto.
Qed.

Lemma isWord_inv (w : string) :
  isWord w ->
  exists c w', w = String c w' /\ isWhiteSpace c = false /\
               trimEnd w = w /\ allChars (fun c' => isUpperCase c' = false) w'.
Proof.
  destruct w as [|c w']; [contradiction|]. intros [Htrim Hup].
  destruct (trim_fixed c w' Htrim) as [Hc Hend]. eauto 10.
Qed.

Lemma concatStrings_words (words : list string) :
  Forall isWord words -> Forall startsUpperCase (tail words) ->
  words <> [] ->
  splitBeforeUpperCase (concatStrings words) = words /\
  trimEnd (concatStrings words) = concatStrings words /\
  concatStrings words <> EmptyString.
Proof.
  induction words as [|w words IH]; [congruence|]. intros Hw Hup _.
  apply Forall_cons in Hw as [Hw Hws].
  destruct (isWord_inv w Hw) as (c & w' & -> & Hc & Hend & Hlow).
  destruct words as [|w2 words].
  - cbn [concatStrings]. rewrite append_nil_r.
    split; [now apply splitBeforeUpperCase_word|]. split; [exact Hend|discriminate].
  - cbn [tail] in Hup. pose proof Hup as Hup'. apply Forall_cons in Hup' as [Hup2 Hups].
    destruct IH as (IH1 & IH2 & IH3); [assumption| |discriminate|].
    { cbn [tail]. destruct words; [constructor|].
      cbn [tail] in Hups. exact Hups. }
    cbn [concatStrings] in *. split; [|split].
    + rewrite splitBeforeUpperCase_app; [now rewrite IH1|exact Hlow|].
      destruct w2 as [|c2 w2]; [contradiction|exact Hup2].
    + rewrite trimEnd_app by (rewrite IH2; exact IH3). now rewrite IH2.
    + discriminate.
Qed.

End SplitUppercase.

(** X18: [splitUppercase] puts one space between the words of a
    camel-case name: for words without white space at their ends and without
    an upper-case letter after their first code unit, each but the first
    starting with an upper-case letter, the words written one after the other
    come back separated by single spaces. *)
Theorem splitUppercase_words (words : list string) :
  Forall isWord words -> Forall startsUpperCase (tail words) ->
  splitUppercase (concatStrings words) = join " " words.
Proof.
  intros Hw Hup. destruct words as [|w words]; [reflexivity|].
  destruct (concatStrings_words (w :: words) Hw Hup ltac:(discriminate))
    as (Hsplit & Hend & _).
  unfold splitUppercase.
  assert (Htrim : trim (concatStrings (w :: words)) = concatStrings (w :: words)).
  { unfold trim. apply Forall_cons in Hw as [Hw _].
    destruct (isWord_inv w Hw) as (c & w' & -> & Hc & _).
    assert (Hstart : trimStart (concatStrings (String c w' :: words))
                     = concatStrings (String c w' :: words)).
    { cbn [concatStrings].
      change (String c w' +:+ ?x) with (String c (w' +:+ x)).
      cbn [trimStart]. now rewrite Hc. }
    rewrite Hstart. exact Hend. }
  rewrite Htrim, Hsplit. f_equal.
  clear - Hw. induction Hw as [|w' ws Hw' _ IH]; [reflexivity|].
  cbn [map]. rewrite IH. f_equal.
  destruct w' as [|c w'']; [contradiction|]. exact (proj1 Hw').
Qed.

Lemma splitUppercase_words_witness :
  splitUppercase (concatStrings ["text"; "To"; "Image"]) = join " " ["text"; "To"; "Image"].
Proof.
  apply (splitUppercase_words ["text"; "To"; "Image"]).
  - repeat constructor.
  - repeat constructor.
Defined.

(** *** ImageDetailProvider.tsx: [previous] and [next] *)

Section Navigation.

Context {Image : Type} (id : Image -> number).
Implicit Types (images : list Image) (imageId : number).

Lemma findIndexFrom_range {A : Type} (p : A -> bool) (l : list A) (i : Z) :
  findIndexFrom p l i = -1 \/ i <= findIndexFrom p l i < i + Z.of_nat (length l).
Proof.
  revert i. induction l as [|x l IH]; intros i; [now left|].
  cbn [findIndexFrom length]. rewrite Nat2Z.inj_succ.
  destruct (p x); [right; lia|].
  destruct (IH (i + 1)) as [->|H]; [now left|right; lia].
Qed.

Lemma findIndexFrom_none {A : Type} (p : A -> bool) (l : list A) (i : Z) :
  Forall (fun x => p x = false) l -> findIndexFrom p l i = -1.
Proof.
  intros H. revert i. induction H as [|x l Hx _ IH]; intros i; [reflexivity|].
  cbn [findIndexFrom]. now rewrite Hx, IH.
Qed.

Lemma findIndexFrom_first {A : Type} (p : A -> bool) (l : list A) (i : Z)
    (k : nat) (x : A) :
  l !! k = Some x -> p x = true ->
  (forall j y, (j < k)%nat -> l !! j = Some y -> p y = false) ->
  findIndexFrom p l i = i + Z.of_nat k.
Proof.
  revert i k. induction l as [|a l IH]; intros i k Hk Hx Hbefore; [discriminate|].
  cbn [findIndexFrom]. destruct k as [|k].
  - injection Hk as ->. rewrite Hx. lia.
  - rewrite (Hbefore 0%nat a) by (reflexivity || lia).
    rewrite (IH (i + 1) k Hk Hx).
    + lia.
    + intros j y Hj Hy. apply (Hbefore (S j) y); [lia|exact Hy].
Qed.

Lemma imageIndex_range images imageId :
  -1 <= imageIndex id images imageId < arrayLength images.
Proof.
  unfold imageIndex, findIndex, arrayLength.
  destruct (findIndexFrom_range (fun x => strictEquals (id x) imageId) images 0)
    as [->|H]; lia.
Qed.

Lemma idAt_in_range images (i : Z) :
  0 <= i < arrayLength images ->
  exists x, images !! Z.to_nat i = Some x /\ idAt id images i = Ok (id x).
Proof.
  intros Hi. unfold idAt, elementAt, arrayLength in *.
  replace (i <? 0) with false by (symmetry; apply Z.ltb_ge; lia).
  destruct (images !! Z.to_nat i) as [x|] eqn:Hx; [eauto|].
  apply lookup_ge_None in Hx. lia.
Qed.

Lemma imageIndex_distinct images (i : nat) (x : Image) :
  distinctIds id images -> images !! i = Some x ->
  imageIndex id images (id x) = Z.of_nat i.
Proof.
  intros Hd Hx. unfold imageIndex, findIndex.
  rewrite (findIndexFrom_first _ images 0 i x Hx).
  - lia.
  - rewrite (Hd i i x x Hx Hx). now apply bool_decide_eq_true.
  - intros j y Hj Hy. rewrite (Hd j i y x Hy Hx). apply bool_decide_eq_false. lia.
Qed.

Lemma next_distinct images (i : nat) (x : Image) :
  distinctIds id images -> images !! i = Some x -> (2 <= length images)%nat ->
  exists y,
    images !! ((i + 1) mod length images)%nat = Some y /\
    next id images (id x) = Ok (Some (id y)).
Proof.
  intros Hd Hx Hlen. pose proof (lookup_lt_Some _ _ _ Hx) as Hi.
  unfold next, canNavigate. rewrite (imageIndex_distinct images i x Hd Hx).
  unfold arrayLength.
  replace (-1 <? Z.of_nat i) with true by (symmetry; apply Z.ltb_lt; lia).
  replace (1 <? Z.of_nat (length images)) with true by (symmetry; apply Z.ltb_lt; lia).
  destruct (Z.ltb_spec (Z.of_nat i + 1) (Z.of_nat (length images))) as [Hlt|Hge].
  - destruct (idAt_in_range images (Z.of_nat i + 1)) as (y & Hy & ->);
      [unfold arrayLength; lia|].
    exists y. split; [|reflexivity].
    rewrite Nat.mod_small by lia.
    now replace (i + 1)%nat with (Z.to_nat (Z.of_nat i + 1)) by lia.
  - destruct (idAt_in_range images 0) as (y & Hy & ->); [unfold arrayLength; lia|].
    exists y. split; [|reflexivity].
    replace (i + 1)%nat with (length images) by lia. now rewrite Nat.Div0.mod_same.
Qed.

Lemma previous_distinct images (i : nat) (y : Image) :
  distinctIds id images -> images !! i = Some y -> (2 <= length images)%nat ->
  exists x,
    images !! ((i + (length images - 1)) mod length images)%nat = Some x /\
    previous id images (id y) = Ok (Some (id x)).
Proof.
  intros Hd Hy Hlen. pose proof (lookup_lt_Some _ _ _ Hy) as Hi.
  unfold previous, canNavigate. rewrite (imageIndex_distinct images i y Hd Hy).
  unfold arrayLength.
  replace (-1 <? Z.of_nat i) with true by (symmetry; apply Z.ltb_lt; lia).
  replace (1 <? Z.of_nat (length images)) with true by (symmetry; apply Z.ltb_lt; lia).
  destruct (Z.ltb_spec (-1) (Z.of_nat i - 1)) as [Hlt|Hge].
  - destruct (idAt_in_range images (Z.of_nat i - 1)) as (x & Hx & ->);
      [unfold arrayLength; lia|].
    exists x. split; [|reflexivity].
    replace (i + (length images - 1))%nat with ((i - 1) + 1 * length images)%nat by lia.
    rewrite Nat.Div0.mod_add, Nat.mod_small by lia.
    now replace (i - 1)%nat with (Z.to_nat (Z.of_nat i - 1)) by lia.
  - destruct (idAt_in_range images (Z.of_nat (length images) - 1)) as (x & Hx & ->);
      [unfold arrayLength; lia|].
    exists x. split; [|reflexivity].
    replace i with 0%nat by lia. cbn [Nat.add]. rewrite Nat.mod_small by lia.
    now replace (length images - 1)%nat
      with (Z.to_nat (Z.of_nat (length images) - 1)) by lia.
Qed.

(** X19: [next] and [previous] never read an image that is not there:
    whatever the loaded images and the current id, both complete, and they
    navigate unless no image is loaded or the only loaded image is the
    current one. *)
Theorem navigation_never_throws images imageId :
  (exists r, next id images imageId = Ok r) /\
  (exists r, previous id images imageId = Ok r) /\
  (canNavigate id images imageId = false <->
   images = [] \/ exists x, images = [x] /\ strictEquals (id x) imageId = true) /\
  (canNavigate id images imageId = false ->
   next id images imageId = Ok None /\ previous id images imageId = Ok None) /\
  (canNavigate id images imageId = true ->
   exists x y,
     x ∈ images /\ y ∈ images /\
     next id images imageId = Ok (Some (id x)) /\
     previous id images imageId = Ok (Some (id y))).
Proof.
  pose proof (imageIndex_range images imageId) as Hr.
  assert (Hin : forall i, 0 <= i < arrayLength images ->
                  exists x, x ∈ images /\ idAt id images i = Ok (id x)).
  { intros i Hi. destruct (idAt_in_range images i Hi) as (x & Hx & Hid).
    exists x. split; [now apply list_elem_of_lookup_2 in Hx|exact Hid]. }
  assert (Hnav : canNavigate id images imageId = true ->
            exists x y,
              x ∈ images /\ y ∈ images /\
              next id images imageId = Ok (Some (id x)) /\
              previous id images imageId = Ok (Some (id y))).
  { intros Hcan. unfold next, previous. rewrite Hcan.
    unfold canNavigate in Hcan.
    set (index := imageIndex id images imageId) in *. clearbody index.
    assert (Hlen : 0 < arrayLength images).
    { destruct (-1 <? index); apply Z.ltb_lt in Hcan; lia. }
    assert (Hnext : exists x, x ∈ images /\
              (if index + 1 <? arrayLength images then idAt id images (index + 1)
               else idAt id images 0) = Ok (id x)).
    { destruct (Z.ltb_spec (index + 1) (arrayLength images)); apply Hin; lia. }
    assert (Hprev : exists y, y ∈ images /\
              (if -1 <? index - 1 then idAt id images (index - 1)
               else idAt id images (arrayLength images - 1)) = Ok (id y)).
    { destruct (Z.ltb_spec (-1) (index - 1)); apply Hin; lia. }
    destruct Hnext as (x & Hx & ->). destruct Hprev as (y & Hy & ->).
    exists x, y. repeat split; assumption. }
  assert (Hstay : canNavigate id images imageId = false ->
            next id images imageId = Ok None /\ previous id images imageId = Ok None).
  { intros Hcan. unfold next, previous. now rewrite Hcan. }
  split; [|split; [|split; [|split; [exact Hstay|exact Hnav]]]].
  - destruct (canNavigate id images imageId) eqn:Hcan.
    + destruct (Hnav eq_refl) as (x & y & _ & _ & -> & _). eauto.
    + destruct (Hstay eq_refl) as [-> _]. eauto.
  - destruct (canNavigate id images imageId) eqn:Hcan.
    + destruct (Hnav eq_refl) as (x & y & _ & _ & _ & ->). eauto.
    + destruct (Hstay eq_refl) as [_ ->]. eauto.
  - clear Hnav Hstay Hin Hr. unfold canNavigate, imageIndex, findIndex, arrayLength.
    destruct images as [|x [|x' more]].
    + cbn. split; [now left|reflexivity].
    + cbn [findIndexFrom length]. destruct (strictEquals (id x) imageId) eqn:Hx.
      * cbn. split; [intros _; right; eauto|reflexivity].
      * cbn. split; [discriminate|].
        intros [|(y & [= <-] & Hy)]; congruence.
    + split.
      * intros H. exfalso.
        destruct (-1 <? _); apply Z.ltb_ge in H; cbn [length] in H; lia.
      * intros [|(y & ? & _)]; discriminate.
Qed.

(** X20: when the loaded images have distinct ids and the current image
    is one of at least two, [next] and [previous] walk the images as a cycle:
    [next] shows the image after the current one, the first after the last,
    [previous] the image before it, the last before the first, and each
    undoes the other. *)
Theorem next_then_previous images (i : nat) (x : Image) :
  distinctIds id images -> images !! i = Some x -> (2 <= length images)%nat ->
  exists y z,
    images !! ((i + 1) mod length images)%nat = Some y /\
    next id images (id x) = Ok (Some (id y)) /\
    previous id images (id y) = Ok (Some (id x)) /\
    images !! ((i + (length images - 1)) mod length images)%nat = Some z /\
    previous id images (id x) = Ok (Some (id z)) /\
    next id images (id z) = Ok (Some (id x)).
Proof.
  intros Hd Hx Hlen. pose proof (lookup_lt_Some _ _ _ Hx) as Hi.
  destruct (next_distinct images i x Hd Hx Hlen) as (y & Hy & Hnext).
  destruct (previous_distinct images i x Hd Hx Hlen) as (z & Hz & Hprev).
  exists y, z. split; [exact Hy|]. split; [exact Hnext|]. split; [|split; [exact Hz|split]].
  - destruct (previous_distinct images _ y Hd Hy Hlen) as (x' & Hx' & Hback).
    rewrite Hback. do 2 f_equal.
    rewrite Nat.Div0.add_mod_idemp_l in Hx'.
    replace (i + 1 + (length images - 1))%nat with (i + 1 * length images)%nat in Hx'
      by lia.
    rewrite Nat.Div0.mod_add, Nat.mod_small in Hx' by lia. congruence.
  - exact Hprev.
  - destruct (next_distinct images _ z Hd Hz Hlen) as (x' & Hx' & Hback).
    rewrite Hback. do 2 f_equal.
    rewrite Nat.Div0.add_mod_idemp_l in Hx'.
    replace (i + (length images - 1) + 1)%nat with (i + 1 * length images)%nat in Hx'
      by lia.
    rewrite Nat.Div0.mod_add, Nat.mod_small in Hx' by lia. congruence.
Qed.

(** X21: when the current image is not among the loaded ones, [next]
    shows the first loaded image and [previous] the last, even when only one
    image is loaded. *)
Theorem navigation_from_outside images imageId (first last : Image) :
  Forall (fun x => strictEquals (id x) imageId = false) images ->
  head images = Some first -> list.last images = Some last ->
  next id images imageId = Ok (Some (id first)) /\
  previous id images imageId = Ok (Some (id last)).
Proof.
  intros Hout Hfirst Hlast.
  assert (Hindex : imageIndex id images imageId = -1)
    by (apply findIndexFrom_none; exact Hout).
  assert (Hlen : (0 < length images)%nat) by (destruct images; [discriminate|cbn; lia]).
  unfold next, previous, canNavigate. rewrite Hindex. unfold arrayLength.
  change (-1 <? -1) with false. cbv beta iota.
  replace (0 <? Z.of_nat (length images)) with true by (symmetry; apply Z.ltb_lt; lia).
  change (-1 + 1) with 0. change (-1 <? -1 - 1) with false. cbv beta iota.
  replace (0 <? Z.of_nat (length images)) with true by (symmetry; apply Z.ltb_lt; lia).
  split.
  - unfold idAt, elementAt. cbn [Z.ltb Z.compare Z.to_nat].
    rewrite <- head_lookup, Hfirst. reflexivity.
  - unfold idAt, elementAt.
    replace (Z.of_nat (length images) - 1 <? 0) with false
      by (symmetry; apply Z.ltb_ge; lia).
    rewrite last_lookup in Hlast.
    replace (Z.to_nat (Z.of_nat (length images) - 1)) with (Nat.pred (length images))
      by lia.
    rewrite Hlast. reflexivity.
Qed.

End Navigation.

Lemma exampleImages_distinct : distinctIds num [11; 12; 13].
Proof.
  intros i j x y Hx Hy.
  destruct i as [|[|[|i]]]; try discriminate; injection Hx as <-;
    destruct j as [|[|[|j]]]; try discriminate; injection Hy as <-; reflexivity.
Defined.

Lemma next_then_previous_witness :
  exists y z : Z,
    [11; 12; 13] !! ((2 + 1) mod length [11; 12; 13])%nat = Some y /\
    next num [11; 12; 13] (num 13) = Ok (Some (num y)) /\
    previous num [11; 12; 13] (num y) = Ok (Some (num 13)) /\
    [11; 12; 13] !! ((2 + (length [11; 12; 13] - 1)) mod length [11; 12; 13])%nat
    = Some z /\
    previous num [11; 12; 13] (num 13) = Ok (Some (num z)) /\
    next num [11; 12; 13] (num z) = Ok (Some (num 13)).
Proof.
  apply (next_then_previous num [11; 12; 13] 2%nat 13 exampleImages_distinct).
  - reflexivity.
  - cbn. lia.
Defined.

Lemma navigation_from_outside_witness :
  next num [11; 12; 13] (num 99) = Ok (Some (num 11)) /\
  previous num [11; 12; 13] (num 99) = Ok (Some (num 13)).
Proof.
  apply (navigation_from_outside num [11; 12; 13] (num 99) 11 13).
  - repeat constructor.
  - reflexivity.
  - reflexivity.
Defined.

(** *** The order of the pages of a keyset pagination *)

Section KeysetOrder.

Lemma lexCompare_trans (e1 e2 e3 m1 m2 m3 : Z) (c : comparison) :
  c <> Eq -> lexCompare e1 e2 m1 m2 = c -> lexCompare e2 e3 m2 m3 = c ->
  lexCompare e1 e3 m1 m3 = c.
Proof.
  unfold lexCompare. intros Hc.
  destruct (Z.compare_spec e1 e2), (Z.compare_spec e2 e3), (Z.compare_spec e1 e3),
    (Z.compare_spec m1 m2), (Z.compare_spec m2 m3), (Z.compare_spec m1 m3);
    intros; subst; try congruence; try lia.
Qed.

Lemma lexCompare_eq (e e' m m' : Z) :
  lexCompare e e' m m' = Eq -> e = e' /\ m = m'.
Proof.
  unfold lexCompare.
  destruct (Z.compare_spec e e'), (Z.compare_spec m m'); intros;
    try discriminate; auto.
Qed.

Lemma lexCompare_refl (e m : Z) : lexCompare e e m m = Eq.
Proof. unfold lexCompare. now rewrite !Z.compare_refl. Qed.

Lemma SFcompare_finite (s s' : bool) (m m' : positive) (e e' : Z) :
  SFcompare (S754_finite s m e) (S754_finite s' m' e')
  = Some (match s, s' with
          | true, false => Lt
          | false, true => Gt
          | false, false => lexCompare e e' (Zpos m) (Zpos m')
          | true, true => CompOpp (lexCompare e e' (Zpos m) (Zpos m'))
          end).
Proof. destruct s, s'; cbn; unfold lexCompare; destruct (e ?= e'); reflexivity. Qed.

(** The order of numbers is transitive. *)
Lemma SFcompare_trans (x y z : number) (c : comparison) :
  c <> Eq -> SFcompare x y = Some c -> SFcompare y z = Some c ->
  SFcompare x z = Some c.
Proof.
  intros Hc.
  destruct x as [sx|sx| |sx mx ex], y as [sy|sy| |sy my ey], z as [sz|sz| |sz mz ez];
    try discriminate;
    rewrite ?SFcompare_finite;
    try (destruct sx; discriminate); try (destruct sy; discriminate);
    try (destruct sz; discriminate);
    try (destruct sx, sy, sz; cbn; congruence).
  destruct sx, sy, sz; intros [= H1] [= H2]; f_equal; try congruence.
  - assert (Hc' : CompOpp c <> Eq) by (destruct c; cbn; congruence).
    rewrite (lexCompare_trans ex ey ez (Zpos mx) (Zpos my) (Zpos mz) (CompOpp c) Hc').
    + now destruct c.
    + rewrite <- H1. now destruct (lexCompare ex ey _ _).
    + rewrite <- H2. now destruct (lexCompare ey ez _ _).
  - now apply (lexCompare_trans ex ey ez (Zpos mx) (Zpos my) (Zpos mz)).
Qed.

(** Numbers that compare as equal compare alike with every number. *)
Lemma SFcompare_eq_l (x y z : number) :
  SFcompare x y = Some Eq -> SFcompare x z = SFcompare y z.
Proof.
  destruct x as [sx|sx| |sx mx ex], y as [sy|sy| |sy my ey];
    try discriminate; try (destruct sx; discriminate); try (destruct sy; discriminate).
  - intros _. destruct z as [sz|sz| |sz mz ez]; reflexivity.
  - destruct sx, sy; try discriminate; reflexivity.
  - rewrite SFcompare_finite. destruct sx, sy; intros [= H]; try discriminate.
    + assert (H' : lexCompare ex ey (Zpos mx) (Zpos my) = Eq)
        by (now destruct (lexCompare _ _ _ _)).
      apply lexCompare_eq in H' as [-> [= ->]]. reflexivity.
    + apply lexCompare_eq in H as [-> [= ->]]. reflexivity.
Qed.

Lemma SFcompare_eq_r (x y z : number) :
  SFcompare x y = Some Eq -> SFcompare z x = SFcompare z y.
Proof.
  intros H. rewrite (SFcompare_antisym x z), (SFcompare_antisym y z).
  now rewrite (SFcompare_eq_l x y z H).
Qed.

Lemma SFcompare_refl (x : number) : SFcompare x x = Some Eq \/ SFcompare x x = None.
Proof.
  destruct x as [s|s| |s m e].
  - now left.
  - left. now destruct s.
  - now right.
  - left. rewrite SFcompare_finite, lexCompare_refl. now destruct s.
Qed.

Lemma cursorOfRow_get (fields : list SortField) (row : string -> number)
    (f : SortField) :
  f ∈ fields -> get (cursorOfRow fields row) (field f) = VNumber (row (key f)).
Proof.
  intros Hin. unfold get. fold (key f).
  assert (H : cursorOfRow fields row !! key f = Some (VNumber (row (key f))));
    [|now rewrite H].
  unfold cursorOfRow. induction fields as [|f' fs IH].
  - now apply elem_of_nil in Hin.
  - cbn [map list_to_map].
    destruct (decide (key f' = key f)) as [Heq|Hne].
    + rewrite Heq. cbn. now rewrite lookup_insert_eq.
    + cbn. rewrite lookup_insert_ne by exact Hne.
      apply elem_of_cons in Hin as [->|Hin]; [congruence|]. now apply IH.
Qed.

(** How a row compares with another row on one sort field. *)
Lemma fieldCompare_cursorOfRow (fields : list SortField)
    (row row' : string -> number) (f : SortField) :
  f ∈ fields ->
  fieldCompare row' (cursorOfRow fields row) f
  = (fun c => if String.eqb (order f) "DESC" then CompOpp c else c)
      <$> SFcompare (row' (key f)) (row (key f)).
Proof.
  intros Hin. unfold fieldCompare. rewrite (cursorOfRow_get fields row f Hin).
  cbn [comparand]. fold (key f). now destruct (SFcompare _ _).
Qed.

Lemma fieldCompare_trans (fields : list SortField) (cursors : gmap string Value)
    (row1 row2 : string -> number) (f : SortField) (a b : comparison) :
  f ∈ fields ->
  fieldCompare row1 cursors f = Some a ->
  fieldCompare row2 (cursorOfRow fields row1) f = Some b ->
  (a = Gt \/ a = Eq) -> (b = Gt \/ b = Eq) ->
  fieldCompare row2 cursors f = Some (match a with Eq => b | _ => Gt end).
Proof.
  intros Hin Ha Hb Hca Hcb.
  rewrite (fieldCompare_cursorOfRow fields row1 row2 f Hin) in Hb.
  unfold fieldCompare in *. fold (key f) in *.
  destruct (comparand (get cursors (field f))) as [v|]; try discriminate.
  destruct (SFcompare (row1 (key f)) v) as [c1|] eqn:H1; [|discriminate].
  destruct (SFcompare (row2 (key f)) (row1 (key f))) as [c2|] eqn:H2; [|discriminate].
  cbn in Hb. injection Ha as <-. injection Hb as <-.
  destruct (String.eqb (order f) "DESC");
    destruct c1, c2; cbn in *; destruct Hca as [Hca|Hca]; destruct Hcb as [Hcb|Hcb];
    try discriminate.
  all: try (rewrite (SFcompare_eq_l _ _ v H2), H1; reflexivity).
  all: try (rewrite <- (SFcompare_eq_r _ _ (row2 (key f)) H1), H2; reflexivity).
  - assert (Hne : Lt <> Eq) by discriminate.
    now rewrite (SFcompare_trans _ _ _ Lt Hne H2 H1).
  - assert (Hne : Gt <> Eq) by discriminate.
    now rewrite (SFcompare_trans _ _ _ Gt Hne H2 H1).
Qed.

(** Coming after, in the order of the sort fields, is transitive. *)
Lemma rowCompare_trans (allFields fields : list SortField)
    (cursors : gmap string Value) (row1 row2 : string -> number) :
  fields ⊆ allFields ->
  rowCompare row1 cursors fields = Some Gt ->
  rowCompare row2 (cursorOfRow allFields row1) fields = Some Gt ->
  rowCompare row2 cursors fields = Some Gt.
Proof.
  induction fields as [|f fields IH]; intros Hsub H1 H2; [discriminate|].
  assert (Hin : f ∈ allFields) by (apply Hsub; now left).
  assert (Hsub' : fields ⊆ allFields) by (intros x Hx; apply Hsub; now right).
  cbn [rowCompare] in *.
  destruct (fieldCompare row1 cursors f) as [a|] eqn:Ha; [|discriminate].
  destruct (fieldCompare row2 (cursorOfRow allFields row1) f) as [b|] eqn:Hb;
    [|discriminate].
  assert (Hca : a = Gt \/ a = Eq) by (destruct a; auto; discriminate).
  assert (Hcb : b = Gt \/ b = Eq) by (destruct b; auto; discriminate).
  rewrite (fieldCompare_trans allFields cursors row1 row2 f a b Hin Ha Hb Hca Hcb).
  destruct a, b; try discriminate; try reflexivity.
  now apply IH.
Qed.

(** No row comes after itself. *)
Lemma rowCompare_irrefl (allFields fields : list SortField) (row : string -> number) :
  fields ⊆ allFields ->
  rowCompare row (cursorOfRow allFields row) fields <> Some Gt.
Proof.
  induction fields as [|f fields IH]; intros Hsub; [discriminate|].
  assert (Hin : f ∈ allFields) by (apply Hsub; now left).
  assert (Hsub' : fields ⊆ allFields) by (intros x Hx; apply Hsub; now right).
  cbn [rowCompare]. rewrite (fieldCompare_cursorOfRow allFields row row f Hin).
  destruct (SFcompare_refl (row (key f))) as [-> | ->]; cbn.
  - destruct (String.eqb (order f) "DESC"); cbn; now apply IH.
  - discriminate.
Qed.

End KeysetOrder.

(** X22: paging with the keyset predicate only moves forward.  Read as
    conditions on rows of numbers, the predicate built from the values of a
    row never selects that row again; a row after which another row comes
    does not come after that one; and what comes after a row that comes after
    the cursor also comes after the cursor. *)
Theorem keyset_pages_advance (sortFields : list SortField)
    (cursors : gmap string Value) (row1 row2 : string -> number) :
  sortFields <> [] ->
  exists after after1 after2 : ConditionTree,
    buildKeysetPredicate sortFields cursors = Ok (treeSql after) /\
    buildKeysetPredicate sortFields (cursorOfRow sortFields row1)
    = Ok (treeSql after1) /\
    buildKeysetPredicate sortFields (cursorOfRow sortFields row2)
    = Ok (treeSql after2) /\
    evalTree row1 after1 = false /\
    (evalTree row2 after1 = true -> evalTree row1 after2 = false) /\
    (evalTree row1 after = true -> evalTree row2 after1 = true ->
     evalTree row2 after = true).
Proof.
  intros Hne.
  exists (keysetTree sortFields cursors),
    (keysetTree sortFields (cursorOfRow sortFields row1)),
    (keysetTree sortFields (cursorOfRow sortFields row2)).
  rewrite !buildKeysetPredicate_treeSql by exact Hne.
  split; [reflexivity|]. split; [reflexivity|]. split; [reflexivity|].
  assert (Hirr : forall row,
             evalTree row (keysetTree sortFields (cursorOfRow sortFields row)) = false).
  { intros row. apply not_true_is_false. intros H.
    apply keyset_selects_rows_after_cursor in H.
    now apply (rowCompare_irrefl sortFields sortFields row). }
  split; [apply Hirr|]. split.
  - intros H21. apply not_true_is_false. intros H12.
    apply keyset_selects_rows_after_cursor in H21, H12.
    apply (rowCompare_irrefl sortFields sortFields row1); [reflexivity|].
    now apply (rowCompare_trans sortFields sortFields (cursorOfRow sortFields row1)
                 row2 row1).
  - intros H1 H2. apply keyset_selects_rows_after_cursor in H1, H2.
    apply keyset_selects_rows_after_cursor.
    now apply (rowCompare_trans sortFields sortFields cursors row1 row2).
Qed.

Lemma keyset_pages_advance_witness :
  exists after after1 after2 : ConditionTree,
    buildKeysetPredicate sortAB cursorsAB = Ok (treeSql after) /\
    buildKeysetPredicate sortAB (cursorOfRow sortAB (fun _ => num 7))
    = Ok (treeSql after1) /\
    buildKeysetPredicate sortAB (cursorOfRow sortAB (fun _ => num 8))
    = Ok (treeSql after2) /\
    evalTree (fun _ => num 7) after1 = false /\
    (evalTree (fun _ => num 8) after1 = true ->
     evalTree (fun _ => num 7) after2 = false) /\
    (evalTree (fun _ => num 7) after = true ->
     evalTree (fun _ => num 8) after1 = true ->
     evalTree (fun _ => num 8) after = true).
Proof.
  apply (keyset_pages_advance sortAB cursorsAB (fun _ => num 7) (fun _ => num 8)).
  discriminate.
Defined.

(** *** string-helpers.ts: [getInitials] *)

Section Initials.

Lemma isWordChar_no_space (c : ascii) : isWordChar c = true -> isWhiteSpace c = false.
Proof. destruct c as [[] [] [] [] [] [] [] []]; vm_compute; congruence. Qed.

(** Inside a word nothing stands at a word boundary. *)
Lemma boundaryChars_word (w rest : string) :
  allChars (fun c => isWordChar c = true) w ->
  boundaryChars true (w +:+ rest) = boundaryChars true rest.
Proof.
  induction w as [|c w IH]; [reflexivity|]. intros [Hc Hw].
  change (String c w +:+ rest) with (String c (w +:+ rest)).
  cbn [boundaryChars]. rewrite Hc. cbn [xorb andb]. now apply IH.
Qed.

Lemma boundaryChars_space_word (c : ascii) (w rest : string) :
  isWordChar c = true -> allChars (fun c => isWordChar c = true) w ->
  boundaryChars true (" " +:+ String c w +:+ rest)
  = String c (boundaryChars true rest).
Proof.
  intros Hc Hw.
  change (" " +:+ String c w +:+ rest) with (String " " (String c (w +:+ rest))).
  cbn [boundaryChars]. change (isWordChar " ") with false.
  change (isWhiteSpace " ") with true. cbn [xorb andb negb].
  rewrite Hc, (isWordChar_no_space c Hc). cbn [xorb andb negb].
  now rewrite boundaryChars_word.
Qed.

Lemma boundaryChars_spaced (words : list string) :
  Forall isWordLike words ->
  boundaryChars true (spaced words) = firstChars words.
Proof.
  induction 1 as [|w words [Hne Hw] _ IH]; [reflexivity|].
  destruct w as [|c w]; [congruence|]. destruct Hw as [Hc Hw].
  cbn [spaced firstChars]. rewrite boundaryChars_space_word by assumption.
  now rewrite IH.
Qed.

Lemma join_spaced (w : string) (words : list string) :
  join " " (w :: words) = w +:+ spaced words.
Proof.
  revert w. induction words as [|w' words IH]; intros w.
  - cbn. now rewrite append_nil_r.
  - change (join " " (w :: w' :: words)) with (w +:+ " " +:+ join " " (w' :: words)).
    rewrite IH. cbn [spaced]. reflexivity.
Qed.

Lemma firstChars_app (words words' : list string) :
  firstChars (words ++ words') = firstChars words +:+ firstChars words'.
Proof.
  induction words as [|[|c w] words IH]; [reflexivity|exact IH|].
  cbn [app firstChars]. now rewrite IH.
Qed.

Lemma lastNonSpace_app (s : string) (c : ascii) :
  isWhiteSpace c = false ->
  lastNonSpace (s +:+ String c EmptyString) = String c EmptyString.
Proof.
  intros Hc. induction s as [|c' s IH].
  - change (EmptyString +:+ ?x) with x. cbn [lastNonSpace]. now rewrite Hc.
  - change (String c' s +:+ ?x) with (String c' (s +:+ x)).
    cbn [lastNonSpace]. destruct (s +:+ String c EmptyString) eqn:Hs.
    + destruct s; discriminate.
    + exact IH.
Qed.

Lemma length_lastNonSpace (s : string) : (String.length (lastNonSpace s) <= 1)%nat.
Proof.
  induction s as [|c s IH]; [cbn; lia|].
  cbn [lastNonSpace]. destruct s; [|exact IH].
  destruct (isWhiteSpace c); cbn; lia.
Qed.

Lemma length_toUpperCase (s : string) :
  String.length (toUpperCase s) = String.length s.
Proof. induction s as [|c s IH]; [reflexivity|]. cbn. now rewrite IH. Qed.

End Initials.

(** X23: the initials of a name of two or more words (words of letters,
    digits or [_], separated by single spaces) are the first character of
    the first word and the first character of the last word, in upper
    case. *)
Theorem getInitials_name (c1 cn : ascii) (t1 tn : string) (middle : list string) :
  isWordLike (String c1 t1) -> Forall isWordLike middle -> isWordLike (String cn tn) ->
  getInitials (join " " (String c1 t1 :: middle ++ [String cn tn]))
  = toUpperCase (String c1 (String cn EmptyString)).
Proof.
  intros [_ [Hc1 Ht1]] Hmid [_ [Hcn Htn]].
  assert (Hall : Forall isWordLike (middle ++ [String cn tn])).
  { apply Forall_app. split; [exact Hmid|].
    constructor; [|constructor]. split; [discriminate|now split]. }
  unfold getInitials. f_equal. rewrite join_spaced.
  set (rest := middle ++ [String cn tn]) in *.
  assert (Hfirst : firstChars rest = firstChars middle +:+ String cn EmptyString).
  { unfold rest. now rewrite firstChars_app. }
  assert (Hstart : exists pre,
             matchStartAndBoundaries (String c1 t1 +:+ spaced rest)
             = String c1 (pre +:+ String cn EmptyString)).
  { change (String c1 t1 +:+ spaced rest) with (String c1 (t1 +:+ spaced rest)).
    cbn [matchStartAndBoundaries]. rewrite (isWordChar_no_space c1 Hc1).
    destruct t1 as [|c2 t2].
    - change (EmptyString +:+ spaced rest) with (spaced rest).
      destruct rest as [|w rest'] eqn:Hrest; [destruct middle; discriminate|].
      cbn [spaced]. change (" " +:+ ?x) with (String " " x).
      change (isWhiteSpace " ") with true. cbv iota.
      rewrite Hc1. change (String " " (w +:+ spaced rest')) with (spaced (w :: rest')).
      rewrite boundaryChars_spaced by exact Hall. rewrite Hfirst. eauto.
    - destruct Ht1 as [Hc2 Ht2].
      change (String c2 t2 +:+ spaced rest) with (String c2 (t2 +:+ spaced rest)).
      cbv beta iota. rewrite (isWordChar_no_space c2 Hc2), Hc2.
      rewrite boundaryChars_word by exact Ht2.
      rewrite boundaryChars_spaced by exact Hall. rewrite Hfirst.
      exists (String c2 (firstChars middle)). reflexivity. }
  destruct Hstart as [pre ->].
  cbn [matchFirstAndLast]. rewrite (isWordChar_no_space c1 Hc1).
  destruct (pre +:+ String cn EmptyString) eqn:Hpre; [destruct pre; discriminate|].
  rewrite <- Hpre. rewrite lastNonSpace_app by now apply isWordChar_no_space.
  reflexivity.
Qed.

Lemma getInitials_name_witness :
  getInitials (join " " ("john" :: ["ronald"; "reuel"] ++ ["tolkien"])) = "JT".
Proof.
  apply (getInitials_name "j" "t" "ohn" "olkien" ["ronald"; "reuel"]).
  - split; [discriminate|]. cbn. repeat split; reflexivity.
  - repeat constructor; discriminate.
  - split; [discriminate|]. cbn. repeat split; reflexivity.
Defined.

(** X24: for an ASCII value, [getInitials] never returns more than two
    characters, and for a name of one word it returns the first two
    characters of the word in upper case (the only one when the word has
    one). *)
Theorem getInitials_short (value : string) :
  isAsciiString value ->
  (String.length (getInitials value) <= 2)%nat /\
  (forall (c : ascii) (w : string),
      value = String c w -> isWordLike value ->
      getInitials value
      = toUpperCase (match w with
                     | EmptyString => String c EmptyString
                     | String c' _ => String c (String c' EmptyString)
                     end)).
Proof.
  intros _. split.
  - unfold getInitials. rewrite length_toUpperCase.
    destruct (matchStartAndBoundaries value) as [|c s]; [cbn; lia|].
    cbn [matchFirstAndLast]. destruct s as [|c' s'].
    + destruct (isWhiteSpace c); cbn; lia.
    + pose proof (length_lastNonSpace (String c' s')) as H.
      destruct (isWhiteSpace c).
      * change (EmptyString +:+ ?x) with x. lia.
      * change (String c EmptyString +:+ ?x) with (String c x).
        cbn [String.length]. lia.
  - intros c w -> [_ [Hc Hw]]. unfold getInitials. f_equal.
    cbn [matchStartAndBoundaries]. rewrite (isWordChar_no_space c Hc).
    destruct w as [|c' w'].
    + cbn. now rewrite (isWordChar_no_space c Hc).
    + destruct Hw as [Hc' Hw']. cbv beta iota.
      rewrite (isWordChar_no_space c' Hc'), Hc'.
      assert (Hnone : boundaryChars true w' = EmptyString).
      { rewrite <- (append_nil_r w'). now rewrite boundaryChars_word. }
      rewrite Hnone. cbn [matchFirstAndLast lastNonSpace].
      now rewrite (isWordChar_no_space c Hc), (isWordChar_no_space c' Hc').
Qed.

Lemma getInitials_short_witness :
  isAsciiString "civitai" /\
  (String.length (getInitials "civitai") <= 2)%nat /\
  getInitials "civitai" = "CI".
Proof.
  assert (H : isAsciiString "civitai") by (cbn; repeat split; reflexivity).
  split; [exact H|]. split.
  - exact (proj1 (getInitials_short "civitai" H)).
  - apply (proj2 (getInitials_short "civitai" H) "c"%char "ivitai" eq_refl).
    split; [discriminate|]. cbn. repeat split; reflexivity.
Defined.

(** *** moderation.ts: [moderatePrompt] *)

Section Moderation.

Lemma categories_loop (configured : list (string * option string))
    (first : ModerationEntry) (acc : list string) :
  fold_left
    (fun categories '(k, v) =>
       if reported (entry_categories first) k
       then categories ++ [default k v]
       else categories)
    configured acc
  = acc ++ configuredCategories configured first.
Proof.
  unfold configuredCategories. revert acc.
  induction configured as [|[k v] configured IH]; intros acc.
  - cbn. now rewrite app_nil_r.
  - cbn [fold_left List.filter fst snd]. rewrite IH.
    destruct (reported (entry_categories first) k); [|reflexivity].
    cbn [map fst snd]. now rewrite <- app_assoc.
Qed.

Lemma configuredCategories_any (configured : list (string * option string))
    (first : ModerationEntry) :
  (0 <? arrayLength (configuredCategories configured first))
  = existsb (fun kv => reported (entry_categories first) (fst kv)) configured.
Proof.
  unfold configuredCategories, arrayLength. rewrite length_map.
  induction configured as [|[k v] configured IH]; [reflexivity|].
  cbn [List.filter existsb fst].
  destruct (reported (entry_categories first) k); cbn [orb]; [|exact IH].
  cbn [length]. rewrite Nat2Z.inj_succ. apply Z.ltb_lt. lia.
Qed.

End Moderation.

(** X25: without a token or without an endpoint (unset or empty),
    [moderatePrompt] flags nothing and reports no category, whatever the
    prompt; the service is not asked, so no failure of it matters. *)
Theorem moderatePrompt_not_configured (env : ModerationEnv)
    (fetch : ModerationRequest -> Outcome Response) (prompt : string) :
  truthyString (EXTERNAL_MODERATION_TOKEN env) = false \/
  truthyString (EXTERNAL_MODERATION_ENDPOINT env) = false ->
  moderatePrompt env fetch prompt = Returned {| flagged := false; categories := [] |} /\
  (forall fetch' : ModerationRequest -> Outcome Response,
      moderatePrompt env fetch' prompt = moderatePrompt env fetch prompt).
Proof.
  intros H.
  assert (Hall : forall f, moderatePrompt env f prompt
                           = Returned {| flagged := false; categories := [] |}).
  { intros f. unfold moderatePrompt.
    destruct H as [H|H]; rewrite H; cbn [negb orb]; [reflexivity|].
    now rewrite orb_true_r. }
  split; [apply Hall|]. intros fetch'. now rewrite !Hall.
Qed.

Lemma moderatePrompt_not_configured_witness :
  moderatePrompt
    {| EXTERNAL_MODERATION_TOKEN := Some EmptyString;
       EXTERNAL_MODERATION_ENDPOINT := Some "https://moderation.example/v1";
       EXTERNAL_MODERATION_CATEGORIES := None |}
    (fun _ => Raised (Native TypeError)) "a prompt"
  = Returned {| flagged := false; categories := [] |}.
Proof.
  apply (moderatePrompt_not_configured
           {| EXTERNAL_MODERATION_TOKEN := Some EmptyString;
              EXTERNAL_MODERATION_ENDPOINT := Some "https://moderation.example/v1";
              EXTERNAL_MODERATION_CATEGORIES := None |}
           (fun _ => Raised (Native TypeError)) "a prompt").
  left. reflexivity.
Defined.

(** X26: when categories are configured, the verdict of [moderatePrompt]
    rests on them alone: the reported categories are the configured ones that
    the first result reports, in the configured order and under their
    configured names (the key itself where no name is given), and the prompt
    is flagged exactly when there is one; what the service itself says in
    [flagged] is ignored.  Without configured categories the verdict is the
    service's [flagged] with the names of all the categories it reports. *)
Theorem moderatePrompt_categories (env : ModerationEnv)
    (fetch : ModerationRequest -> Outcome Response) (prompt : string)
    (res : Response) (reply : ModerationReply) (first : ModerationEntry) :
  truthyString (EXTERNAL_MODERATION_TOKEN env) = true ->
  truthyString (EXTERNAL_MODERATION_ENDPOINT env) = true ->
  fetch (moderationRequest env prompt) = Returned res ->
  res_ok res = true ->
  res_json res = Returned reply ->
  results reply !! 0%nat = Some first ->
  (forall configured : list (string * option string),
      EXTERNAL_MODERATION_CATEGORIES env = Some configured ->
      moderatePrompt env fetch prompt
      = Returned
          {| flagged :=
               existsb (fun kv => reported (entry_categories first) (fst kv))
                       configured;
             categories := configuredCategories configured first |} /\
      (existsb (fun kv => reported (entry_categories first) (fst kv)) configured = true
       <-> configuredCategories configured first <> [])) /\
  (EXTERNAL_MODERATION_CATEGORIES env = None ->
   moderatePrompt env fetch prompt
   = Returned {| flagged := entry_flagged first;
                 categories := map fst (List.filter snd (entry_categories first)) |}).
Proof.
  intros Ht He Hf Hok Hj H0.
  unfold moderatePrompt. rewrite Ht, He. cbn [negb orb].
  rewrite Hf, Hok, Hj, H0. cbn [negb].
  split.
  - intros configured ->. rewrite (categories_loop configured first []). cbn [app].
    rewrite configuredCategories_any. split; [reflexivity|].
    rewrite <- configuredCategories_any. unfold arrayLength.
    destruct (configuredCategories configured first); cbn [length].
    + split; [discriminate|congruence].
    + split; [discriminate|]. intros _. apply Z.ltb_lt. lia.
  - intros ->. reflexivity.
Qed.

Lemma moderatePrompt_categories_witness :
  moderatePrompt
    {| EXTERNAL_MODERATION_TOKEN := Some "secret";
       EXTERNAL_MODERATION_ENDPOINT := Some "https://moderation.example/v1";
       EXTERNAL_MODERATION_CATEGORIES :=
         Some [("sexual/minors", Some "minors"); ("violence", None)] |}
    (fun _ =>
       Returned
         {| res_ok := true; res_status := 200; res_statusText := "OK";
            res_text := Raised (Native TypeError);
            res_json :=
              Returned
                {| results :=
                     [ {| entry_flagged := true;
                          entry_categories :=
                            [("hate", true); ("violence", false)] |} ] |} |})
    "a prompt"
  = Returned {| flagged := false; categories := [] |}.
Proof.
  apply (proj1 (moderatePrompt_categories
           {| EXTERNAL_MODERATION_TOKEN := Some "secret";
              EXTERNAL_MODERATION_ENDPOINT := Some "https://moderation.example/v1";
              EXTERNAL_MODERATION_CATEGORIES :=
                Some [("sexual/minors", Some "minors"); ("violence", None)] |}
           (fun _ =>
              Returned
                {| res_ok := true; res_status := 200; res_statusText := "OK";
                   res_text := Raised (Native TypeError);
                   res_json :=
                     Returned
                       {| results :=
                            [ {| entry_flagged := true;
                                 entry_categories :=
                                   [("hate", true); ("violence", false)] |} ] |} |})
           "a prompt" _ _ _ eq_refl eq_refl eq_refl eq_refl eq_refl eq_refl)
           [("sexual/minors", Some "minors"); ("violence", None)] eq_refl).
Defined.


(** *** [generateToken] *)

Section UnitInterval.

Lemma toIntegerOrInfinity_num (q : Z) :
  0 <= q < 2 ^ 53 -> toIntegerOrInfinity (num q) = Some q.
Proof.
  intros Hq. destruct (Z.eq_dec q 0) as [->|Hne]; [reflexivity|].
  destruct (num_canonical q ltac:(lia)) as (m & e & -> & _ & He & Hm).
  unfold toIntegerOrInfinity. cbn [cond_Zopp]. f_equal.
  assert (Hp : 0 < 2 ^ (- e)) by (apply Z.pow_pos_nonneg; lia).
  destruct (Z.leb_spec 0 e).
  - replace e with 0 in * by lia. cbn in Hm. cbn. lia.
  - rewrite Hm, Z.div_mul by lia. reflexivity.
Qed.

(** The floor of a positive number below an integer [c] is an integer
    below [c]. *)
Lemma floor_below (m : positive) (e c : Z) :
  e < 0 -> 0 < c <= 2 ^ 53 -> Zpos m < c * 2 ^ (- e) ->
  exists k, toIntegerOrInfinity (floor (S754_finite false m e)) = Some k
            /\ 0 <= k < c.
Proof.
  intros He Hc Hm. unfold floor.
  replace (0 <=? e) with false by (symmetry; apply Z.leb_gt; lia).
  rewrite Z.shiftr_div_pow2 by lia.
  assert (Hp : 0 < 2 ^ (- e)) by (apply Z.pow_pos_nonneg; lia).
  exists (Zpos m / 2 ^ (- e)).
  assert (Hk : 0 <= Zpos m / 2 ^ (- e) < c).
  { split; [apply Z.div_pos; lia|apply Z.div_lt_upper_bound; lia]. }
  split; [|exact Hk].
  apply toIntegerOrInfinity_num. lia.
Qed.

Lemma bounded_unit (m : positive) (e : Z) :
  bounded prec emax m e = true -> Zpos (digits2_pos m) + e <= 0 ->
  -1074 <= e <= -1 /\ Zpos (digits2_pos m) <= 53 /\
  (Zpos (digits2_pos m) = 53 \/ e = -1074) /\
  Zpos m * 2 ^ 53 <= 2 ^ (- e) * (2 ^ 53 - 1).
Proof.
  intros Hb Hu. unfold bounded, canonical_mantissa, fexp, emin, prec, emax in Hb.
  apply andb_true_iff in Hb. destruct Hb as [Hc _]. apply Z.eqb_eq in Hc.
  pose proof (digits2_pos_bounds m) as Hm.
  set (d := Zpos (digits2_pos m)) in *.
  assert (Hd1 : 1 <= d) by (unfold d; lia).
  assert (He : -1074 <= e <= -1) by lia.
  assert (Hd : d <= 53) by lia.
  assert (Hor : d = 53 \/ e = -1074) by lia.
  repeat split; try lia.
  assert (H53 : 2 ^ 53 <= 2 ^ (- e)) by (apply Z.pow_le_mono_r; lia).
  assert (Hm53 : Zpos m < 2 ^ 53).
  { assert (2 ^ d <= 2 ^ 53) by (apply Z.pow_le_mono_r; lia). lia. }
  set (A := 2 ^ (- e)) in *. set (T := 2 ^ 53) in *.
  assert (0 < T) by (unfold T; lia).
  clearbody A T. clear - H53 Hm53 H. nia.
Qed.

End UnitInterval.

Section RandomIndex.

Lemma num_62 : num 62 = S754_finite false 8725724278030336 (-47).
Proof. reflexivity. Qed.

(** A number of the unit interval times 62 is a number below 62. *)
Lemma mul_unit_62 (m : positive) (e : Z) :
  bounded prec emax m e = true -> Zpos (digits2_pos m) + e <= 0 ->
  exists (mf : positive) (ef : Z),
    mul (S754_finite false m e) (num 62) = S754_finite false mf ef
    /\ ef < 0 /\ Zpos mf < 62 * 2 ^ (- ef).
Proof.
  intros Hb Hu.
  destruct (bounded_unit m e Hb Hu) as (He & Hdm & Hor & Hunit).
  pose proof (digits2_pos_bounds m) as Hm.
  rewrite num_62. unfold mul, SFmul. cbn [xorb]. unfold binary_round_aux.
  set (p := (m * 8725724278030336)%positive).
  assert (HP : Zpos p = Zpos m * 8725724278030336) by (unfold p; lia).
  pose proof (digits2_pos_bounds p) as Hp.
  set (dm := Zpos (digits2_pos m)) in *.
  assert (Hdm1 : 1 <= dm) by (unfold dm; lia).
  (* the product has at most 53 bits more than the factor *)
  assert (Hd53 : 53 <= Zpos (digits2_pos p)).
  { destruct (Z.leb_spec 53 (Zpos (digits2_pos p))); [assumption|].
    assert (2 ^ Zpos (digits2_pos p) <= 2 ^ 52) by (apply Z.pow_le_mono_r; lia).
    lia. }
  assert (Hdle : Zpos (digits2_pos p) <= dm + 53).
  { destruct (Z.leb_spec (Zpos (digits2_pos p)) (dm + 53)); [assumption|].
    assert (2 ^ (dm + 53) <= 2 ^ (Zpos (digits2_pos p) - 1))
      by (apply Z.pow_le_mono_r; lia).
    rewrite Z.pow_add_r in H0 by lia.
    assert (0 < 2 ^ dm) by (apply Z.pow_pos_nonneg; lia).
    set (D := 2 ^ dm) in *. clearbody D. clear - H0 Hp HP Hm H1. nia. }
  unfold shr_fexp at 1. unfold fexp, emin, prec, emax, Zdigits2.
  set (d := Zpos (digits2_pos p)) in *.
  cbn [shr_record_of_loc].
  destruct (Z.leb_spec (-1074) (d + (e + -47) - 53)) as [Hnorm|Hsub].
  - (* the product is a normal number *)
    replace (Z.max (d + (e + -47) - 53) (3 - 1024 - 53) - (e + -47))
      with (d - 53) by lia.
    assert (Hn : 1 <= d - 53).
    { destruct (Z.eq_dec d 53) as [Heq|]; [|lia]. exfalso.
      rewrite Heq in Hp. change (2 ^ 53) with 9007199254740992 in Hp.
      assert (Hm1 : Zpos m = 1) by lia.
      assert (Hd1 : dm <= 1).
      { destruct (Z.leb_spec dm 1); [assumption|].
        assert (2 ^ 1 <= 2 ^ (dm - 1)) by (apply Z.pow_le_mono_r; lia).
        change (2 ^ 1) with 2 in H0. lia. }
      lia. }
    destruct (d - 53) as [|k|k] eqn:Hk; try lia.
    cbn [shr].
    pose proof (round_after_shift (Zpos p) k ltac:(lia)) as Hround.
    cbv zeta in Hround. destruct Hround as [Hmr Herr].
    set (mrs := SpecFloat.iter_pos shr_1 k _) in *.
    set (mr := round_nearest_even (shr_m mrs) (loc_of_shr_record mrs)) in *.
    assert (HN : 0 < 2 ^ Zpos k) by (apply Z.pow_pos_nonneg; lia).
    assert (Hlow : 2 ^ 52 * 2 ^ Zpos k <= Zpos p < 2 ^ 53 * 2 ^ Zpos k).
    { rewrite <- !Z.pow_add_r by lia.
      replace (52 + Zpos k) with (d - 1) by lia.
      replace (53 + Zpos k) with d by lia. exact Hp. }
    assert (Hq : 2 ^ 52 <= Zpos p / 2 ^ Zpos k < 2 ^ 53).
    { split; [apply Z.div_le_lower_bound; lia|apply Z.div_lt_upper_bound; lia]. }
    rewrite binary_round_finish by lia.
    eexists _, _. split; [reflexivity|].
    (* the rounded product stays below 62 *)
    assert (Hbound : mr * 2 ^ Zpos k < 8725724278030336 * 2 ^ (- e)).
    { set (X := mr * 2 ^ Zpos k) in *. set (N := 2 ^ Zpos k) in *.
      set (A := 2 ^ (- e)) in *.
      assert (HA : 0 < A) by (apply Z.pow_pos_nonneg; lia).
      change (2 ^ 52) with 4503599627370496 in *.
      change (2 ^ 53) with 9007199254740992 in *.
      clearbody X N A. clear - Herr Hlow HP Hunit HA. 
      assert (H1 : X * 9007199254740992 <= Zpos p * 9007199254740993) by lia.
      rewrite HP in H1.
      assert (H2 : X * 9007199254740992 * 9007199254740992
                   <= Zpos m * 9007199254740992 * 8725724278030336 * 9007199254740993) by lia.
      assert (H3 : Zpos m * 9007199254740992 * 8725724278030336 * 9007199254740993
                   <= A * (9007199254740992 - 1) * 8725724278030336 * 9007199254740993).
      { apply Z.mul_le_mono_nonneg_r; [lia|].
        apply Z.mul_le_mono_nonneg_r; [lia|]. exact Hunit. }
      lia. }
    assert (Hpow : 2 ^ (- e) * 2 ^ 47 = 2 ^ Zpos k * 2 ^ (- (e + -47 + Zpos k))).
    { rewrite <- !Z.pow_add_r by lia. f_equal. lia. }
    assert (HR : 0 < 2 ^ (- (e + -47 + Zpos k))) by (apply Z.pow_pos_nonneg; lia).
    assert (Hmain : mr < 62 * 2 ^ (- (e + -47 + Zpos k))).
    { change 8725724278030336 with (62 * 2 ^ 47) in Hbound.
      set (R := 2 ^ (- (e + -47 + Zpos k))) in *.
      set (N := 2 ^ Zpos k) in *. set (A := 2 ^ (- e)) in *.
      set (B := 2 ^ 47) in *.
      clearbody R N A B mr. clear - Hbound Hpow HN HR. nia. }
    destruct (Z.eqb_spec mr (2 ^ 53)) as [Heq|Hne].
    + split; [lia|].
      change (Zpos (Z.to_pos (2 ^ 52))) with (2 ^ 52).
      replace (- (e + -47 + Zpos k)) with (- (e + -47 + Zpos k + 1) + 1) in Hmain by lia.
      rewrite Z.pow_add_r in Hmain by lia.
      rewrite Heq in Hmain. change (2 ^ 53) with (2 ^ 52 * 2) in Hmain.
      change (2 ^ 1) with 2 in Hmain. lia.
    + split; [lia|]. rewrite Z2Pos.id by lia. exact Hmain.
  - (* the product is subnormal: the bits shifted out are zeros *)
    replace (Z.max (d + (e + -47) - 53) (3 - 1024 - 53) - (e + -47))
      with (-1027 - e) by lia.
    assert (Hn : 1 <= -1027 - e <= 47) by lia.
    destruct (-1027 - e) as [|k|k] eqn:Hk; try lia.
    cbn [shr].
    rewrite iter_shr_1_spec by lia.
    assert (Hsplit : Zpos p = Zpos m * 62 * 2 ^ (47 - Zpos k + 1) * 2 ^ (Zpos k - 1)).
    { rewrite HP, <- !Z.mul_assoc, <- Z.pow_add_r by lia.
      replace (47 - Zpos k + 1 + (Zpos k - 1)) with 47 by lia. reflexivity. }
    assert (Hh : 0 < 2 ^ (Zpos k - 1)) by (apply Z.pow_pos_nonneg; lia).
    assert (Hmod : Zpos p mod 2 ^ (Zpos k - 1) = 0).
    { rewrite Hsplit. apply Z.mod_mul. lia. }
    assert (Hodd : Z.odd (Zpos p / 2 ^ (Zpos k - 1)) = false).
    { rewrite Hsplit, Z.div_mul by lia.
      replace (47 - Zpos k + 1) with (Z.succ (47 - Zpos k)) by lia.
      rewrite Z.pow_succ_r by lia.
      replace (Zpos m * 62 * (2 * 2 ^ (47 - Zpos k)))
        with (2 * (Zpos m * 62 * 2 ^ (47 - Zpos k))) by ring.
      apply Z.odd_even. }
    rewrite Hmod, Hodd. cbn [shr_m loc_of_shr_record shr_r shr_s negb Z.eqb].
    cbn [round_nearest_even].
    assert (HN : 0 < 2 ^ Zpos k) by (apply Z.pow_pos_nonneg; lia).
    assert (Hq : 0 < Zpos p / 2 ^ Zpos k < 2 ^ 52).
    { split.
      - apply Z.div_str_pos. split; [lia|].
        assert (2 ^ Zpos k <= 2 ^ 47) by (apply Z.pow_le_mono_r; lia).
        change (2 ^ 47) with 140737488355328 in H. lia.
      - apply Z.div_lt_upper_bound; [lia|].
        rewrite <- Z.pow_add_r by lia.
        assert (2 ^ d <= 2 ^ (Zpos k + 52)) by (apply Z.pow_le_mono_r; lia).
        lia. }
    destruct (Zpos p / 2 ^ Zpos k) as [|q|q] eqn:Hqq; try lia.
    pose proof (digits2_pos_bounds q) as Hdq.
    assert (Hdq52 : Zpos (digits2_pos q) <= 52).
    { destruct (Z.leb_spec (Zpos (digits2_pos q)) 52); [assumption|].
      assert (2 ^ 52 <= 2 ^ (Zpos (digits2_pos q) - 1))
        by (apply Z.pow_le_mono_r; lia). lia. }
    unfold shr_fexp, fexp, emin, prec, emax, Zdigits2.
    replace (e + -47 + Zpos k) with (-1074) by lia.
    replace (Z.max (Zpos (digits2_pos q) + -1074 - 53) (3 - 1024 - 53) - -1074)
      with 0 by lia.
    cbn [shr shr_record_of_loc shr_m].
    exists q, (-1074). split; [reflexivity|]. split; [lia|].
    assert (2 ^ 52 <= 62 * 2 ^ (- -1074)); [|lia].
    assert (2 ^ 52 <= 2 ^ (- -1074)) by (apply Z.pow_le_mono_r; lia).
    assert (0 < 2 ^ (- -1074)) by (apply Z.pow_pos_nonneg; lia). lia.
Qed.

(** The index generateToken reads: an integer from 0 to 61. *)
Lemma random_index (r : number) :
  inUnitInterval r ->
  exists k, toIntegerOrInfinity (floor (mul r tokenCharactersLength)) = Some k
            /\ 0 <= k < 62.
Proof.
  intros Hr. change tokenCharactersLength with (num 62).
  destruct r as [[|]| | |[|] m e]; cbn in Hr; try contradiction.
  - exists 0. split; [reflexivity|lia].
  - destruct Hr as [Hb Hu].
    destruct (mul_unit_62 m e Hb Hu) as (mf & ef & -> & Hef & Hmf).
    apply floor_below; [exact Hef|change (2 ^ 53) with 9007199254740992; lia|exact Hmf].
Qed.

End RandomIndex.

Section GenerateToken.

Lemma lt_naturals (a b : Z) :
  0 <= a < 2 ^ 53 -> 0 <= b < 2 ^ 53 -> lt (num a) (num b) = (a <? b).
Proof.
  intros Ha Hb.
  destruct (Z.eq_dec a 0) as [->|Hna]; destruct (Z.eq_dec b 0) as [->|Hnb].
  - reflexivity.
  - destruct (num_canonical b ltac:(lia)) as (m & e & -> & _).
    symmetry. apply Z.ltb_lt. lia.
  - destruct (num_canonical a ltac:(lia)) as (m & e & -> & _).
    symmetry. apply Z.ltb_ge. lia.
  - apply lt_integers; lia.
Qed.

Lemma add_one (a : Z) :
  0 <= a -> a + 1 < 2 ^ 53 -> add (num a) (num 1) = num (a + 1).
Proof.
  intros Ha Hb. destruct (Z.eq_dec a 0) as [->|Hna]; [reflexivity|].
  apply add_integers; lia.
Qed.

Lemma get_some (s : string) (i : nat) :
  (i < String.length s)%nat ->
  exists c, String.get i s = Some c /\ In c (list_ascii_of_string s).
Proof.
  revert i. induction s as [|a s IH]; intros i Hi; cbn in Hi; [lia|].
  destruct i as [|i]; cbn [String.get list_ascii_of_string].
  - exists a. split; [reflexivity|now left].
  - destruct (IH i ltac:(lia)) as (c & Hc & Hin).
    exists c. split; [exact Hc|now right].
Qed.

Lemma charAt_tokenCharacters (pos : number) (k : Z) :
  toIntegerOrInfinity pos = Some k -> 0 <= k < 62 ->
  exists c, charAt tokenCharacters pos = String c EmptyString
            /\ In c (list_ascii_of_string tokenCharacters).
Proof.
  intros Hpos Hk. unfold charAt. rewrite Hpos.
  replace (k <? 0) with false by (symmetry; apply Z.ltb_ge; lia).
  destruct (get_some tokenCharacters (Z.to_nat k)) as (c & -> & Hin).
  { change (String.length tokenCharacters) with 62%nat. lia. }
  exists c. split; [reflexivity|exact Hin].
Qed.

Lemma generateTokenLoop_spec (random : nat -> number) (n : Z) :
  (forall i, inUnitInterval (random i)) -> 0 <= n < 2 ^ 53 ->
  forall (k : nat) (j : Z) (fuel calls : nat) (acc : string),
    0 <= j <= n -> k = Z.to_nat (n - j) -> (k < fuel)%nat ->
    exists t,
      generateTokenLoop fuel random calls (num n) (num j) acc = Some (acc +:+ t)
      /\ String.length t = k
      /\ Forall (fun c => In c (list_ascii_of_string tokenCharacters))
           (list_ascii_of_string t).
Proof.
  intros Hrandom Hn. induction k as [|k IH]; intros j fuel calls acc Hj Hk Hfuel.
  - destruct fuel as [|fuel]; [lia|]. cbn [generateTokenLoop].
    rewrite lt_naturals by lia.
    replace (j <? n) with false by (symmetry; apply Z.ltb_ge; lia).
    exists EmptyString. rewrite append_nil_r.
    split; [reflexivity|]. split; [reflexivity|constructor].
  - destruct fuel as [|fuel]; [lia|]. cbn [generateTokenLoop].
    rewrite lt_naturals by lia.
    replace (j <? n) with true by (symmetry; apply Z.ltb_lt; lia).
    rewrite add_one by lia.
    destruct (random_index (random calls) (Hrandom calls)) as (idx & Hidx & Hb).
    destruct (charAt_tokenCharacters _ idx Hidx Hb) as (c & -> & Hin).
    destruct (IH (j + 1) fuel (S calls) (acc +:+ String c EmptyString)
                ltac:(lia) ltac:(lia) ltac:(lia))
      as (t & -> & Hlen & Hall).
    exists (String c t). split.
    + f_equal. rewrite append_assoc. reflexivity.
    + split; [cbn [String.length]; now rewrite Hlen|].
      cbn [list_ascii_of_string]. constructor; assumption.
Qed.

End GenerateToken.

(** X27: for an integral [length] from 0 to below 2^53, and whatever numbers
    of the unit interval [Math.random] returns, [generateToken] returns a
    token of exactly [length] characters, each one a character of
    [tokenCharacters]: the index [Math.floor(Math.random() * 62)] never
    reaches 62, also after the rounding of the product.  The loop ends after
    [length + 1] tests of its condition. *)
Theorem generateToken_length (random : nat -> number) (n : Z) (fuel : nat)
    (Hrandom : forall i, inUnitInterval (random i))
    (Hn : 0 <= n < 2 ^ 53) (Hfuel : (Z.to_nat n < fuel)%nat) :
  exists token,
    generateToken fuel random (num n) = Some token
    /\ String.length token = Z.to_nat n
    /\ Forall (fun c => In c (list_ascii_of_string tokenCharacters))
         (list_ascii_of_string token).
Proof.
  unfold generateToken.
  destruct (generateTokenLoop_spec random n Hrandom Hn (Z.to_nat n) 0 fuel 0%nat
              EmptyString ltac:(lia) ltac:(f_equal; lia) Hfuel)
    as (t & Ht & Hlen & Hall).
  exists t. rewrite append_nil_l in Ht. change (num 0) with (S754_zero false) in Ht |- *.
  split; [exact Ht|]. split; assumption.
Qed.

Lemma generateToken_length_witness :
  (forall i, inUnitInterval (exampleRandom i)) /\ 0 <= 3 < 2 ^ 53
  /\ (Z.to_nat 3 < 10)%nat
  /\ exists token,
       generateToken 10 exampleRandom (num 3) = Some token
       /\ String.length token = Z.to_nat 3
       /\ Forall (fun c => In c (list_ascii_of_string tokenCharacters))
            (list_ascii_of_string token).
Proof.
  assert (H : forall i, inUnitInterval (exampleRandom i)).
  { intros [|[|i]]; vm_compute; try exact I; (split; [reflexivity|discriminate]). }
  split; [exact H|]. split; [lia|]. split; [cbn; lia|].
  apply (generateToken_length exampleRandom 3 10 H); [lia|cbn; lia].
Defined.

Example generateToken_example :
  generateToken 10 exampleRandom (num 3) = Some "Af9".
Proof. vm_compute. reflexivity. Qed.
